(** * legate-boost: the CPU tree builder of [src/models/tree/build_tree.cc]

    A shallow embedding of the histogram-based regression-tree builder and
    the properties its specification states about it.

    Conventions of the embedding.
    - C++ [double] (and the feature type [T]) is the carrier of a
      [DoubleArith] instance: [ieee] is IEEE binary64 (Rocq's primitive
      floats), [exact] is the field of rationals.  The code is written once,
      over the interface.
    - [int], [int32_t] and [int64_t] are [Z]; signed overflow is undefined in
      C++, and every index the builder forms stays below [max_nodes] and the
      histogram size.  The one narrowing conversion the source performs on a
      computed size ([row_pointers], an [int32_t] buffer) is written out.
    - [std::vector] is [list], read with [vec_at] and written with [vec_set];
      [legate::Buffer] and the store accessors are functions of their indices.
    - [for (i = lo; i < hi; ++i)] is [for_range lo hi].
    - The task runs on one shard; the other shards of the launch ([peers])
      run the same code on their slabs and meet it in [SumAllReduce]. *)

From Stdlib Require Import ZArith Lia Bool List String Floats QArith Qcanon Sorted.
From stdpp Require Import base list.

Local Open Scope Z_scope.

(** ** Numbers *)

Class DoubleArith := {
  double : Type;
  dzero : double;
  dhalf : double;
  dadd : double → double → double;
  dsub : double → double → double;
  dmul : double → double → double;
  ddiv : double → double → double;
  dneg : double → double;
  dltb : double → double → bool;
  dleb : double → double → bool;
  (** The constant [eps] of build_tree.h. *)
  eps : double
}.

Declare Scope dbl_scope.
Delimit Scope dbl_scope with dbl.
Infix "+!" := dadd (at level 50, left associativity) : dbl_scope.
Infix "-!" := dsub (at level 50, left associativity) : dbl_scope.
Infix "*!" := dmul (at level 40, left associativity) : dbl_scope.
Infix "/!" := ddiv (at level 40, left associativity) : dbl_scope.
Infix "<!" := dltb (at level 65, no associativity) : dbl_scope.
Infix "<=!" := dleb (at level 65, no associativity) : dbl_scope.
Local Open Scope dbl_scope.

(** IEEE binary64, the arithmetic the compiled code runs on. *)
Definition ieee : DoubleArith := {|
  double := float;
  dzero := 0%float;
  dhalf := 0.5%float;
  dadd := PrimFloat.add;
  dsub := PrimFloat.sub;
  dmul := PrimFloat.mul;
  ddiv := PrimFloat.div;
  dneg := PrimFloat.opp;
  dltb := PrimFloat.ltb;
  dleb := PrimFloat.leb;
  eps := 0x1.19799812dea11p-40%float
|}.

(** Exact rational arithmetic: the reading in which sums do not round. *)
Definition exact : DoubleArith := {|
  double := Qc;
  dzero := Q2Qc 0;
  dhalf := Q2Qc (1 # 2);
  dadd := Qcplus;
  dsub := Qcminus;
  dmul := Qcmult;
  ddiv := Qcdiv;
  dneg := Qcopp;
  dltb := λ a b, negb (Qle_bool b a);
  dleb := λ a b, Qle_bool a b;
  eps := Q2Qc (1 # 1000000000000)
|}.

(** [a] is a number: it compares with itself (a NaN does not). *)
Definition ordered {DA : DoubleArith} (a : double) : Prop := a <=! a = true.

(** What the proofs use of the comparisons; IEEE doubles and the rationals
    both satisfy it (instances [ieee_laws] and [exact_laws]).  A comparison
    that holds has numbers on both sides, an operation whose result is a
    number had numbers as operands, and numbers are totally ordered. *)
Class DoubleLaws (DA : DoubleArith) : Prop := {
  ltb_irrefl : ∀ a, a <! a = false;
  ltb_trans : ∀ a b c, a <! b = true → b <! c = true → a <! c = true;
  leb_not_gt : ∀ a b, a <=! b = true → b <! a = false;
  ltb_ordered : ∀ a b, a <! b = true → ordered a ∧ ordered b;
  leb_total : ∀ a b, ordered a → ordered b → a <=! b = false → b <! a = true;
  dadd_ordered : ∀ a b, ordered (a +! b) → ordered a ∧ ordered b;
  dsub_ordered : ∀ a b, ordered (a -! b) → ordered a ∧ ordered b;
  dmul_ordered : ∀ a b, ordered (a *! b) → ordered a ∧ ordered b;
  ddiv_ordered : ∀ a b, ordered (a /! b) → ordered a ∧ ordered b;
  dzero_ordered : ordered dzero;
  eps_not_negative : eps <! dzero = false
}.

(** Arithmetic without rounding: a commutative ring (with [dhalf + dhalf]
    as its unit) whose order is total and compatible with addition.  The
    rationals satisfy it (instance [exact_ring_laws]); IEEE doubles do not. *)
Class ExactLaws (DA : DoubleArith) : Prop := {
  exact_ring :
    ring_theory dzero (dhalf +! dhalf) dadd dmul dsub dneg (@eq double);
  exact_leb_total : ∀ a b, a <=! b = true ∨ b <=! a = true;
  exact_leb_add : ∀ a b c, a <=! b = true → (a +! c) <=! (b +! c) = true
}.

(** ** Loops and vectors *)

(** [for (i = lo; i < hi; ++i) s = body i s]. *)
Definition for_range {S : Type} (lo hi : Z) (body : Z → S → S) (s : S) : S :=
  foldl (λ s i, body i s) s (seqZ lo (hi - lo)).

(** [v[i]] of a [std::vector]; the source never reads outside the vector,
    [d] stands for what such a read would find. *)
Definition vec_at {A : Type} (d : A) (v : list A) (i : Z) : A :=
  nth (Z.to_nat i) v d.

(** [v[i] = x]. *)
Definition vec_set {A : Type} (v : list A) (i : Z) (x : A) : list A :=
  <[Z.to_nat i := x]> v.

(** Writes into a two- and a three-dimensional [legate::Buffer]. *)
Definition upd2 {A : Type} (b : Z → Z → A) (i j : Z) (x : A) : Z → Z → A :=
  λ i' j', if (i' =? i) && (j' =? j) then x else b i' j'.

Definition upd3 {A : Type} (b : Z → Z → Z → A) (i j k : Z) (x : A)
  : Z → Z → Z → A :=
  λ i' j' k', if (i' =? i) && (j' =? j) && (k' =? k) then x else b i' j' k'.

(** ** Declarations of build_tree.h *)

(** Modelled from the spec: the header build_tree.h is not part of the
    sources; section 4.1 gives the index algebra of the implicit binary
    heap. *)
Module BinaryTree.

Definition LeftChild (n : Z) : Z := 2 * n + 1.

Definition RightChild (n : Z) : Z := 2 * n + 2.

Definition Parent (n : Z) : Z := Z.quot (n - 1) 2.

Definition LevelBegin (d : Z) : Z := 2 ^ d - 1.

Definition NodesInLevel (d : Z) : Z := 2 ^ d.

End BinaryTree.
Import BinaryTree.

(** ** Task results *)

(** How a task ends.  A failed expectation aborts it with a diagnostic; a
    C++ exception leaves it; an access outside a container leaves what C++
    defines, and nothing is known of the run from there on; otherwise the
    task completes with a value. *)
Inductive result (A : Type) : Type :=
  | Abort (diagnostic : string)
  | Throws (exception : string)
  | Undefined
  | Done (a : A).
Arguments Abort {A} diagnostic.
Arguments Throws {A} exception.
Arguments Undefined {A}.
Arguments Done {A} a.

#[export] Instance result_bind : MBind result := λ A B k r,
  match r with
  | Abort d => Abort d
  | Throws e => Throws e
  | Undefined => Undefined
  | Done a => k a
  end.

Section Model.
Context {DA : DoubleArith}.

(** [std::max(a, b)]: [(a < b) ? b : a]. *)
Definition dmax (a b : double) : double := if a <! b then b else a.

(** Modelled from the spec: GPair of build_tree.h, an additive pair of a
    gradient and a hessian with componentwise [+], [-] and [+=]. *)
Record GPair := mkGPair { grad : double; hess : double }.

Definition gzero : GPair := mkGPair dzero dzero.
Definition gadd (a b : GPair) : GPair :=
  mkGPair (grad a +! grad b) (hess a +! hess b).
Definition gsub (a b : GPair) : GPair :=
  mkGPair (grad a -! grad b) (hess a -! hess b).

(** Modelled from the spec: CalculateLeafValue of build_tree.h,
    [-G / (H + max(eps, alpha))]. *)
Definition CalculateLeafValue (G H alpha : double) : double :=
  dneg G /! (H +! dmax eps alpha).

(** Modelled from the spec: SparseSplitProposals of build_tree.h, the
    compressed-row table of thresholds of section 3. *)
Record SparseSplitProposals := mkProposals {
  split_proposals : list double;
  row_pointers : list Z;
  sp_num_features : Z;
  histogram_size : Z
}.

(** Modelled from the spec: the members [NOT_FOUND] and [FeatureRange] of
    SparseSplitProposals. *)
Definition NOT_FOUND : Z := -1.

Definition FeatureRange (sp : SparseSplitProposals) (feature : Z) : Z * Z :=
  (vec_at 0 (row_pointers sp) feature, vec_at 0 (row_pointers sp) (feature + 1)).

(** Modelled from the spec: [FindBin], the smallest bin of the feature whose
    threshold is at least [x]. *)
Definition FindBin (sp : SparseSplitProposals) (x : double) (feature : Z) : Z :=
  let '(feature_begin, feature_end) := FeatureRange sp feature in
  match find (λ b, x <=! vec_at dzero (split_proposals sp) b)
             (seqZ feature_begin (feature_end - feature_begin)) with
  | Some b => b
  | None => NOT_FOUND
  end.

(** Modelled from the spec: SelectHistogramNode of build_tree.h.  Of the two
    children of [parent], the one with the smaller hessian (output 0) is
    built from the rows, its sibling by subtraction. *)
Definition SelectHistogramNode (parent : Z) (node_hessians : Z → Z → double)
  : Z * Z :=
  let left_child := LeftChild parent in
  let right_child := RightChild parent in
  if node_hessians left_child 0 <! node_hessians right_child 0
  then (left_child, right_child)
  else (right_child, left_child).

(** Modelled from the spec: ComputeHistogramBin of build_tree.h, true for the
    directly built child, and for every node at depth 0. *)
Definition ComputeHistogramBin (node_id depth : Z)
  (node_hessians : Z → Z → double) : bool :=
  if depth =? 0 then true
  else fst (SelectHistogramNode (Parent node_id) node_hessians) =? node_id.

(** ** Tree *)

Record Tree := mkTree {
  leaf_value : Z → Z → double;
  feature : list Z;
  split_value : list double;
  gain : list double;
  hessian : Z → Z → double;
  gradient : Z → Z → double;
  tree_num_outputs : Z
}.

(** The constructor: [feature] filled with -1, the other vectors
    value-initialised, the three buffers zeroed by the constructor's loops. *)
Definition Tree_new (max_nodes num_outputs : Z) : Tree := {|
  leaf_value := λ _ _, dzero;
  feature := replicate (Z.to_nat max_nodes) (-1);
  split_value := replicate (Z.to_nat max_nodes) dzero;
  gain := replicate (Z.to_nat max_nodes) dzero;
  hessian := λ _ _, dzero;
  gradient := λ _ _, dzero;
  tree_num_outputs := num_outputs
|}.

(** One iteration of the output loop of [AddSplit]. *)
Definition AddSplit_output (node_id : Z)
  (left_leaf_value right_leaf_value gradient_left gradient_right
   hessian_left hessian_right : list double) (output : Z) (t : Tree) : Tree :=
  let l := LeftChild node_id in
  let r := RightChild node_id in
  {| leaf_value :=
       upd2 (upd2 (leaf_value t) l output (vec_at dzero left_leaf_value output))
            r output (vec_at dzero right_leaf_value output);
     feature := feature t;
     split_value := split_value t;
     gain := gain t;
     hessian :=
       upd2 (upd2 (hessian t) l output (vec_at dzero hessian_left output))
            r output (vec_at dzero hessian_right output);
     gradient :=
       upd2 (upd2 (gradient t) l output (vec_at dzero gradient_left output))
            r output (vec_at dzero gradient_right output);
     tree_num_outputs := tree_num_outputs t |}.

Definition AddSplit (t : Tree) (node_id feature_id : Z) (split_value' : double)
  (left_leaf_value right_leaf_value : list double) (gain' : double)
  (gradient_left gradient_right hessian_left hessian_right : list double)
  : Tree :=
  let num_outputs := Z.of_nat (length left_leaf_value) in
  let t1 := {| leaf_value := leaf_value t;
               feature := vec_set (feature t) node_id feature_id;
               split_value := vec_set (split_value t) node_id split_value';
               gain := vec_set (gain t) node_id gain';
               hessian := hessian t;
               gradient := gradient t;
               tree_num_outputs := tree_num_outputs t |} in
  for_range 0 num_outputs
    (AddSplit_output node_id left_leaf_value right_leaf_value
       gradient_left gradient_right hessian_left hessian_right) t1.

Definition IsLeaf (t : Tree) (node_id : Z) : bool :=
  vec_at 0 (feature t) node_id =? -1.

(** ** Stores and the launch *)

(** [legate::Rect<3>]: inclusive bounds on the three axes. *)
Record Rect3 := mkRect3 {
  lo0 : Z; lo1 : Z; lo2 : Z;
  hi0 : Z; hi1 : Z; hi2 : Z
}.

(** Modelled from the spec: what [GetInputStore] of cpp_utils.h returns for
    one input: the shape, the read accessor, and whether the accessor is
    dense row-major over the shape (what [EXPECT_DENSE_ROW_MAJOR] tests). *)
Record Store := mkStore {
  shape : Rect3;
  acc : Z → Z → Z → double;
  dense_row_major : bool
}.

(** The three inputs of one task: the slab of one shard. *)
Record Shard := mkShard { in_X : Store; in_g : Store; in_h : Store }.

Record Scalars := mkScalars {
  max_depth : Z;
  max_nodes : Z;
  alpha : double;
  split_samples : Z;
  seed : Z;
  dataset_rows : Z
}.

(** The task context: the task's own inputs and scalars; the slabs of the
    other shards of the launch, which take part in every [SumAllReduce]; and
    [dist_eng i], the [i]-th value [dist(eng)] returns for the seed, which
    every shard draws identically. *)
Record TaskContext := mkContext {
  inputs : Shard;
  scalars : Scalars;
  peers : list Shard;
  dist_eng : Z → Z
}.

(** Modelled from the spec: [SumAllReduce] of cpp_utils.h, on one cell: the
    sum of the task's value and of the values of the other shards. *)
Definition SumAllReduce (own : double) (others : list double) : double :=
  foldl dadd own others.

(** The same on a cell of a GPair array, which the source passes as two
    doubles. *)
Definition SumAllReduce_pair (own : GPair) (others : list GPair) : GPair :=
  mkGPair (SumAllReduce (grad own) (map grad others))
          (SumAllReduce (hess own) (map hess others)).

(** ** SelectSplitSamples *)

(** Conversion of a size to [int32_t]. *)
Definition to_int32 (z : Z) : Z := (z + 2 ^ 31) mod 2 ^ 32 - 2 ^ 31.

(** Insertion into a [std::set<T>], kept as the sorted list its iteration
    yields; two keys are the same when neither is less than the other. *)
Fixpoint set_insert (x : double) (s : list double) : list double :=
  match s with
  | [] => [x]
  | y :: s' =>
      if y <! x then y :: set_insert x s'
      else if x <! y then x :: y :: s'
      else y :: s'
  end.

(** [std::set<T> unique(first, last)]. *)
Definition set_of_range (values : list double) : list double :=
  foldl (λ s x, set_insert x s) [] values.

(** The draft buffer one shard fills before the reduction. *)
Definition draft_proposals_local (X : Store) (num_features split_samples : Z)
  (row_samples : list Z) : Z → Z → double :=
  for_range 0 split_samples
    (λ i draft,
       let row := vec_at 0 row_samples i in
       let has_data := (lo0 (shape X) <=? row) && (row <=? hi0 (shape X)) in
       for_range 0 num_features
         (λ j draft, upd2 draft j i (if has_data then acc X row j 0 else dzero))
         draft)
    (λ _ _, dzero).

Definition SelectSplitSamples (context : TaskContext) (X : Store)
  (split_samples seed dataset_rows : Z) : SparseSplitProposals :=
  let row_samples := map (dist_eng context) (seqZ 0 split_samples) in
  let num_features := hi1 (shape X) - lo1 (shape X) + 1 in
  let draft_local := draft_proposals_local X num_features split_samples row_samples in
  let draft_peers :=
    map (λ p, draft_proposals_local (in_X p) num_features split_samples row_samples)
        (peers context) in
  let draft_proposals : Z → Z → double :=
    λ j i, SumAllReduce (draft_local j i) (map (λ d, d j i) draft_peers) in
  let '(row_pointers, split_proposals_tmp) :=
    for_range 0 num_features
      (λ j '(row_pointers, split_proposals_tmp),
         let unique := set_of_range (map (draft_proposals j) (seqZ 0 split_samples)) in
         (vec_set row_pointers (j + 1)
            (to_int32 (vec_at 0 row_pointers j + Z.of_nat (length unique))),
          split_proposals_tmp ++ unique))
      (vec_set (replicate (Z.to_nat (num_features + 1)) 0) 0 0, []) in
  mkProposals split_proposals_tmp row_pointers num_features
    (Z.of_nat (length split_proposals_tmp)).

(** ** TreeBuilder *)

Definition Histogram : Type := Z → Z → Z → GPair.

Record TreeBuilder := mkBuilder {
  positions : list Z;
  num_rows : Z;
  num_features : Z;
  num_outputs : Z;
  tb_max_nodes : Z;
  tb_split_proposals : SparseSplitProposals;
  histogram_buffer : Histogram
}.

(** The constructor: every row at the root, the histogram zeroed. *)
Definition TreeBuilder_new (num_rows num_features num_outputs max_nodes : Z)
  (sp : SparseSplitProposals) : TreeBuilder := {|
  positions := replicate (Z.to_nat num_rows) 0;
  num_rows := num_rows;
  num_features := num_features;
  num_outputs := num_outputs;
  tb_max_nodes := max_nodes;
  tb_split_proposals := sp;
  histogram_buffer := λ _ _ _, gzero
|}.

Definition with_positions (b : TreeBuilder) (p : list Z) : TreeBuilder :=
  mkBuilder p (num_rows b) (num_features b) (num_outputs b) (tb_max_nodes b)
    (tb_split_proposals b) (histogram_buffer b).

Definition with_histogram (b : TreeBuilder) (hb : Histogram) : TreeBuilder :=
  mkBuilder (positions b) (num_rows b) (num_features b) (num_outputs b)
    (tb_max_nodes b) (tb_split_proposals b) hb.

(** *** ComputeHistogram *)

(** The loops over the features and the outputs: what row [i], at node
    [position], adds to the histogram. *)
Definition add_row (b : TreeBuilder) (X g h : Store) (i position : Z)
  (hb : Histogram) : Histogram :=
  for_range 0 (num_features b)
    (λ j hb,
       let x_value := acc X i j 0 in
       let bin_idx := FindBin (tb_split_proposals b) x_value j in
       if negb (bin_idx =? NOT_FOUND) then
         for_range 0 (num_outputs b)
           (λ k hb,
              upd3 hb position bin_idx k
                (gadd (hb position bin_idx k)
                      (mkGPair (acc g i 0 k) (acc h i 0 k))))
           hb
       else hb)
    hb.

(** The body of the row loop: rows that are inactive, or on a node whose
    histogram is derived from its sibling's, are skipped. *)
Definition histogram_row (b : TreeBuilder) (depth : Z) (tree : Tree)
  (X g h : Store) (i position : Z) (hb : Histogram) : Histogram :=
  let compute := ComputeHistogramBin position depth (hessian tree) in
  if (position <? 0) || negb compute then hb
  else add_row b X g h i position hb.

(** The row loop over the slab of one shard, whose builder holds
    [positions']. *)
Definition build_histogram (b : TreeBuilder) (depth : Z) (tree : Tree)
  (s : Shard) (positions' : list Z) (hb : Histogram) : Histogram :=
  let X_shape := shape (in_X s) in
  for_range (lo0 X_shape) (hi0 X_shape + 1)
    (λ i hb,
       let index_local := i - lo0 X_shape in
       let position := vec_at 0 positions' index_local in
       histogram_row b depth tree (in_X s) (in_g s) (in_h s) i position hb)
    hb.

(** The cells [SumAllReduce] covers at [depth]: the nodes of the level, every
    bin and every output. *)
Definition in_level_slab (b : TreeBuilder) (depth node bin output : Z) : bool :=
  (LevelBegin depth <=? node) && (node <? LevelBegin depth + NodesInLevel depth)
  && (0 <=? bin) && (bin <? histogram_size (tb_split_proposals b))
  && (0 <=? output) && (output <? num_outputs b).

(** *** Scan *)

Definition scan_node_histogram (b : TreeBuilder) (node_idx : Z) (hb : Histogram)
  : Histogram :=
  for_range 0 (num_features b)
    (λ feature hb,
       let '(feature_begin, feature_end) :=
         FeatureRange (tb_split_proposals b) feature in
       for_range 0 (num_outputs b)
         (λ output hb,
            snd (for_range feature_begin feature_end
                   (λ bin_idx '(sum, hb),
                      let sum := gadd sum (hb node_idx bin_idx output) in
                      (sum, upd3 hb node_idx bin_idx output sum))
                   (gzero, hb)))
         hb)
    hb.

Definition subtract_node_histogram (b : TreeBuilder)
  (subtract_node_idx scanned_node_idx parent_node_idx : Z) (hb : Histogram)
  : Histogram :=
  for_range 0 (num_features b)
    (λ feature hb,
       let '(feature_begin, feature_end) :=
         FeatureRange (tb_split_proposals b) feature in
       for_range 0 (num_outputs b)
         (λ output hb,
            for_range feature_begin feature_end
              (λ bin_idx hb,
                 let scanned_sum := hb scanned_node_idx bin_idx output in
                 let parent_sum := hb parent_node_idx bin_idx output in
                 upd3 hb subtract_node_idx bin_idx output
                   (gsub parent_sum scanned_sum))
              hb)
         hb)
    hb.

Definition Scan (b : TreeBuilder) (depth : Z) (tree : Tree) : TreeBuilder :=
  let hb := histogram_buffer b in
  if depth =? 0 then with_histogram b (scan_node_histogram b 0 hb)
  else
    with_histogram b
      (for_range (LevelBegin (depth - 1))
         (LevelBegin (depth - 1) + NodesInLevel (depth - 1))
         (λ parent_id hb,
            let '(histogram_node_idx, subtract_node_idx) :=
              SelectHistogramNode parent_id (hessian tree) in
            let hb := scan_node_histogram b histogram_node_idx hb in
            subtract_node_histogram b subtract_node_idx histogram_node_idx
              parent_id hb)
         hb).

(** [ComputeHistogram]: the row loop, the reduction of the level's slab over
    the launch, then [Scan].  [peer_positions] are the positions the
    builders of the other shards hold; outside the reduced slab the buffer is
    the task's own. *)
Definition ComputeHistogram (b : TreeBuilder) (depth : Z)
  (context : TaskContext) (tree : Tree) (peer_positions : list (list Z))
  : TreeBuilder :=
  let hb := histogram_buffer b in
  let local := build_histogram b depth tree (inputs context) (positions b) hb in
  let remote :=
    zip_with (λ s p, build_histogram b depth tree s p hb)
      (peers context) peer_positions in
  let reduced : Histogram :=
    λ node bin output,
      if in_level_slab b depth node bin output
      then SumAllReduce_pair (local node bin output)
             (map (λ r : Histogram, r node bin output) remote)
      else local node bin output in
  Scan (with_histogram b reduced) depth tree.

(** The histogram of [node] built directly, as the specification describes
    the alternative to the subtraction: the rows that are at [node] are
    accumulated into a zeroed buffer on every shard, the buffers are summed
    over the launch, and the node is scanned. *)
Definition node_rows_histogram (b : TreeBuilder) (s : Shard)
  (positions' : list Z) (node : Z) : Histogram :=
  let X_shape := shape (in_X s) in
  for_range (lo0 X_shape) (hi0 X_shape + 1)
    (λ i hb,
       let position := vec_at 0 positions' (i - lo0 X_shape) in
       if position =? node
       then add_row b (in_X s) (in_g s) (in_h s) i position hb
       else hb)
    (λ _ _ _, gzero).

Definition direct_histogram (b : TreeBuilder) (context : TaskContext)
  (peer_positions : list (list Z)) (node bin output : Z) : GPair :=
  let local := node_rows_histogram b (inputs context) (positions b) node in
  let remote :=
    zip_with (λ s p, node_rows_histogram b s p node)
      (peers context) peer_positions in
  scan_node_histogram b node
    (λ n bin output,
       SumAllReduce_pair (local n bin output)
         (map (λ r : Histogram, r n bin output) remote))
    node bin output.

(** *** PerformBestSplit *)

(** The gain of the candidate [(node_id, bin_idx)]: the output loop. *)
Definition candidate_gain (b : TreeBuilder) (tree : Tree) (alpha : double)
  (node_id bin_idx : Z) : double :=
  for_range 0 (num_outputs b)
    (λ output gain,
       let G_L := grad (histogram_buffer b node_id bin_idx output) in
       let H_L := hess (histogram_buffer b node_id bin_idx output) in
       let G := gradient tree node_id output in
       let H := hessian tree node_id output in
       let G_R := G -! G_L in
       let H_R := H -! H_L in
       let reg := dmax eps alpha in
       gain +! dhalf *! ((G_L *! G_L) /! (H_L +! reg)
                         +! (G_R *! G_R) /! (H_R +! reg)
                         -! (G *! G) /! (H +! reg)))
    dzero.

Record Best := mkBest { best_gain : double; best_feature : Z; best_bin : Z }.

(** The test the search makes at one candidate. *)
Definition consider (b : TreeBuilder) (tree : Tree) (alpha : double)
  (node_id feature bin_idx : Z) (best : Best) : Best :=
  let gain := candidate_gain b tree alpha node_id bin_idx in
  if best_gain best <! gain then mkBest gain feature bin_idx else best.

(** The search over the features and their bins. *)
Definition find_best_split (b : TreeBuilder) (tree : Tree) (alpha : double)
  (node_id : Z) : Best :=
  for_range 0 (num_features b)
    (λ feature best,
       let '(feature_begin, feature_end) :=
         FeatureRange (tb_split_proposals b) feature in
       for_range feature_begin feature_end
         (consider b tree alpha node_id feature) best)
    (mkBest dzero (-1) (-1)).

(** The body of the node loop. *)
Definition split_node (b : TreeBuilder) (alpha : double) (node_id : Z)
  (tree : Tree) : Tree :=
  let best := find_best_split b tree alpha node_id in
  if eps <! best_gain best then
    let outputs := seqZ 0 (num_outputs b) in
    let G_L output := grad (histogram_buffer b node_id (best_bin best) output) in
    let H_L output := hess (histogram_buffer b node_id (best_bin best) output) in
    let G_R output := gradient tree node_id output -! G_L output in
    let H_R output := hessian tree node_id output -! H_L output in
    let left_leaf :=
      map (λ o, CalculateLeafValue (G_L o) (H_L o) alpha) outputs in
    let right_leaf :=
      map (λ o, CalculateLeafValue (G_R o) (H_R o) alpha) outputs in
    let gradient_left := map G_L outputs in
    let gradient_right := map G_R outputs in
    let hessian_left := map H_L outputs in
    let hessian_right := map H_R outputs in
    if (vec_at dzero hessian_left 0 <=! dzero)
       || (vec_at dzero hessian_right 0 <=! dzero)
    then tree
    else
      AddSplit tree node_id (best_feature best)
        (vec_at dzero (split_proposals (tb_split_proposals b)) (best_bin best))
        left_leaf right_leaf (best_gain best)
        gradient_left gradient_right hessian_left hessian_right
  else tree.

Definition PerformBestSplit (b : TreeBuilder) (depth : Z) (tree : Tree)
  (alpha : double) : Tree :=
  for_range (LevelBegin depth) (LevelBegin (depth + 1))
    (split_node b alpha) tree.

(** The two tests that let the split of node [n] through: the best gain
    exceeds [eps], and neither [hessian_left[0]] nor [hessian_right[0]] is
    [<= 0]. *)
Definition split_applies (b : TreeBuilder) (a : double) (t : Tree) (n : Z)
  : bool :=
  let best := find_best_split b t a n in
  let outputs := seqZ 0 (num_outputs b) in
  let H_L o := hess (histogram_buffer b n (best_bin best) o) in
  let H_R o := hessian t n o -! H_L o in
  (eps <! best_gain best)
  && negb ((vec_at dzero (map H_L outputs) 0 <=! dzero)
           || (vec_at dzero (map H_R outputs) 0 <=! dzero)).

(** *** UpdatePositions *)

(** Where a row at [pos] goes. *)
Definition next_position (tree : Tree) (X : Store) (i pos : Z) : Z :=
  if (pos <? 0) || IsLeaf tree pos then -1
  else
    let x := acc X i (vec_at 0 (feature tree) pos) 0 in
    let left := x <=! vec_at dzero (split_value tree) pos in
    if left then LeftChild pos else RightChild pos.

(** The method on one positions vector: the task's, or a peer's. *)
Definition UpdatePositions (depth : Z) (tree : Tree) (X : Store)
  (positions' : list Z) : list Z :=
  if depth =? 0 then positions'
  else
    let X_shape := shape X in
    for_range (lo0 X_shape) (hi0 X_shape + 1)
      (λ i positions',
         let index_local := i - lo0 X_shape in
         let pos := vec_at 0 positions' index_local in
         vec_set positions' index_local (next_position tree X i pos))
      positions'.

(** *** InitialiseRoot *)

(** The sums one shard forms before the reduction. *)
Definition base_sums_local (num_outputs' : Z) (g h : Store) : list GPair :=
  let g_shape := shape g in
  for_range (lo0 g_shape) (hi0 g_shape + 1)
    (λ i base_sums,
       for_range 0 num_outputs'
         (λ j base_sums,
            vec_set base_sums j
              (gadd (vec_at gzero base_sums j)
                    (mkGPair (acc g i 0 j) (acc h i 0 j))))
         base_sums)
    (replicate (Z.to_nat num_outputs') gzero).

(** [base_sums] after [SumAllReduce]. *)
Definition base_sums_reduced (num_outputs' : Z) (context : TaskContext)
  : list GPair :=
  let own := inputs context in
  let local := base_sums_local num_outputs' (in_g own) (in_h own) in
  let remote :=
    map (λ p, base_sums_local num_outputs' (in_g p) (in_h p))
        (peers context) in
  imap (λ j s, SumAllReduce_pair s
                 (map (λ r, vec_at gzero r (Z.of_nat j)) remote)) local.

Definition InitialiseRoot (b : TreeBuilder) (context : TaskContext)
  (tree : Tree) (alpha : double) : Tree :=
  let base_sums := base_sums_reduced (num_outputs b) context in
  for_range 0 (num_outputs b)
    (λ i tree,
       let G := grad (vec_at gzero base_sums i) in
       let H := hess (vec_at gzero base_sums i) in
       mkTree (upd2 (leaf_value tree) 0 i (CalculateLeafValue G H alpha))
         (feature tree) (split_value tree) (gain tree)
         (upd2 (hessian tree) 0 i H)
         (upd2 (gradient tree) 0 i G)
         (tree_num_outputs tree))
    tree.

(** ** build_tree_fn *)






(** The state the level loop carries: the tree, the task's builder, and the
    positions held by the builders of the other shards. *)
Record LevelState := mkLevel {
  ls_tree : Tree;
  ls_builder : TreeBuilder;
  ls_peer_positions : list (list Z)
}.

(** [tree_builder.UpdatePositions(depth, ...)], on every shard. *)
Definition update_step (context : TaskContext) (depth : Z) (st : LevelState)
  : LevelState :=
  let tree := ls_tree st in
  let b := ls_builder st in
  mkLevel tree
    (with_positions b
       (UpdatePositions depth tree (in_X (inputs context)) (positions b)))
    (zip_with (λ s p, UpdatePositions depth tree (in_X s) p)
       (peers context) (ls_peer_positions st)).

(** [ComputeHistogram] followed by [PerformBestSplit]. *)
Definition split_step (context : TaskContext) (depth : Z) (st : LevelState)
  : LevelState :=
  let tree := ls_tree st in
  let b := ComputeHistogram (ls_builder st) depth context tree
             (ls_peer_positions st) in
  mkLevel (PerformBestSplit b depth tree (alpha (scalars context))) b
    (ls_peer_positions st).

(** The body of the level loop. *)
Definition level_step (context : TaskContext) (depth : Z) (st : LevelState)
  : LevelState :=
  split_step context depth (update_step context depth st).

Definition shard_rows (s : Shard) : Z :=
  Z.max (hi0 (shape (in_X s)) - lo0 (shape (in_X s)) + 1) 0.

(** The state before the level loop: the tree and the builder constructed,
    the root initialised. *)
Definition initial_state (context : TaskContext) : LevelState :=
  let own := inputs context in
  let X_shape := shape (in_X own) in
  let g_shape := shape (in_g own) in
  let num_features := hi1 X_shape - lo1 X_shape + 1 in
  let num_rows := Z.max (hi0 X_shape - lo0 X_shape + 1) 0 in
  let num_outputs := hi2 g_shape - lo2 g_shape + 1 in
  let sc := scalars context in
  let tree := Tree_new (max_nodes sc) num_outputs in
  let split_proposals :=
    SelectSplitSamples context (in_X own) (split_samples sc) (seed sc)
      (dataset_rows sc) in
  let tree_builder :=
    TreeBuilder_new num_rows num_features num_outputs (max_nodes sc)
      split_proposals in
  mkLevel (InitialiseRoot tree_builder context tree (alpha sc)) tree_builder
    (map (λ p, replicate (Z.to_nat (shard_rows p)) 0) (peers context)).

(** The state after the first [depth] iterations of the level loop. *)
Definition level_state (context : TaskContext) (depth : Z) : LevelState :=
  for_range 0 depth (level_step context) (initial_state context).

(** The tree the task has built when the level loop ends. *)
Definition build_tree (context : TaskContext) : Tree :=
  ls_tree (level_state context (max_depth (scalars context))).

(** ** Rows outside the containers *)

(** The vectors and the buffers of the tree and the histogram buffer have
    [max_nodes] rows, one for each node, and the source indexes them
    unchecked.  The definitions below collect, statement by statement, the
    node indices the statements of build_tree.cc use as rows of these
    containers; what the functions of build_tree.h and cpp_utils.h do with
    the buffers they are handed is not listed.  A run that uses an index
    outside [0, max_nodes) has left what C++ defines. *)



















End Model.

(** ** The specification's scenario of a single perfect split, run *)

Module Scenario.

Definition rect (rows cols outs : Z) : Rect3 := mkRect3 0 0 0 (rows - 1) (cols - 1) (outs - 1).

Definition column {DA : DoubleArith} (v : list double) : Z → Z → Z → double :=
  λ i _ _, vec_at dzero v i.

Definition shard {DA : DoubleArith} (x g h : list double) : Shard :=
  let rows := Z.of_nat (length x) in
  mkShard (mkStore (rect rows 1 1) (column x) true)
          (mkStore (rect rows 1 1) (column g) true)
          (mkStore (rect rows 1 1) (column h) true).

Definition context {DA : DoubleArith} (x g h : list double) (depth nodes : Z)
  (a : double) : TaskContext :=
  mkContext (shard x g h)
    (mkScalars depth nodes a (Z.of_nat (length x)) 0 (Z.of_nat (length x)))
    [] (λ i, i).

End Scenario.

(** * Properties *)

(** ** Loops, vectors and buffers *)

Section Loops.
Context {St : Type}.
Implicit Types (body : Z → St → St) (s : St).

Lemma for_range_empty lo hi body s : hi ≤ lo → for_range lo hi body s = s.
Proof. intros Hle. unfold for_range. by rewrite seqZ_nil by lia. Qed.

Lemma for_range_snoc lo hi body s :
  lo ≤ hi → for_range lo (hi + 1) body s = body hi (for_range lo hi body s).
Proof.
  intros Hle. unfold for_range.
  replace (hi + 1 - lo) with ((hi - lo) + 1) by lia.
  rewrite seqZ_app by lia. rewrite foldl_app.
  rewrite (seqZ_cons (lo + (hi - lo)) 1) by lia.
  rewrite (seqZ_nil _ (Z.pred 1)) by lia. simpl.
  f_equal. lia.
Qed.

Lemma for_range_cons lo hi body s :
  lo < hi → for_range lo hi body s = for_range (lo + 1) hi body (body lo s).
Proof.
  intros Hlt. unfold for_range. rewrite seqZ_cons by lia. simpl.
  do 2 f_equal; lia.
Qed.

(** The invariant rule of the loop. *)
Lemma for_range_invariant (P : Z → St → Prop) lo hi body s :
  lo ≤ hi → P lo s →
  (∀ i s', lo ≤ i < hi → P i s' → P (i + 1) (body i s')) →
  P hi (for_range lo hi body s).
Proof.
  intros Hle H0 Hstep.
  replace hi with (lo + Z.of_nat (Z.to_nat (hi - lo))) in * by lia.
  generalize dependent (Z.to_nat (hi - lo)). intros n _ Hstep.
  induction n as [|n IH].
  - rewrite for_range_empty by lia.
    by replace (lo + Z.of_nat 0) with lo by lia.
  - replace (lo + Z.of_nat (S n)) with (lo + Z.of_nat n + 1) by lia.
    rewrite for_range_snoc by lia. apply Hstep; [lia|].
    apply IH. intros i s' Hi. apply Hstep. lia.
Qed.

Lemma for_range_split lo mid hi body s :
  lo ≤ mid ≤ hi →
  for_range lo hi body s = for_range mid hi body (for_range lo mid body s).
Proof.
  intros Hm. unfold for_range.
  replace (hi - lo) with ((mid - lo) + (hi - mid)) by lia.
  rewrite seqZ_app by lia. rewrite foldl_app. do 2 f_equal; lia.
Qed.

Lemma for_range_ext lo hi body body' s :
  (∀ i s', lo ≤ i < hi → body i s' = body' i s') →
  for_range lo hi body s = for_range lo hi body' s.
Proof.
  intros Hext. destruct (decide (lo ≤ hi)) as [Hle|Hgt].
  - apply (for_range_invariant
             (λ i s', for_range lo i body s = s') lo hi body' s Hle).
    + by rewrite for_range_empty.
    + intros i s' Hi <-. rewrite for_range_snoc by lia. apply Hext. lia.
  - by rewrite !for_range_empty by lia.
Qed.

End Loops.

Section Vectors.
Context {A : Type}.
Implicit Types (v : list A) (d x : A).

Lemma vec_at_lookup d v i x :
  0 ≤ i → v !! Z.to_nat i = Some x → vec_at d v i = x.
Proof. intros _ Hl. unfold vec_at. by apply nth_lookup_Some. Qed.

Lemma vec_at_set_eq d v i x :
  0 ≤ i < Z.of_nat (length v) → vec_at d (vec_set v i x) i = x.
Proof.
  intros Hi. unfold vec_at, vec_set. apply nth_lookup_Some.
  apply list_lookup_insert_eq. lia.
Qed.

Lemma vec_at_set_ne d v i j x :
  0 ≤ i → 0 ≤ j → i ≠ j → vec_at d (vec_set v i x) j = vec_at d v j.
Proof.
  intros Hi Hj Hne. unfold vec_at, vec_set. rewrite !nth_lookup.
  rewrite list_lookup_insert_ne; [done | lia].
Qed.

Lemma vec_at_set_ge d v i x :
  Z.of_nat (length v) ≤ i → vec_set v i x = v.
Proof. intros Hi. unfold vec_set. apply list_insert_ge. lia. Qed.

Lemma length_vec_set v i x : length (vec_set v i x) = length v.
Proof. apply length_insert. Qed.

End Vectors.

(** ** UpdatePositions *)

Section PositionsProperties.
Context {DA : DoubleArith}.

(** What the row loop of [UpdatePositions] leaves in the vector: every local
    row has moved once, from the position it had when the loop began. *)
Lemma UpdatePositions_lookup depth tree X (ps : list Z) (k : nat) :
  depth ≠ 0 →
  UpdatePositions depth tree X ps !! k =
    (λ p, if Z.of_nat k <? hi0 (shape X) - lo0 (shape X) + 1
          then next_position tree X (lo0 (shape X) + Z.of_nat k) p
          else p) <$> ps !! k.
Proof.
  intros Hd. unfold UpdatePositions.
  destruct (Z.eqb_spec depth 0) as [|_]; [done|].
  set (lo := lo0 (shape X)). set (hi := hi0 (shape X)).
  destruct (decide (lo ≤ hi + 1)) as [Hle|Hgt].
  2:{ rewrite for_range_empty by lia.
      destruct (Z.ltb_spec (Z.of_nat k) (hi - lo + 1)); [lia|].
      by destruct (ps !! k). }
  replace (hi - lo + 1) with (hi + 1 - lo) by lia.
  revert k.
  apply (for_range_invariant
    (λ m ps', ∀ k : nat, ps' !! k =
       (λ p, if Z.of_nat k <? m - lo
             then next_position tree X (lo + Z.of_nat k) p else p) <$> ps !! k)
    lo (hi + 1)); [done| |].
  - intros k. destruct (Z.ltb_spec (Z.of_nat k) (lo - lo)); [lia|].
    by destruct (ps !! k).
  - intros i ps' Hi IH k. unfold vec_set.
    destruct (decide (k = Z.to_nat (i - lo))) as [->|Hne].
    + rewrite Z2Nat.id by lia.
      destruct (Z.ltb_spec (i - lo) (i + 1 - lo)); [|lia].
      pose proof (IH (Z.to_nat (i - lo))) as Hk.
      rewrite Z2Nat.id in Hk by lia.
      destruct (Z.ltb_spec (i - lo) (i - lo)); [lia|].
      destruct (ps !! Z.to_nat (i - lo)) as [p|] eqn:Hp; simpl in *.
      * rewrite list_lookup_insert_eq by (by eapply lookup_lt_Some).
        unfold vec_at. rewrite (nth_lookup_Some _ _ _ _ Hk).
        do 2 f_equal. lia.
      * rewrite list_insert_ge; [done|]. by apply lookup_ge_None.
    + rewrite list_lookup_insert_ne by done. rewrite IH.
      destruct (Z.ltb_spec (Z.of_nat k) (i - lo)),
               (Z.ltb_spec (Z.of_nat k) (i + 1 - lo)); try done; lia.
Qed.

Lemma length_UpdatePositions depth tree X (ps : list Z) :
  length (UpdatePositions depth tree X ps) = length ps.
Proof.
  unfold UpdatePositions. destruct (depth =? 0); [done|].
  set (lo := lo0 (shape X)). set (hi := hi0 (shape X)).
  destruct (decide (lo ≤ hi + 1)) as [Hle|Hgt].
  - apply (for_range_invariant (λ _ ps', length ps' = length ps)); [done..|].
    intros i ps' _ <-. apply length_vec_set.
  - by rewrite for_range_empty by lia.
Qed.

(** C7.  [UpdatePositions(depth)] leaves the positions as they are at depth
    0.  At any other depth every local row moves once: a position that is
    negative or names a leaf becomes -1; any other position [p] becomes
    [2p+1] when [X[row, feature[p], 0] <= split_value[p]] and [2p+2]
    otherwise. *)
Theorem UpdatePositions_moves_rows depth tree X (positions : list Z) :
  (depth = 0 → UpdatePositions depth tree X positions = positions) ∧
  (depth ≠ 0 →
   ∀ (row : nat) (p : Z),
     positions !! row = Some p →
     lo0 (shape X) + Z.of_nat row ≤ hi0 (shape X) →
     ∃ p', UpdatePositions depth tree X positions !! row = Some p' ∧
       (p < 0 ∨ IsLeaf tree p = true → p' = -1) ∧
       (0 ≤ p → IsLeaf tree p = false →
        p' = if acc X (lo0 (shape X) + Z.of_nat row)
                      (vec_at 0 (feature tree) p) 0
                  <=! vec_at dzero (split_value tree) p
             then 2 * p + 1 else 2 * p + 2)).
Proof.
  split.
  - intros ->. done.
  - intros Hd row p Hp Hrow.
    rewrite UpdatePositions_lookup by done. rewrite Hp. simpl.
    destruct (Z.ltb_spec (Z.of_nat row)
                (hi0 (shape X) - lo0 (shape X) + 1)); [|lia].
    eexists; split; [done|]. unfold next_position. split.
    + intros [Hneg|Hleaf].
      * destruct (Z.ltb_spec p 0); [done|lia].
      * rewrite Hleaf. by rewrite orb_true_r.
    + intros Hpos Hleaf. rewrite Hleaf.
      destruct (Z.ltb_spec p 0); [lia|]. simpl.
      by destruct (_ <=! _).
Qed.

End PositionsProperties.

(** ** The level loop and the positions *)

Section LevelProperties.
Context {DA : DoubleArith}.

(** A position of level [d]: the row is inactive, or sits on a node of the
    level. *)
Definition in_level (d p : Z) : Prop :=
  p = -1 ∨ LevelBegin d ≤ p < LevelBegin (d + 1).

(** A positions vector of a shard during level [d]. *)
Definition shard_positions_ok (d : Z) (s : Shard) (ps : list Z) : Prop :=
  length ps = Z.to_nat (shard_rows s) ∧ Forall (in_level d) ps.

Definition positions_ok (context : TaskContext) (d : Z) (st : LevelState)
  : Prop :=
  shard_positions_ok d (inputs context) (positions (ls_builder st)) ∧
  Forall2 (shard_positions_ok d) (peers context) (ls_peer_positions st).

Lemma LevelBegin_succ d : 0 ≤ d → LevelBegin (d + 1) = 2 * LevelBegin d + 1.
Proof. intros Hd. unfold LevelBegin. rewrite Z.pow_add_r by lia. lia. Qed.

Lemma LevelBegin_nonneg d : 0 ≤ d → 0 ≤ LevelBegin d.
Proof.
  intros Hd. unfold LevelBegin.
  pose proof (Z.pow_pos_nonneg 2 d). lia.
Qed.

Lemma next_position_cases tree X i p :
  next_position tree X i p = -1 ∨
  0 ≤ p ∧ IsLeaf tree p = false ∧
  (next_position tree X i p = LeftChild p ∨
   next_position tree X i p = RightChild p).
Proof.
  unfold next_position. destruct (Z.ltb_spec p 0); simpl; [by left|].
  destruct (IsLeaf tree p); [by left|]. right.
  repeat split; [done|]. destruct (_ <=! _); auto.
Qed.

Lemma next_position_in_level tree X i d p :
  0 ≤ d → in_level d p → in_level (d + 1) (next_position tree X i p).
Proof.
  intros Hd Hp.
  destruct (next_position_cases tree X i p) as [->|(Hp0 & _ & Hn)];
    [by left|].
  destruct Hp as [->|Hp]; [lia|]. right.
  rewrite (LevelBegin_succ (d + 1)), (LevelBegin_succ d) in * by lia.
  unfold LeftChild, RightChild in Hn. lia.
Qed.

Lemma UpdatePositions_ok tree d s ps :
  0 ≤ d → shard_positions_ok d s ps →
  shard_positions_ok (d + 1) s (UpdatePositions (d + 1) tree (in_X s) ps).
Proof.
  intros Hd [Hlen Hall]. split.
  - by rewrite length_UpdatePositions.
  - apply Forall_lookup. intros k p' Hk.
    rewrite UpdatePositions_lookup in Hk by lia.
    destruct (ps !! k) as [p|] eqn:Hp; [|done]. simpl in Hk.
    pose proof (lookup_lt_Some _ _ _ Hp) as Hlt.
    rewrite Hlen in Hlt. unfold shard_rows in Hlt.
    destruct (Z.ltb_spec (Z.of_nat k)
                (hi0 (shape (in_X s)) - lo0 (shape (in_X s)) + 1)); [|lia].
    injection Hk as <-. apply next_position_in_level; [done|].
    by eapply (proj1 (Forall_lookup _ _) Hall).
Qed.

Lemma Forall2_zip_with_r {A B} (P Q : A → B → Prop) (f : A → B → B) xs ys :
  (∀ x y, P x y → Q x (f x y)) →
  Forall2 P xs ys → Forall2 Q xs (zip_with f xs ys).
Proof. intros Hf. induction 1; simpl; constructor; auto. Qed.

Lemma zip_with_snd_id {A B} (xs : list A) (ys : list B) :
  length xs = length ys → zip_with (λ _ y, y) xs ys = ys.
Proof.
  revert ys. induction xs as [|x xs IH]; intros [|y ys] Hlen; try done.
  simpl in *. f_equal. apply IH. lia.
Qed.

Lemma split_step_positions context depth st :
  positions (ls_builder (split_step context depth st))
  = positions (ls_builder st) ∧
  ls_peer_positions (split_step context depth st) = ls_peer_positions st.
Proof.
  split; [|done]. unfold split_step, ComputeHistogram, Scan. simpl.
  by destruct (depth =? 0).
Qed.

Lemma level_state_succ context d :
  0 ≤ d →
  level_state context (d + 1)
  = split_step context d (update_step context d (level_state context d)).
Proof.
  intros Hd. unfold level_state. by rewrite for_range_snoc.
Qed.

(** The loop of [build_tree] passes through every [level_state] up to
    [max_depth]. *)
Lemma build_tree_passes_through context d :
  0 ≤ d ≤ max_depth (scalars context) →
  build_tree context
  = ls_tree (for_range d (max_depth (scalars context)) (level_step context)
               (level_state context d)).
Proof.
  intros Hd. unfold build_tree, level_state.
  by rewrite (for_range_split 0 d).
Qed.

Lemma initial_positions_ok context :
  positions_ok context 0 (initial_state context).
Proof.
  split; simpl.
  - split; [by rewrite length_replicate|].
    apply Forall_replicate. right. unfold LevelBegin. simpl. lia.
  - induction (peers context) as [|s ss IH]; simpl; constructor; [|done].
    split; [by rewrite length_replicate|].
    apply Forall_replicate. right. unfold LevelBegin. simpl. lia.
Qed.

Lemma update_step_zero context st :
  length (peers context) = length (ls_peer_positions st) →
  positions (ls_builder (update_step context 0 st)) = positions (ls_builder st)
  ∧ ls_peer_positions (update_step context 0 st) = ls_peer_positions st.
Proof.
  intros Hlen. split; [done|]. unfold update_step. simpl.
  by apply zip_with_snd_id.
Qed.

Lemma positions_ok_after_update context (d : nat) :
  positions_ok context (Z.of_nat d)
    (update_step context (Z.of_nat d) (level_state context (Z.of_nat d))).
Proof.
  induction d as [|d IH].
  - pose proof (initial_positions_ok context) as [Hown Hpeers].
    change (Z.of_nat 0) with 0. unfold level_state. rewrite for_range_empty by done.
    destruct (update_step_zero context (initial_state context)) as [Ho Hp].
    { by eapply Forall2_length. }
    split.
    + rewrite Ho. exact Hown.
    + rewrite Hp. exact Hpeers.
  - replace (Z.of_nat (S d)) with (Z.of_nat d + 1) by lia.
    rewrite level_state_succ by lia.
    set (st := update_step context (Z.of_nat d) _) in *.
    destruct (split_step_positions context (Z.of_nat d) st) as [Ho Hp].
    destruct IH as [Hown Hpeers].
    split.
    + change (positions (ls_builder (update_step ?c ?k ?s)))
        with (UpdatePositions k (ls_tree s) (in_X (inputs c))
                (positions (ls_builder s))).
      rewrite Ho. apply UpdatePositions_ok; [lia|done].
    + change (ls_peer_positions (update_step ?c ?k ?s))
        with (zip_with (λ s' p, UpdatePositions k (ls_tree s) (in_X s') p)
                (peers c) (ls_peer_positions s)).
      rewrite Hp.
      apply (Forall2_zip_with_r (shard_positions_ok (Z.of_nat d))); [|done].
      intros s ps Hs. apply UpdatePositions_ok; [lia|done].
Qed.

(** C10.  Before the level loop every position is 0.  At every depth [d],
    once [UpdatePositions(d)] has run, each position held by the task (and by
    the other shards) is -1 or a node of level [d], that is, lies in
    [2^d - 1, 2^(d+1) - 1); and from depth 1 on it is -1 or a child of the
    position the row had before. *)
Theorem positions_stay_in_level context (d : nat) :
  let before := level_state context (Z.of_nat d) in
  let after := update_step context (Z.of_nat d) before in
  (∀ p, p ∈ positions (ls_builder (initial_state context)) → p = 0) ∧
  (∀ p, p ∈ positions (ls_builder after) →
        p = -1 ∨ 2 ^ Z.of_nat d - 1 ≤ p < 2 ^ (Z.of_nat d + 1) - 1) ∧
  (∀ ps p, ps ∈ ls_peer_positions after → p ∈ ps →
        p = -1 ∨ 2 ^ Z.of_nat d - 1 ≤ p < 2 ^ (Z.of_nat d + 1) - 1) ∧
  (∀ (row : nat) p p',
     (0 < d)%nat →
     positions (ls_builder before) !! row = Some p →
     positions (ls_builder after) !! row = Some p' →
     p' = -1 ∨ p' = 2 * p + 1 ∨ p' = 2 * p + 2).
Proof.
  intros before after.
  pose proof (positions_ok_after_update context d) as [[Hlen Hown] Hpeers].
  fold before in Hlen, Hown, Hpeers. fold after in Hlen, Hown, Hpeers.
  repeat split.
  - simpl. intros p Hp. by apply elem_of_replicate in Hp as [-> _].
  - intros p Hp. by apply (proj1 (Forall_forall _ _) Hown).
  - intros ps p Hps Hp.
    apply list_elem_of_lookup in Hps as [k Hk].
    destruct (Forall2_lookup_r _ _ _ _ _ Hpeers Hk) as (s & _ & _ & Hall).
    by apply (proj1 (Forall_forall _ _) Hall).
  - intros row p p' Hd Hp Hp'.
    pose proof (lookup_lt_Some _ _ _ Hp') as Hrow.
    rewrite Hlen in Hrow. unfold shard_rows in Hrow.
    subst after. unfold update_step in Hp'. simpl in Hp'.
    rewrite UpdatePositions_lookup in Hp' by lia.
    rewrite Hp in Hp'. simpl in Hp'.
    destruct (Z.ltb_spec (Z.of_nat row)
                (hi0 (shape (in_X (inputs context)))
                 - lo0 (shape (in_X (inputs context))) + 1)); [|lia].
    injection Hp' as <-.
    destruct (next_position_cases (ls_tree before)
                (in_X (inputs context))
                (lo0 (shape (in_X (inputs context))) + Z.of_nat row) p)
      as [->|(_ & _ & [->| ->])]; auto.
Qed.

End LevelProperties.

(** ** PerformBestSplit *)

Section BestSplitProperties.
Context {DA : DoubleArith}.

(** The sum of [t 0], ..., [t (n-1)], taken from the left. *)
Fixpoint sum_upto (n : nat) (t : Z → double) : double :=
  match n with
  | O => dzero
  | S k => sum_upto k t +! t (Z.of_nat k)
  end.

(** The gain formula of section 4.4.5 for one output. *)
Definition gain_term (G_L H_L G H r : double) : double :=
  let G_R := G -! G_L in
  let H_R := H -! H_L in
  dhalf *! ((G_L *! G_L) /! (H_L +! r) +! (G_R *! G_R) /! (H_R +! r)
            -! (G *! G) /! (H +! r)).

(** The gain of a candidate as the specification writes it. *)
Definition spec_gain (b : TreeBuilder) (tree : Tree) (alpha : double)
  (n bin : Z) : double :=
  sum_upto (Z.to_nat (num_outputs b))
    (λ o, gain_term (grad (histogram_buffer b n bin o))
                    (hess (histogram_buffer b n bin o))
                    (gradient tree n o) (hessian tree n o)
                    (if eps <! alpha then alpha else eps)).

Lemma for_range_sum_upto (n : nat) (t : Z → double) :
  for_range 0 (Z.of_nat n) (λ o acc, acc +! t o) dzero = sum_upto n t.
Proof.
  induction n as [|n IH].
  - by rewrite for_range_empty.
  - replace (Z.of_nat (S n)) with (Z.of_nat n + 1) by lia.
    rewrite for_range_snoc by lia. simpl. by rewrite IH.
Qed.

(** C6.  The gain [PerformBestSplit] computes for a candidate [(n, bin)] is
    the sum over the outputs of
    [0.5 * (G_L^2/(H_L+r) + G_R^2/(H_R+r) - G^2/(H+r))], with [(G_L, H_L)]
    the histogram entry at [(n, bin, o)], [(G, H)] the node's gradient and
    hessian, [G_R = G - G_L], [H_R = H - H_L] and [r = max(eps, alpha)]. *)
Theorem candidate_gain_formula (b : TreeBuilder) (tree : Tree)
  (alpha : double) (n bin : Z) :
  candidate_gain b tree alpha n bin = spec_gain b tree alpha n bin.
Proof.
  unfold candidate_gain, spec_gain.
  destruct (decide (0 ≤ num_outputs b)) as [Hn|Hn].
  - rewrite <- for_range_sum_upto. by rewrite Z2Nat.id.
  - rewrite for_range_empty by lia.
    by replace (Z.to_nat (num_outputs b)) with 0%nat by lia.
Qed.

End BestSplitProperties.

Section BestSplitOrder.
Context {DA : DoubleArith} {DL : DoubleLaws DA}.

(** [(f, bin)] is a candidate of the search: a feature and a bin of its
    range. *)
Definition candidate (b : TreeBuilder) (f bin : Z) : Prop :=
  0 ≤ f < num_features b ∧
  fst (FeatureRange (tb_split_proposals b) f) ≤ bin
    < snd (FeatureRange (tb_split_proposals b) f).

(** What the search knows of the candidates it has [seen]: none beats the
    best, and the best is either the initial one or the first seen candidate
    of its gain, which is positive. *)
Definition best_ok (g : Z → double) (seen : Z → Z → Prop) (best : Best)
  : Prop :=
  (∀ f bin, seen f bin → best_gain best <! g bin = false) ∧
  (best = mkBest dzero (-1) (-1) ∨
   (seen (best_feature best) (best_bin best) ∧
    best_gain best = g (best_bin best) ∧
    dzero <! best_gain best = true ∧
    ∀ f bin, seen f bin → g bin = best_gain best →
      best_feature best < f ∨ (best_feature best = f ∧ best_bin best ≤ bin))).

Lemma best_ok_iff g (seen seen' : Z → Z → Prop) best :
  (∀ f bin, seen f bin ↔ seen' f bin) → best_ok g seen best →
  best_ok g seen' best.
Proof.
  intros Hiff [Hmax Hsel]. split.
  - intros f bin Hs. apply (Hmax f). by apply Hiff.
  - destruct Hsel as [->|(Hs & Hg & Hpos & Htie)]; [by left|right].
    repeat split; [by apply Hiff|done|done|].
    intros f bin Hs'. apply Htie. by apply Hiff.
Qed.

Lemma best_gain_nonneg g seen best :
  best_ok g seen best → ∀ x, best_gain best <! x = true → dzero <! x = true.
Proof.
  intros [_ [->|(_ & _ & Hpos & _)]] x Hx; [done|].
  by eapply ltb_trans.
Qed.

(** One test of the search, at the candidate [(F, B)], which comes after
    every candidate seen so far. *)
Lemma consider_ok b tree alpha n (seen : Z → Z → Prop) F B best :
  (∀ f bin, seen f bin → f < F ∨ (f = F ∧ bin ≤ B)) →
  best_ok (candidate_gain b tree alpha n) seen best →
  best_ok (candidate_gain b tree alpha n)
    (λ f bin, seen f bin ∨ (f = F ∧ bin = B))
    (consider b tree alpha n F B best).
Proof.
  intros Hord Hok. pose proof (best_gain_nonneg _ _ _ Hok) as Hnn.
  destruct Hok as [Hmax Hsel]. unfold consider.
  set (g := candidate_gain b tree alpha n) in *.
  destruct (best_gain best <! g B) eqn:Hlt.
  - split; simpl.
    + intros f bin [Hs|[-> ->]]; [|apply ltb_irrefl].
      destruct (g B <! g bin) eqn:Hgt; [|done].
      rewrite <- (Hmax f bin Hs). symmetry. by eapply ltb_trans.
    + right. repeat split; [by right|by apply Hnn|].
      intros f bin [Hs|[-> ->]] Heq; [|right; lia].
      specialize (Hmax f bin Hs). congruence.
  - split.
    + intros f bin [Hs|[-> ->]]; [by apply (Hmax f)|done].
    + destruct Hsel as [->|(Hs & Hg & Hpos & Htie)]; [by left|right].
      repeat split; [by left|done|done|].
      intros f bin [Hs'|[-> ->]] Heq; [by apply Htie|].
      destruct (Hord _ _ Hs) as [?|[? ?]]; [by left|by right].
Qed.

(** The state of the search when it has gone through the features below
    [F]. *)
Lemma find_best_split_upto b tree alpha n F :
  0 ≤ F ≤ num_features b →
  best_ok (candidate_gain b tree alpha n)
    (λ f bin, candidate b f bin ∧ f < F)
    (for_range 0 F
       (λ feature best,
          let '(feature_begin, feature_end) :=
            FeatureRange (tb_split_proposals b) feature in
          for_range feature_begin feature_end
            (consider b tree alpha n feature) best)
       (mkBest dzero (-1) (-1))).
Proof.
  intros HF.
  apply (for_range_invariant
    (λ F best, F ≤ num_features b →
       best_ok (candidate_gain b tree alpha n)
         (λ f bin, candidate b f bin ∧ f < F) best)); [lia| | |lia].
  - intros _. split; [|by left]. intros f bin [[? _] ?]. lia.
  - intros i best Hi IH Hi'.
    specialize (IH ltac:(lia)).
    destruct (FeatureRange (tb_split_proposals b) i) as [fb fe] eqn:HR.
    destruct (decide (fb ≤ fe)) as [Hle|Hgt].
    + eapply best_ok_iff; last first.
      * apply (for_range_invariant
          (λ B best, best_ok (candidate_gain b tree alpha n)
             (λ f bin, (candidate b f bin ∧ f < i) ∨ (f = i ∧ fb ≤ bin < B))
             best) fb fe); [done| |].
        -- eapply best_ok_iff; [|exact IH]. intros f bin. split; [by left|].
           intros [?|[_ ?]]; [done|lia].
        -- intros B best' HB IHB.
           eapply best_ok_iff; last first.
           ++ apply (consider_ok b tree alpha n
                       (λ f bin, (candidate b f bin ∧ f < i)
                                 ∨ (f = i ∧ fb ≤ bin < B)) i B best');
                [|exact IHB].
              intros f bin [[_ ?]|[-> ?]]; [left|right]; lia.
           ++ intros f bin. simpl. split.
              ** intros [[?|[-> ?]]|[-> ->]]; [by left|right; lia|right; lia].
              ** intros [?|[-> ?]]; [by left; left|].
                 destruct (decide (bin = B)) as [->|?];
                   [by right|left; right; lia].
      * intros f bin. simpl. unfold candidate. split.
        -- intros [[? ?]|[-> ?]]; [split; [done|lia]|].
           rewrite HR. simpl. lia.
        -- intros [[Hf Hb] Hlt]. destruct (decide (f = i)) as [->|?].
           ++ right. rewrite HR in Hb. simpl in Hb. lia.
           ++ left. split; [done|lia].
    + rewrite for_range_empty by lia.
      eapply best_ok_iff; [|exact IH]. intros f bin. unfold candidate.
      split.
      * intros [? ?]. split; [done|lia].
      * intros [[Hf Hb] Hlt]. destruct (decide (f = i)) as [->|?].
        -- rewrite HR in Hb. simpl in Hb. lia.
        -- split; [done|lia].
Qed.

(** The state of the search when it has gone through every feature. *)
Lemma find_best_split_ok b tree alpha n :
  best_ok (candidate_gain b tree alpha n) (candidate b)
    (find_best_split b tree alpha n).
Proof.
  unfold find_best_split.
  destruct (decide (0 ≤ num_features b)) as [Hn|Hn].
  - pose proof (find_best_split_upto b tree alpha n (num_features b)
                  ltac:(lia)) as Hok.
    eapply best_ok_iff in Hok; [exact Hok|].
    intros f bin. unfold candidate. simpl. split; [tauto|].
    intros [? ?]. repeat split; lia.
  - rewrite for_range_empty by lia. split; [|by left].
    intros f bin [? _]. lia.
Qed.

(** C5.  The search of [PerformBestSplit] starts from gain 0 and replaces
    the best candidate only by one of strictly greater gain, going through
    the features in increasing order and the bins of a feature in increasing
    order.  So no candidate has a gain above the one selected; unless
    nothing was selected (the result is the initial [(0, -1, -1)]), the
    selection is a candidate, carries its own gain, which is positive, and
    among the candidates of that same gain it has the lowest feature and
    then the lowest bin. *)
Theorem best_split_first_of_equal_gain (b : TreeBuilder) (tree : Tree)
  (alpha : double) (n : Z) :
  let best := find_best_split b tree alpha n in
  let g := candidate_gain b tree alpha n in
  (∀ f bin, candidate b f bin → best_gain best <! g bin = false) ∧
  (best = mkBest dzero (-1) (-1) ∨
   (candidate b (best_feature best) (best_bin best) ∧
    best_gain best = g (best_bin best) ∧
    dzero <! best_gain best = true ∧
    ∀ f bin, candidate b f bin → g bin = best_gain best →
      best_feature best < f ∨ (best_feature best = f ∧ best_bin best ≤ bin))).
Proof.
  intros best g.
  destruct (find_best_split_ok b tree alpha n) as [Hmax Hsel].
  fold best g in Hmax, Hsel. split; [exact Hmax|].
  destruct Hsel as [Hinit|(Hc & Hg & Hpos & Htie)]; [by left|right].
  repeat split; try done; apply Hc.
Qed.

End BestSplitOrder.

(** ** IEEE doubles satisfy the laws *)

Lemma SFcompare_refl (x : spec_float) :
  x ≠ S754_nan → SFcompare x x = Some Eq.
Proof.
  destruct x as [s|s| |s m e]; simpl; try done; intros _;
    destruct s; try done;
    rewrite Z.compare_refl, Pos.compare_cont_refl; done.
Qed.

Lemma SFcompare_antisym (x y : spec_float) :
  SFcompare y x = option_map CompOpp (SFcompare x y).
Proof.
  destruct x as [sx|sx| |sx mx ex], y as [sy|sy| |sy my ey]; simpl;
    try done; try (by destruct sx); try (by destruct sy);
    try (by destruct sx, sy).
  change (PosDef.Pos.compare_cont Eq mx my) with (Pos.compare mx my).
  change (PosDef.Pos.compare_cont Eq my mx) with (Pos.compare my mx).
  rewrite (Z.compare_antisym ey ex), (Pos.compare_antisym my mx).
  destruct sx, sy; simpl; try done;
    destruct (ey ?= ex); simpl; rewrite ?CompOpp_involutive; done.
Qed.

Lemma SFcompare_None (x y : spec_float) :
  SFcompare x y = None ↔ x = S754_nan ∨ y = S754_nan.
Proof.
  destruct x as [sx|sx| |sx mx ex], y as [sy|sy| |sy my ey]; simpl;
    split; try done; try (intros [?|?]; done); auto.
Qed.

Lemma SFcompare_Lt_trans (x y z : spec_float) :
  SFcompare x y = Some Lt → SFcompare y z = Some Lt →
  SFcompare x z = Some Lt.
Proof.
  destruct x as [sx|sx| |sx mx ex], y as [sy|sy| |sy my ey],
    z as [sz|sz| |sz mz ez]; simpl; try done;
    try (destruct sx; done); try (destruct sy; done);
    try (destruct sz; done);
    try (destruct sx, sy; done); try (destruct sx, sz; done);
    try (destruct sy, sz; done); try (destruct sx, sy, sz; done).
  change (PosDef.Pos.compare_cont Eq mx my) with (Pos.compare mx my).
  change (PosDef.Pos.compare_cont Eq my mz) with (Pos.compare my mz).
  change (PosDef.Pos.compare_cont Eq mx mz) with (Pos.compare mx mz).
  destruct sx, sy, sz; try done;
    destruct (Z.compare_spec ex ey), (Z.compare_spec ey ez),
      (Z.compare_spec ex ez); try done; try lia;
    destruct (Pos.compare_spec mx my), (Pos.compare_spec my mz),
      (Pos.compare_spec mx mz); simpl; try done; try lia.
Qed.

Lemma SFleb_refl_iff (x : spec_float) : SFleb x x = true ↔ x ≠ S754_nan.
Proof.
  unfold SFleb. split.
  - intros H ->. done.
  - intros H. by rewrite SFcompare_refl.
Qed.

Lemma SF64add_nan x y :
  SF64add x y ≠ S754_nan → x ≠ S754_nan ∧ y ≠ S754_nan.
Proof. destruct x, y; intros H; split; done. Qed.

Lemma SF64sub_nan x y :
  SF64sub x y ≠ S754_nan → x ≠ S754_nan ∧ y ≠ S754_nan.
Proof. destruct x, y; intros H; split; done. Qed.

Lemma SF64mul_nan x y :
  SF64mul x y ≠ S754_nan → x ≠ S754_nan ∧ y ≠ S754_nan.
Proof. destruct x, y; intros H; split; done. Qed.

Lemma SF64div_nan x y :
  SF64div x y ≠ S754_nan → x ≠ S754_nan ∧ y ≠ S754_nan.
Proof. destruct x, y; intros H; split; done. Qed.

Lemma ieee_ordered_iff (a : float) :
  @ordered ieee a ↔ Prim2SF a ≠ S754_nan.
Proof.
  unfold ordered. simpl. rewrite FloatAxioms.leb_spec. apply SFleb_refl_iff.
Qed.

Lemma ieee_ltb_iff (a b : float) :
  PrimFloat.ltb a b = true ↔ SFcompare (Prim2SF a) (Prim2SF b) = Some Lt.
Proof.
  rewrite FloatAxioms.ltb_spec. unfold SFltb.
  destruct (SFcompare _ _) as [[]|]; split; done.
Qed.

#[export] Instance ieee_laws : DoubleLaws ieee.
Proof.
  constructor.
  - intros a. simpl. rewrite FloatAxioms.ltb_spec. unfold SFltb.
    destruct (Prim2SF a) as [s|s| |s m e] eqn:Ha; [| |done|];
      by rewrite SFcompare_refl.
  - intros a b c. simpl. rewrite !ieee_ltb_iff. apply SFcompare_Lt_trans.
  - intros a b. simpl.
    rewrite FloatAxioms.leb_spec, FloatAxioms.ltb_spec. unfold SFleb, SFltb.
    rewrite (SFcompare_antisym (Prim2SF a) (Prim2SF b)).
    by destruct (SFcompare _ _) as [[]|].
  - intros a b. rewrite !ieee_ordered_iff. simpl. rewrite ieee_ltb_iff.
    intros H. split; intros Hn; rewrite Hn in H; [done|].
    by destruct (Prim2SF a).
  - intros a b. rewrite !ieee_ordered_iff. simpl.
    rewrite FloatAxioms.leb_spec, FloatAxioms.ltb_spec. unfold SFleb, SFltb.
    intros Ha Hb. rewrite (SFcompare_antisym (Prim2SF a) (Prim2SF b)).
    destruct (SFcompare (Prim2SF a) (Prim2SF b)) as [[]|] eqn:Hc; try done.
    apply SFcompare_None in Hc. by destruct Hc.
  - intros a b. rewrite !ieee_ordered_iff. simpl.
    rewrite FloatAxioms.add_spec. apply SF64add_nan.
  - intros a b. rewrite !ieee_ordered_iff. simpl.
    rewrite FloatAxioms.sub_spec. apply SF64sub_nan.
  - intros a b. rewrite !ieee_ordered_iff. simpl.
    rewrite FloatAxioms.mul_spec. apply SF64mul_nan.
  - intros a b. rewrite !ieee_ordered_iff. simpl.
    rewrite FloatAxioms.div_spec. apply SF64div_nan.
  - reflexivity.
  - reflexivity.
Qed.

(** ** The rationals satisfy the laws *)

Lemma exact_leb_iff (a b : Qc) : @dleb exact a b = true ↔ (a <= b)%Qc.
Proof. apply Qle_bool_iff. Qed.

Lemma exact_ltb_iff (a b : Qc) : @dltb exact a b = true ↔ (a < b)%Qc.
Proof.
  simpl. rewrite negb_true_iff, <- not_true_iff_false, Qle_bool_iff.
  split; [apply Qnot_le_lt | apply Qlt_not_le].
Qed.

Lemma exact_ltb_false_iff (a b : Qc) : @dltb exact a b = false ↔ (b <= a)%Qc.
Proof.
  rewrite <- not_true_iff_false, exact_ltb_iff.
  split; [apply Qcnot_lt_le | apply Qcle_not_lt].
Qed.

Lemma exact_ordered (a : Qc) : @ordered exact a.
Proof. apply exact_leb_iff, Qcle_refl. Qed.

#[export] Instance exact_laws : DoubleLaws exact.
Proof.
  split.
  - intros a. apply exact_ltb_false_iff, Qcle_refl.
  - intros a b c. rewrite !exact_ltb_iff. apply Qclt_trans.
  - intros a b. rewrite exact_leb_iff, exact_ltb_false_iff. done.
  - intros a b _. split; apply exact_ordered.
  - intros a b _ _. rewrite <- not_true_iff_false, exact_leb_iff, exact_ltb_iff.
    apply Qcnot_le_lt.
  - intros a b _. split; apply exact_ordered.
  - intros a b _. split; apply exact_ordered.
  - intros a b _. split; apply exact_ordered.
  - intros a b _. split; apply exact_ordered.
  - apply exact_ordered.
  - reflexivity.
Qed.

Lemma exact_half_half : @dadd exact dhalf dhalf = Q2Qc 1.
Proof. by apply Qc_is_canon. Qed.

#[export] Instance exact_ring_laws : ExactLaws exact.
Proof.
  split.
  - rewrite exact_half_half. exact Qcrt.
  - intros a b. rewrite !exact_leb_iff.
    destruct (Qclt_le_dec b a) as [Hlt|Hle]; [right|left]; [|done].
    by apply Qclt_le_weak.
  - intros a b c. rewrite !exact_leb_iff. intros Hab.
    apply Qcplus_le_compat; [done|apply Qcle_refl].
Qed.

(** ** Nodes that are not split *)

Section RejectedSplit.
Context {DA : DoubleArith} {DL : DoubleLaws DA}.

Lemma vec_at_map_seqZ {A : Type} (d : A) (f : Z → A) (n i : Z) :
  0 ≤ i < n → vec_at d (map f (seqZ 0 n)) i = f i.
Proof.
  intros Hi. unfold vec_at. apply nth_lookup_Some.
  rewrite list_lookup_fmap, lookup_seqZ_lt by lia.
  rewrite Z2Nat.id by lia. done.
Qed.

(** C4.  When [PerformBestSplit] processes node [n] and the best gain it
    found is at most [eps], or the best candidate gives the left or the
    right child a hessian [<= 0] on output 0, no split is applied: the tree
    comes out of the processing of [n] as it went in, so the node keeps its
    feature (-1 for a node not split before) and none of the fields of the
    node or of its children is written. *)
Theorem rejected_split_leaves_tree (b : TreeBuilder) (alpha : double) (n : Z)
  (tree : Tree) :
  let best := find_best_split b tree alpha n in
  let H_L := hess (histogram_buffer b n (best_bin best) 0) in
  let H_R := hessian tree n 0 -! H_L in
  best_gain best <=! eps = true ∨
  (0 < num_outputs b ∧ (H_L <=! dzero = true ∨ H_R <=! dzero = true)) →
  split_node b alpha n tree = tree ∧
  (IsLeaf tree n = true → IsLeaf (split_node b alpha n tree) n = true).
Proof.
  intros best H_L H_R Hrej.
  assert (split_node b alpha n tree = tree) as Heq; [|by rewrite Heq].
  unfold split_node. fold best.
  destruct (eps <! best_gain best) eqn:Hgain; [|done].
  destruct Hrej as [Hle|[Hout Hhess]].
  - apply leb_not_gt in Hle. congruence.
  - rewrite !vec_at_map_seqZ by lia. fold H_L. fold H_R.
    destruct Hhess as [-> | ->]; [done|]. by rewrite orb_true_r.
Qed.

End RejectedSplit.

(** ** SelectSplitSamples *)

Section ProposalsProperties.
Context {DA : DoubleArith}.

(** Each threshold is less than the next one. *)
Definition increasing : list double → Prop := Sorted (λ a b, a <! b = true).

Lemma set_insert_HdRel x y s :
  y <! x = true → HdRel (λ a b, a <! b = true) y s →
  HdRel (λ a b, a <! b = true) y (set_insert x s).
Proof.
  intros Hyx Hhd. destruct s as [|z s]; simpl; [by constructor|].
  inversion_clear Hhd.
  destruct (z <! x); [by constructor|].
  destruct (x <! z); by constructor.
Qed.

Lemma set_insert_increasing x s : increasing s → increasing (set_insert x s).
Proof.
  unfold increasing. induction 1 as [|y s Hs IH Hhd]; simpl.
  - repeat constructor.
  - destruct (y <! x) eqn:Hyx.
    + constructor; [done|]. by apply set_insert_HdRel.
    + destruct (x <! y) eqn:Hxy; [|by constructor].
      constructor; [by constructor|by constructor].
Qed.

Lemma length_set_insert x s : (length (set_insert x s) ≤ S (length s))%nat.
Proof.
  induction s as [|y s IH]; simpl; [lia|].
  destruct (y <! x); simpl; [lia|]. destruct (x <! y); simpl; lia.
Qed.

Lemma set_of_range_spec values :
  increasing (set_of_range values) ∧
  (length (set_of_range values) ≤ length values)%nat.
Proof.
  unfold set_of_range.
  assert (∀ s, increasing s →
            increasing (foldl (λ s x, set_insert x s) s values) ∧
            (length (foldl (λ s x, set_insert x s) s values)
             ≤ length s + length values)%nat) as Hgen.
  { induction values as [|x values IH]; intros s Hs; simpl; [split; [done|lia]|].
    destruct (IH (set_insert x s) (set_insert_increasing x s Hs)) as [? ?].
    split; [done|]. pose proof (length_set_insert x s). lia. }
  destruct (Hgen [] ltac:(constructor)) as [? ?]. split; [done|]. simpl in *. lia.
Qed.

Lemma increasing_adjacent (l : list double) (i : nat) a b :
  increasing l → l !! i = Some a → l !! S i = Some b → a <! b = true.
Proof.
  intros Hl. revert i. induction Hl as [|x l Hs IH Hhd]; intros i Ha Hb; [done|].
  destruct i as [|i]; simpl in *.
  - injection Ha as ->. destruct l as [|y l]; [done|].
    injection Hb as ->. by inversion_clear Hhd.
  - by eapply IH.
Qed.

Lemma to_int32_small z : - 2 ^ 31 ≤ z < 2 ^ 31 → to_int32 z = z.
Proof. intros Hz. unfold to_int32. rewrite Z.mod_small; lia. Qed.

(** The table of thresholds is well formed: the row pointers start at 0, do
    not decrease, and end at the number of bins. *)
Record proposals_wf (sp : SparseSplitProposals) : Prop := {
  wf_features : 0 ≤ sp_num_features sp;
  wf_length : length (row_pointers sp) = Z.to_nat (sp_num_features sp + 1);
  wf_first : vec_at 0 (row_pointers sp) 0 = 0;
  wf_monotone : ∀ f, 0 ≤ f < sp_num_features sp →
    vec_at 0 (row_pointers sp) f ≤ vec_at 0 (row_pointers sp) (f + 1);
  wf_size : histogram_size sp
            = vec_at 0 (row_pointers sp) (sp_num_features sp);
  wf_thresholds : histogram_size sp = Z.of_nat (length (split_proposals sp))
}.

(** The thresholds of every feature increase strictly. *)
Definition thresholds_increasing (sp : SparseSplitProposals) : Prop :=
  ∀ f bin, 0 ≤ f < sp_num_features sp →
    vec_at 0 (row_pointers sp) f ≤ bin →
    bin + 1 < vec_at 0 (row_pointers sp) (f + 1) →
    vec_at dzero (split_proposals sp) bin
      <! vec_at dzero (split_proposals sp) (bin + 1) = true.

Lemma SelectSplitSamples_spec context X split_samples seed dataset_rows :
  let sp := SelectSplitSamples context X split_samples seed dataset_rows in
  let nf := hi1 (shape X) - lo1 (shape X) + 1 in
  0 ≤ nf → nf * Z.max split_samples 0 < 2 ^ 31 →
  sp_num_features sp = nf ∧ proposals_wf sp ∧ thresholds_increasing sp.
Proof.
  intros sp nf Hnf Hbound. subst sp. unfold SelectSplitSamples. fold nf.
  set (M := Z.max split_samples 0) in *.
  match goal with
  | |- context [for_range 0 nf ?bd ?i0] => set (body := bd); set (init := i0)
  end.
  pose (Inv := λ (j : Z) (st : list Z * list double),
    let rp := st.1 in let tmp := st.2 in
    length rp = Z.to_nat (nf + 1) ∧
    vec_at 0 rp 0 = 0 ∧
    vec_at 0 rp j = Z.of_nat (length tmp) ∧
    Z.of_nat (length tmp) ≤ j * M ∧
    (∀ f, 0 ≤ f ≤ j → 0 ≤ vec_at 0 rp f ≤ Z.of_nat (length tmp)) ∧
    (∀ f, 0 ≤ f < j → vec_at 0 rp f ≤ vec_at 0 rp (f + 1)) ∧
    (∀ f bin, 0 ≤ f < j → vec_at 0 rp f ≤ bin → bin + 1 < vec_at 0 rp (f + 1) →
       vec_at dzero tmp bin <! vec_at dzero tmp (bin + 1) = true)).
  assert (Inv nf (for_range 0 nf body init)) as Hfinal.
  { apply (for_range_invariant Inv); [done| |].
    - unfold Inv, init. simpl. rewrite length_vec_set, length_replicate.
      assert (vec_at 0 (vec_set (replicate (Z.to_nat (nf + 1)) 0) 0 0) 0 = 0)
        as Hz.
      { unfold vec_at, vec_set. rewrite nth_lookup.
        destruct (Z.to_nat (nf + 1)) eqn:?; [lia|]. done. }
      repeat split; try lia; try done.
      + replace f with 0 by lia. rewrite Hz. lia.
      + replace f with 0 by lia. rewrite Hz. simpl. lia.
    - intros j [rp tmp] Hj (Hlen & H0 & Hj' & Hsz & Hrange & Hmono & Hinc).
      simpl in Hlen, H0, Hj', Hsz, Hrange, Hmono, Hinc. unfold body.
      match goal with
      | |- context [set_of_range ?v] =>
          destruct (set_of_range_spec v) as [Huinc Hulen];
          set (unique := set_of_range v) in *
      end.
      rewrite length_map, length_seqZ in Hulen.
      assert (Z.of_nat (length unique) ≤ M) as HuM by lia.
      assert (to_int32 (vec_at 0 rp j + Z.of_nat (length unique))
              = Z.of_nat (length tmp) + Z.of_nat (length unique)) as Hconv.
      { rewrite Hj'. apply to_int32_small. nia. }
      rewrite Hconv. unfold Inv. simpl.
      assert (∀ f, 0 ≤ f ≤ j →
                vec_at 0 (vec_set rp (j + 1)
                  (Z.of_nat (length tmp) + Z.of_nat (length unique))) f
                = vec_at 0 rp f) as Hold.
      { intros f Hf. apply vec_at_set_ne; lia. }
      assert (vec_at 0 (vec_set rp (j + 1)
                (Z.of_nat (length tmp) + Z.of_nat (length unique))) (j + 1)
              = Z.of_nat (length tmp) + Z.of_nat (length unique)) as Hnew.
      { apply vec_at_set_eq. lia. }
      repeat split.
      + by rewrite length_vec_set.
      + rewrite Hold by lia. done.
      + rewrite Hnew, length_app. lia.
      + rewrite length_app. nia.
      + destruct (decide (f = j + 1)) as [->|Hne].
        * rewrite Hnew. lia.
        * rewrite Hold by lia. apply Hrange. lia.
      + destruct (decide (f = j + 1)) as [->|Hne].
        * rewrite Hnew, length_app. lia.
        * rewrite Hold, length_app by lia.
          specialize (Hrange f ltac:(lia)). lia.
      + intros f Hf. destruct (decide (f = j)) as [->|Hne].
        * rewrite Hnew, Hold by lia. lia.
        * rewrite !Hold by lia. apply Hmono. lia.
      + intros f bin Hf Hlo Hhi. destruct (decide (f = j)) as [->|Hne].
        * rewrite Hnew in Hhi. rewrite Hold in Hlo by lia.
          rewrite Hj' in Hlo.
          unfold vec_at. rewrite !nth_lookup.
          assert (∃ a, unique !! (Z.to_nat bin - length tmp)%nat = Some a)
            as [a Ha] by (apply lookup_lt_is_Some; lia).
          assert (∃ c, unique !! S (Z.to_nat bin - length tmp)%nat = Some c)
            as [c Hc] by (apply lookup_lt_is_Some; lia).
          rewrite !lookup_app_r by lia.
          replace (Z.to_nat (bin + 1) - length tmp)%nat
            with (S (Z.to_nat bin - length tmp)) by lia.
          rewrite Ha, Hc. simpl. by eapply increasing_adjacent.
        * rewrite !Hold in Hlo, Hhi by lia.
          pose proof (Hrange (f + 1) ltac:(lia)) as Hle.
          pose proof (Hrange f ltac:(lia)) as Hge.
          specialize (Hinc f bin ltac:(lia) Hlo Hhi).
          unfold vec_at in *. rewrite !nth_lookup in *.
          rewrite !lookup_app_l by lia. done. }
  destruct (for_range 0 nf body init) as [rp tmp].
  destruct Hfinal as (Hlen & H0 & Hj' & Hsz & _ & Hmono & Hinc).
  simpl in *. split; [done|]. split; [split; simpl; try done; lia|].
  exact Hinc.
Qed.

(** C9.  The proposals [SelectSplitSamples] returns have
    [row_pointers[0] = 0], row pointers that do not decrease, and, within
    the range [row_pointers[f], row_pointers[f+1]) of every feature,
    thresholds that increase strictly (each is less than the next, so none
    is repeated).  The table has one row pointer per feature and one more,
    whose sum fits the [int32_t] entries. *)
Theorem split_proposals_sorted_unique (context : TaskContext) (X : Store)
  (split_samples seed dataset_rows : Z) :
  let sp := SelectSplitSamples context X split_samples seed dataset_rows in
  let nf := hi1 (shape X) - lo1 (shape X) + 1 in
  0 ≤ nf → nf * Z.max split_samples 0 < 2 ^ 31 →
  row_pointers sp !! 0%nat = Some 0 ∧
  (∀ f, 0 ≤ f < nf →
     vec_at 0 (row_pointers sp) f ≤ vec_at 0 (row_pointers sp) (f + 1)) ∧
  (∀ f bin, 0 ≤ f < nf →
     vec_at 0 (row_pointers sp) f ≤ bin →
     bin + 1 < vec_at 0 (row_pointers sp) (f + 1) →
     vec_at dzero (split_proposals sp) bin
       <! vec_at dzero (split_proposals sp) (bin + 1) = true).
Proof.
  intros sp nf Hnf Hbound.
  destruct (SelectSplitSamples_spec context X split_samples seed dataset_rows
              Hnf Hbound) as (Hn & Hwf & Hinc).
  fold sp in Hn, Hwf, Hinc. fold nf in Hn.
  repeat split.
  - pose proof (wf_first sp Hwf) as H0. pose proof (wf_length sp Hwf) as Hlen.
    destruct (row_pointers sp) as [|z rp] eqn:Hrp; simpl in Hlen; [lia|].
    unfold vec_at in H0. simpl in H0. by subst z.
  - intros f Hf. apply (wf_monotone sp Hwf). lia.
  - intros f bin Hf. apply Hinc. lia.
Qed.

End ProposalsProperties.

(** ** The checks of build_tree_fn *)

Section Preconditions.
Context {DA : DoubleArith}.





End Preconditions.



(** ** InitialiseRoot and the tree of depth 0 *)

Section RootProperties.
Context {DA : DoubleArith}.

(** The sum of column [o] of a store over the rows of a slab, taken from
    the first row on. *)
Definition column_sum (rows : Rect3) (s : Store) (o : Z) : double :=
  sum_upto (Z.to_nat (hi0 rows - lo0 rows + 1))
    (λ k, acc s (lo0 rows + k) 0 o).

(** The sum over all the rows of the launch: the sums of the shards, added
    by [SumAllReduce].  The rows of a shard are those of its gradient store,
    with which its hessian store is aligned. *)
Definition global_sum (context : TaskContext) (sel : Shard → Store) (o : Z)
  : double :=
  SumAllReduce
    (column_sum (shape (in_g (inputs context))) (sel (inputs context)) o)
    (map (λ p, column_sum (shape (in_g p)) (sel p) o) (peers context)).

Lemma for_range_sum_from lo hi (t : Z → double) :
  for_range lo hi (λ i a, a +! t i) dzero
  = sum_upto (Z.to_nat (hi - lo)) (λ k, t (lo + k)).
Proof.
  destruct (decide (lo ≤ hi)) as [Hle|Hgt].
  - apply (for_range_invariant
      (λ m a, a = sum_upto (Z.to_nat (m - lo)) (λ k, t (lo + k)))); [done| |].
    + by replace (lo - lo) with 0 by lia.
    + intros i a Hi ->.
      replace (Z.to_nat (i + 1 - lo)) with (S (Z.to_nat (i - lo))) by lia.
      simpl. do 2 f_equal. lia.
  - rewrite for_range_empty by lia.
    by replace (Z.to_nat (hi - lo)) with 0%nat by lia.
Qed.

(** The inner loop of the sums: every output gets the row's pair added. *)
Lemma base_sums_row (n : Z) (v : Z → GPair) (bs : list GPair) :
  length bs = Z.to_nat n →
  let bs' := for_range 0 n
               (λ j bs, vec_set bs j (gadd (vec_at gzero bs j) (v j))) bs in
  length bs' = length bs ∧
  ∀ o, 0 ≤ o < n → vec_at gzero bs' o = gadd (vec_at gzero bs o) (v o).
Proof.
  intros Hlen bs'. subst bs'.
  destruct (decide (0 ≤ n)) as [Hn|Hn].
  2:{ rewrite for_range_empty by lia. split; [done|]. intros; lia. }
  assert (∀ m, 0 ≤ m ≤ n →
    let r := for_range 0 m
               (λ j bs, vec_set bs j (gadd (vec_at gzero bs j) (v j))) bs in
    length r = length bs ∧
    ∀ o, 0 ≤ o < n →
      vec_at gzero r o
      = if o <? m then gadd (vec_at gzero bs o) (v o) else vec_at gzero bs o)
    as Hgen.
  { intros m Hm.
    apply (for_range_invariant
      (λ m r, length r = length bs ∧
         ∀ o, 0 ≤ o < n →
           vec_at gzero r o
           = if o <? m then gadd (vec_at gzero bs o) (v o)
             else vec_at gzero bs o)); [lia| |].
    - split; [done|]. intros o Ho. by destruct (Z.ltb_spec o 0); [lia|].
    - intros i r Hi [Hl Hr]. split; [by rewrite length_vec_set|].
      intros o Ho. destruct (decide (o = i)) as [->|Hne].
      + rewrite vec_at_set_eq by lia. rewrite Hr by lia.
        destruct (Z.ltb_spec i i); [lia|].
        by destruct (Z.ltb_spec i (i + 1)); [|lia].
      + rewrite vec_at_set_ne by lia. rewrite Hr by lia.
        destruct (Z.ltb_spec o i), (Z.ltb_spec o (i + 1)); try done; lia. }
  destruct (Hgen n ltac:(lia)) as [Hl Hr]. split; [done|].
  intros o Ho. rewrite Hr by done. by destruct (Z.ltb_spec o n); [|lia].
Qed.

Lemma base_sums_local_spec (n : Z) (g h : Store) :
  length (base_sums_local n g h) = Z.to_nat n ∧
  ∀ o, 0 ≤ o < n →
    vec_at gzero (base_sums_local n g h) o
    = mkGPair (column_sum (shape g) g o) (column_sum (shape g) h o).
Proof.
  unfold base_sums_local, column_sum.
  set (lo := lo0 (shape g)). set (hi := hi0 (shape g)).
  replace (hi - lo + 1) with (hi + 1 - lo) by lia.
  match goal with
  | |- context [for_range lo (hi + 1) ?bd ?i0] =>
      set (body := bd); set (init := i0)
  end.
  assert (length (for_range lo (hi + 1) body init) = Z.to_nat n ∧
          ∀ o, 0 ≤ o < n →
            vec_at gzero (for_range lo (hi + 1) body init) o
            = mkGPair
                (for_range lo (hi + 1) (λ i a, a +! acc g i 0 o) dzero)
                (for_range lo (hi + 1) (λ i a, a +! acc h i 0 o) dzero))
    as [Hlen Hval].
  { destruct (decide (lo ≤ hi + 1)) as [Hle|Hgt].
    - apply (for_range_invariant
        (λ m bs, length bs = Z.to_nat n ∧
           ∀ o, 0 ≤ o < n →
             vec_at gzero bs o
             = mkGPair (for_range lo m (λ i a, a +! acc g i 0 o) dzero)
                       (for_range lo m (λ i a, a +! acc h i 0 o) dzero)));
        [done| |].
      + unfold init. split; [by rewrite length_replicate|]. intros o Ho.
        rewrite !for_range_empty by lia. unfold vec_at.
        apply nth_lookup_Some, lookup_replicate_2. lia.
      + intros i bs Hi [Hl Hr]. unfold body.
        destruct (base_sums_row n (λ j, mkGPair (acc g i 0 j) (acc h i 0 j))
                    bs Hl) as [Hl' Hr'].
        split; [by rewrite Hl'|]. intros o Ho.
        rewrite Hr', Hr by done. rewrite !for_range_snoc by lia. done.
    - rewrite !for_range_empty by lia. unfold init.
      split; [by rewrite length_replicate|].
      intros o Ho. rewrite !for_range_empty by lia. unfold vec_at.
      apply nth_lookup_Some, lookup_replicate_2. lia. }
  split; [done|]. intros o Ho. rewrite Hval by done.
  by rewrite (for_range_sum_from lo (hi + 1) (λ i, acc g i 0 o)),
             (for_range_sum_from lo (hi + 1) (λ i, acc h i 0 o)).
Qed.

Lemma base_sums_reduced_spec (n : Z) (context : TaskContext) (o : Z) :
  0 ≤ o < n →
  vec_at gzero (base_sums_reduced n context) o
  = mkGPair (global_sum context in_g o) (global_sum context in_h o).
Proof.
  intros Ho. unfold base_sums_reduced, global_sum.
  destruct (base_sums_local_spec n (in_g (inputs context))
              (in_h (inputs context))) as [Hlen Hown].
  unfold vec_at. apply nth_lookup_Some. rewrite list_lookup_imap.
  assert (base_sums_local n (in_g (inputs context)) (in_h (inputs context))
            !! Z.to_nat o
          = Some (vec_at gzero (base_sums_local n (in_g (inputs context))
                                  (in_h (inputs context))) o)) as ->.
  { unfold vec_at.
    destruct (nth_lookup_or_length
                (base_sums_local n (in_g (inputs context))
                   (in_h (inputs context))) (Z.to_nat o) gzero); [done|lia]. }
  simpl. rewrite Hown by done. rewrite Z2Nat.id by lia.
  unfold SumAllReduce_pair. simpl. rewrite !map_map.
  do 2 f_equal; apply (f_equal (SumAllReduce _)); apply map_ext; intros p;
    destruct (base_sums_local_spec n (in_g p) (in_h p)) as [_ Hp];
    fold (vec_at gzero (base_sums_local n (in_g p) (in_h p)) o);
    by rewrite Hp.
Qed.

(** What [InitialiseRoot] writes: row 0 of the three buffers. *)
Lemma InitialiseRoot_spec (b : TreeBuilder) (context : TaskContext)
  (tree : Tree) (a : double) :
  let tree' := InitialiseRoot b context tree a in
  let root i o := (i =? 0) && (0 <=? o) && (o <? num_outputs b) in
  let G o := global_sum context in_g o in
  let H o := global_sum context in_h o in
  feature tree' = feature tree ∧
  split_value tree' = split_value tree ∧
  gain tree' = gain tree ∧
  (∀ i o, gradient tree' i o = if root i o then G o else gradient tree i o) ∧
  (∀ i o, hessian tree' i o = if root i o then H o else hessian tree i o) ∧
  (∀ i o, leaf_value tree' i o
          = if root i o then CalculateLeafValue (G o) (H o) a
            else leaf_value tree i o).
Proof.
  intros tree' root G H. subst tree'. unfold InitialiseRoot.
  destruct (decide (0 ≤ num_outputs b)) as [Hn|Hn].
  2:{ rewrite for_range_empty by lia. repeat split; try done;
        intros i o; subst root; simpl;
        destruct (Z.eqb_spec i 0), (Z.leb_spec 0 o),
          (Z.ltb_spec o (num_outputs b)); simpl; try done; lia. }
  apply (for_range_invariant
    (λ m t,
       let root i o := (i =? 0) && (0 <=? o) && (o <? m) in
       feature t = feature tree ∧ split_value t = split_value tree ∧
       gain t = gain tree ∧
       (∀ i o, gradient t i o = if root i o then G o else gradient tree i o) ∧
       (∀ i o, hessian t i o = if root i o then H o else hessian tree i o) ∧
       (∀ i o, leaf_value t i o
               = if root i o then CalculateLeafValue (G o) (H o) a
                 else leaf_value tree i o))); [done| |].
  - repeat split; try done; intros i o; simpl;
      destruct (Z.eqb_spec i 0), (Z.leb_spec 0 o), (Z.ltb_spec o 0);
      simpl; try done; lia.
  - intros m t Hm (Hf & Hs & Hg & Hgr & Hhe & Hlv). simpl.
    rewrite (base_sums_reduced_spec _ _ m) by lia. simpl.
    repeat split; try done; intros i o; unfold upd2;
      [rewrite Hgr|rewrite Hhe|rewrite Hlv];
      destruct (Z.eqb_spec i 0), (Z.eqb_spec o m), (Z.leb_spec 0 o),
        (Z.ltb_spec o m), (Z.ltb_spec o (m + 1));
      simpl; subst; try done; lia.
Qed.

Lemma Forall_replicate_eq {A} (x : A) n : Forall (λ y, y = x) (replicate n x).
Proof. by apply Forall_replicate. Qed.

(** C8.  With [max_depth = 0] the tree is the root alone: every node has
    feature -1, and for every output [o] the root's gradient and hessian are
    the sums [G] and [H] of g and h over all the rows of the launch, and its
    leaf value is [-G / (H + max(eps, alpha))]. *)
Theorem root_only_tree (context : TaskContext) :
  let tree := build_tree context in
  let g_shape := shape (in_g (inputs context)) in
  let a := alpha (scalars context) in
  max_depth (scalars context) = 0 →
  feature tree = replicate (Z.to_nat (max_nodes (scalars context))) (-1) ∧
  ∀ o, 0 ≤ o < hi2 g_shape - lo2 g_shape + 1 →
    let G := global_sum context in_g o in
    let H := global_sum context in_h o in
    gradient tree 0 o = G ∧ hessian tree 0 o = H ∧
    leaf_value tree 0 o = dneg G /! (H +! (if eps <! a then a else eps)).
Proof.
  intros tree g_shape a Hdepth. subst tree. unfold build_tree, level_state.
  rewrite Hdepth, for_range_empty by done. unfold initial_state.
  cbn [ls_tree].
  match goal with
  | |- context [InitialiseRoot ?b ?c ?t ?al] =>
      destruct (InitialiseRoot_spec b c t al)
        as (Hf & _ & _ & Hgr & Hhe & Hlv)
  end.
  split; [by rewrite Hf|]. intros o Ho.
  rewrite Hgr, Hhe, Hlv. cbn [num_outputs TreeBuilder_new].
  fold g_shape.
  destruct (Z.leb_spec 0 o), (Z.ltb_spec o (hi2 g_shape - lo2 g_shape + 1));
    try lia.
  done.
Qed.

End RootProperties.

(** ** AddSplit and the nodes that are split *)

Section SplitProperties.
Context {DA : DoubleArith}.

(** What [AddSplit] writes: the three fields of the node, and the rows of
    its two children in the three buffers. *)
Lemma AddSplit_spec (t : Tree) (n f : Z) (sv : double) (ll rl : list double)
  (gn : double) (gl gr hl hr : list double) :
  let t' := AddSplit t n f sv ll rl gn gl gr hl hr in
  let k := Z.of_nat (length ll) in
  let child (vl vr : list double) (old : Z → Z → double) (i o : Z) :=
    if (i =? LeftChild n) && (0 <=? o) && (o <? k) then vec_at dzero vl o
    else if (i =? RightChild n) && (0 <=? o) && (o <? k)
         then vec_at dzero vr o
         else old i o in
  feature t' = vec_set (feature t) n f ∧
  split_value t' = vec_set (split_value t) n sv ∧
  gain t' = vec_set (gain t) n gn ∧
  (∀ i o, hessian t' i o = child hl hr (hessian t) i o) ∧
  (∀ i o, gradient t' i o = child gl gr (gradient t) i o) ∧
  (∀ i o, leaf_value t' i o = child ll rl (leaf_value t) i o).
Proof.
  intros t' k child. subst t'. unfold AddSplit. fold k.
  apply (for_range_invariant
    (λ m t',
       let child (vl vr : list double) (old : Z → Z → double) (i o : Z) :=
         if (i =? LeftChild n) && (0 <=? o) && (o <? m) then vec_at dzero vl o
         else if (i =? RightChild n) && (0 <=? o) && (o <? m)
              then vec_at dzero vr o
              else old i o in
       feature t' = vec_set (feature t) n f ∧
       split_value t' = vec_set (split_value t) n sv ∧
       gain t' = vec_set (gain t) n gn ∧
       (∀ i o, hessian t' i o = child hl hr (hessian t) i o) ∧
       (∀ i o, gradient t' i o = child gl gr (gradient t) i o) ∧
       (∀ i o, leaf_value t' i o = child ll rl (leaf_value t) i o)));
    [lia| |].
  - repeat split; try done; intros i o; simpl;
      destruct (Z.eqb_spec i (LeftChild n)), (Z.eqb_spec i (RightChild n)),
        (Z.leb_spec 0 o), (Z.ltb_spec o 0); simpl; try done; lia.
  - intros m t' Hm (Hf & Hs & Hg & Hhe & Hgr & Hlv). simpl.
    repeat split; try done; intros i o; unfold upd2;
      [rewrite Hhe|rewrite Hgr|rewrite Hlv];
      unfold LeftChild, RightChild;
      destruct (Z.eqb_spec i (2 * n + 1)), (Z.eqb_spec i (2 * n + 2)),
        (Z.eqb_spec o m), (Z.leb_spec 0 o), (Z.ltb_spec o m),
        (Z.ltb_spec o (m + 1)); simpl; subst; try done; lia.
Qed.

(** The two outcomes of the processing of a node. *)
Lemma split_node_cases (b : TreeBuilder) (a : double) (n : Z) (tree : Tree) :
  let best := find_best_split b tree a n in
  let outputs := seqZ 0 (num_outputs b) in
  let G_L o := grad (histogram_buffer b n (best_bin best) o) in
  let H_L o := hess (histogram_buffer b n (best_bin best) o) in
  let G_R o := gradient tree n o -! G_L o in
  let H_R o := hessian tree n o -! H_L o in
  split_node b a n tree = tree ∨
  (eps <! best_gain best = true ∧
   vec_at dzero (map H_L outputs) 0 <=! dzero = false ∧
   vec_at dzero (map H_R outputs) 0 <=! dzero = false ∧
   split_node b a n tree
   = AddSplit tree n (best_feature best)
       (vec_at dzero (split_proposals (tb_split_proposals b)) (best_bin best))
       (map (λ o, CalculateLeafValue (G_L o) (H_L o) a) outputs)
       (map (λ o, CalculateLeafValue (G_R o) (H_R o) a) outputs)
       (best_gain best)
       (map G_L outputs) (map G_R outputs)
       (map H_L outputs) (map H_R outputs)).
Proof.
  intros best outputs G_L H_L G_R H_R. unfold split_node.
  subst G_L H_L G_R H_R outputs. fold best. cbv beta zeta.
  destruct (eps <! best_gain best); [|by left].
  destruct (vec_at dzero (map (λ o, hess _) _) 0 <=! dzero); [by left|].
  destruct (vec_at dzero (map (λ o, _ -! _) _) 0 <=! dzero); [by left|].
  right. done.
Qed.

(** A node that has been split: its feature is not -1. *)
Definition internal (t : Tree) (n : Z) : Prop :=
  0 ≤ n ∧ ∃ f, feature t !! Z.to_nat n = Some f ∧ f ≠ -1.

(** The invariant of the grown tree that C3 states. *)
Definition split_ok (t : Tree) : Prop :=
  length (gain t) = length (feature t) ∧
  ∀ n, internal t n →
    eps <! vec_at dzero (gain t) n = true ∧
    dzero <! hessian t (LeftChild n) 0 = true ∧
    dzero <! hessian t (RightChild n) 0 = true.

End SplitProperties.

Section SplitInvariant.
Context {DA : DoubleArith} {DL : DoubleLaws DA}.

(** A gain that is a number was computed from hessians that are numbers. *)
Lemma candidate_gain_ordered (b : TreeBuilder) (t : Tree) (a : double)
  (n bin : Z) :
  0 < num_outputs b →
  ordered (candidate_gain b t a n bin) →
  ordered (hess (histogram_buffer b n bin 0)) ∧
  ordered (hessian t n 0 -! hess (histogram_buffer b n bin 0)).
Proof.
  intros Hno. unfold candidate_gain.
  match goal with
  | |- context [for_range 0 _ ?bd dzero] => set (body := bd)
  end.
  assert (∀ k : nat, ordered (for_range 0 (1 + Z.of_nat k) body dzero) →
            ordered (body 0 dzero)) as Hfirst.
  { induction k as [|k IH].
    - replace (1 + Z.of_nat 0) with (0 + 1) by lia.
      rewrite for_range_snoc by lia. by rewrite for_range_empty by lia.
    - replace (1 + Z.of_nat (S k)) with (1 + Z.of_nat k + 1) by lia.
      rewrite for_range_snoc by lia. unfold body at 1. intros Hord.
      apply dadd_ordered in Hord as [Hord _]. by apply IH. }
  intros Hord.
  replace (num_outputs b) with (1 + Z.of_nat (Z.to_nat (num_outputs b - 1)))
    in Hord by lia.
  apply Hfirst in Hord. unfold body in Hord.
  apply dadd_ordered in Hord as [_ Hord].
  apply dmul_ordered in Hord as [_ Hord].
  apply dsub_ordered in Hord as [Hord _].
  apply dadd_ordered in Hord as [HA HB].
  apply ddiv_ordered in HA as [_ HA]. apply dadd_ordered in HA as [HA _].
  apply ddiv_ordered in HB as [_ HB]. apply dadd_ordered in HB as [HB _].
  done.
Qed.

(** A split that is applied: the selection is a candidate whose gain
    exceeds [eps], and both children get a positive hessian on output 0. *)
Lemma applied_split_facts (b : TreeBuilder) (a : double) (n : Z) (t : Tree) :
  let best := find_best_split b t a n in
  let H_L := hess (histogram_buffer b n (best_bin best) 0) in
  let H_R := hessian t n 0 -! H_L in
  0 < num_outputs b →
  eps <! best_gain best = true →
  H_L <=! dzero = false → H_R <=! dzero = false →
  candidate b (best_feature best) (best_bin best) ∧
  dzero <! H_L = true ∧ dzero <! H_R = true.
Proof.
  intros best H_L H_R Hno Hgain HhL HhR.
  destruct (find_best_split_ok b t a n) as [_ Hsel].
  fold best in Hsel. destruct Hsel as [Hinit|(Hc & Hg & Hpos & _)].
  - rewrite Hinit in Hgain. simpl in Hgain.
    by rewrite eps_not_negative in Hgain.
  - split; [done|].
    apply ltb_ordered in Hpos as [_ Hord]. rewrite Hg in Hord.
    apply candidate_gain_ordered in Hord as [HoL HoR]; [|done].
    split; apply leb_total; auto using dzero_ordered.
Qed.

Lemma split_node_split_ok (b : TreeBuilder) (a : double) (m : Z) (t : Tree) :
  0 ≤ m → 0 < num_outputs b → split_ok t → split_ok (split_node b a m t).
Proof.
  intros Hm Hno [Hlen Hok].
  destruct (split_node_cases b a m t) as [->|(Hgain & HhL & HhR & ->)];
    [done|].
  rewrite !vec_at_map_seqZ in HhL, HhR by lia.
  destruct (applied_split_facts b a m t Hno Hgain HhL HhR)
    as (_ & HposL & HposR).
  match goal with
  | |- split_ok (AddSplit ?t ?n ?f ?sv ?ll ?rl ?gn ?gl ?gr ?hl ?hr) =>
      pose proof (AddSplit_spec t n f sv ll rl gn gl gr hl hr) as Hspec
  end.
  cbv zeta in Hspec. destruct Hspec as (Hf & _ & Hgn & Hhe & _ & _).
  rewrite length_map, length_seqZ in Hhe.
  split.
  - by rewrite Hgn, Hf, !length_vec_set.
  - intros n [Hn (f & Hfn & Hne)]. rewrite Hf in Hfn. rewrite Hgn, !Hhe.
    destruct (decide (n = m)) as [->|Hnm].
    + pose proof (lookup_lt_Some _ _ _ Hfn) as Hlt.
      rewrite length_vec_set in Hlt.
      rewrite vec_at_set_eq by lia.
      rewrite !vec_at_map_seqZ by lia.
      unfold LeftChild, RightChild.
      destruct (Z.eqb_spec (2 * m + 1) (2 * m + 1)); [|lia].
      destruct (Z.eqb_spec (2 * m + 2) (2 * m + 1)); [lia|].
      destruct (Z.eqb_spec (2 * m + 2) (2 * m + 2)); [|lia].
      destruct (Z.ltb_spec 0 (Z.of_nat (Z.to_nat (num_outputs b)))); [|lia].
      simpl. done.
    + unfold vec_set in Hfn. rewrite list_lookup_insert_ne in Hfn by lia.
      rewrite vec_at_set_ne by lia.
      destruct (Hok n) as (? & ? & ?); [by split; eauto|].
      unfold LeftChild, RightChild in *.
      destruct (Z.eqb_spec (2 * n + 1) (2 * m + 1)); [lia|].
      destruct (Z.eqb_spec (2 * n + 1) (2 * m + 2)); [lia|].
      destruct (Z.eqb_spec (2 * n + 2) (2 * m + 1)); [lia|].
      destruct (Z.eqb_spec (2 * n + 2) (2 * m + 2)); [lia|].
      simpl. done.
Qed.

Lemma PerformBestSplit_split_ok (b : TreeBuilder) (depth : Z) (t : Tree)
  (a : double) :
  0 ≤ depth → 0 < num_outputs b → split_ok t →
  split_ok (PerformBestSplit b depth t a).
Proof.
  intros Hd Hno Hok. unfold PerformBestSplit.
  pose proof (LevelBegin_nonneg depth Hd) as Hlb.
  destruct (decide (LevelBegin depth ≤ LevelBegin (depth + 1))) as [Hle|Hgt].
  - apply (for_range_invariant (λ _ t', split_ok t')); [done|done|].
    intros m t' Hmr Hok'. apply split_node_split_ok; [lia|done|done].
  - by rewrite for_range_empty by lia.
Qed.

End SplitInvariant.

(** ** The builder's constants along the level loop *)

Section BuilderConstants.
Context {DA : DoubleArith}.

Definition same_constants (b b' : TreeBuilder) : Prop :=
  num_rows b' = num_rows b ∧ num_features b' = num_features b ∧
  num_outputs b' = num_outputs b ∧ tb_max_nodes b' = tb_max_nodes b ∧
  tb_split_proposals b' = tb_split_proposals b.

Lemma same_constants_refl b : same_constants b b.
Proof. by repeat split. Qed.

Lemma same_constants_trans b1 b2 b3 :
  same_constants b1 b2 → same_constants b2 b3 → same_constants b1 b3.
Proof.
  intros (? & ? & ? & ? & ?) (? & ? & ? & ? & ?). repeat split; congruence.
Qed.

Lemma ComputeHistogram_constants b depth context tree pp :
  same_constants b (ComputeHistogram b depth context tree pp).
Proof.
  unfold ComputeHistogram, Scan. destruct (depth =? 0); by repeat split.
Qed.

Lemma level_step_constants context depth st :
  same_constants (ls_builder st) (ls_builder (level_step context depth st)).
Proof.
  unfold level_step, split_step. cbn [ls_builder].
  eapply same_constants_trans; [|apply ComputeHistogram_constants].
  by repeat split.
Qed.

Lemma level_state_constants context d :
  same_constants (ls_builder (initial_state context))
    (ls_builder (level_state context d)).
Proof.
  unfold level_state. destruct (decide (0 ≤ d)) as [Hd|Hd].
  - apply (for_range_invariant
      (λ _ st, same_constants (ls_builder (initial_state context))
                 (ls_builder st))); [done|apply same_constants_refl|].
    intros i st _ Hst. eapply same_constants_trans; [exact Hst|].
    apply level_step_constants.
  - rewrite for_range_empty by lia. apply same_constants_refl.
Qed.

End BuilderConstants.

(** ** The invariant of the grown tree *)

Section GrownTree.
Context {DA : DoubleArith} {DL : DoubleLaws DA}.

Lemma initial_tree_leaves context n :
  ¬ internal (ls_tree (initial_state context)) n.
Proof.
  intros [Hn (f & Hf & Hne)]. unfold initial_state in Hf. cbn [ls_tree] in Hf.
  match type of Hf with
  | context [InitialiseRoot ?b ?c ?t ?al] =>
      destruct (InitialiseRoot_spec b c t al) as (Hfe & _)
  end.
  rewrite Hfe in Hf. simpl in Hf.
  apply lookup_replicate in Hf as [-> _]. done.
Qed.

Lemma initial_split_ok context : split_ok (ls_tree (initial_state context)).
Proof.
  split.
  - unfold initial_state. cbn [ls_tree].
    match goal with
    | |- context [InitialiseRoot ?b ?c ?t ?al] =>
        destruct (InitialiseRoot_spec b c t al) as (Hfe & _ & Hga & _)
    end.
    rewrite Hfe, Hga. simpl. by rewrite !length_replicate.
  - intros n Hn. by apply initial_tree_leaves in Hn.
Qed.

Lemma level_state_split_ok context d :
  0 < num_outputs (ls_builder (initial_state context)) →
  split_ok (ls_tree (level_state context d)).
Proof.
  intros Hno. destruct (decide (0 ≤ d)) as [Hd|Hd].
  2:{ unfold level_state. rewrite for_range_empty by lia.
      apply initial_split_ok. }
  assert (split_ok (ls_tree (level_state context d)) ∧
          same_constants (ls_builder (initial_state context))
            (ls_builder (level_state context d))) as [? _]; [|done].
  unfold level_state.
  apply (for_range_invariant
    (λ _ st, split_ok (ls_tree st) ∧
             same_constants (ls_builder (initial_state context))
               (ls_builder st))); [done| |].
  - split; [apply initial_split_ok|apply same_constants_refl].
  - intros i st Hi [Hok Hc]. split.
    + unfold level_step, split_step. cbn [ls_tree].
      apply PerformBestSplit_split_ok; [lia| |done].
      pose proof (ComputeHistogram_constants
                    (ls_builder (update_step context i st)) i context
                    (ls_tree (update_step context i st))
                    (ls_peer_positions (update_step context i st)))
        as (_ & _ & -> & _).
      destruct Hc as (_ & _ & Hc & _). cbn [update_step ls_builder].
      unfold with_positions. cbn [num_outputs]. lia.
    + eapply same_constants_trans; [exact Hc|]. apply level_step_constants.
Qed.

(** C3.  In the tree [build_tree] produces, every internal node [n] (one
    whose feature is not -1) has a gain above [eps], and both its children
    have a positive hessian on output 0. *)
Theorem internal_nodes_gain_and_hessians (context : TaskContext) (n f : Z) :
  let tree := build_tree context in
  let g_shape := shape (in_g (inputs context)) in
  lo2 g_shape ≤ hi2 g_shape →
  0 ≤ n → feature tree !! Z.to_nat n = Some f → f ≠ -1 →
  eps <! vec_at dzero (gain tree) n = true ∧
  dzero <! hessian tree (2 * n + 1) 0 = true ∧
  dzero <! hessian tree (2 * n + 2) 0 = true.
Proof.
  intros tree g_shape Hout Hn Hf Hne.
  destruct (level_state_split_ok context (max_depth (scalars context)))
    as [_ Hok].
  { simpl. fold g_shape. lia. }
  apply (Hok n). split; [done|]. eauto.
Qed.

End GrownTree.

(** ** Sums of gradient pairs in exact arithmetic *)

Section ExactAlgebra.
Context {DA : DoubleArith} {EL : ExactLaws DA}.

Add Ring double_ring : exact_ring.

Lemma gadd_comm a b : gadd a b = gadd b a.
Proof. unfold gadd. f_equal; ring. Qed.

Lemma gadd_assoc a b c : gadd a (gadd b c) = gadd (gadd a b) c.
Proof. unfold gadd. simpl. f_equal; ring. Qed.

Lemma gadd_zero_l a : gadd gzero a = a.
Proof. destruct a. unfold gadd. simpl. f_equal; ring. Qed.

Lemma gadd_zero_r a : gadd a gzero = a.
Proof. by rewrite gadd_comm, gadd_zero_l. Qed.

Lemma gsub_add_l a b : gsub (gadd a b) a = b.
Proof. destruct a, b. unfold gsub, gadd. simpl. f_equal; ring. Qed.

Lemma gsub_add_r a b : gsub (gadd a b) b = a.
Proof. by rewrite gadd_comm, gsub_add_l. Qed.

Lemma gadd_swap a b c d :
  gadd (gadd a b) (gadd c d) = gadd (gadd a c) (gadd b d).
Proof. unfold gadd. simpl. f_equal; ring. Qed.

(** The sum of [w lo], ..., [w (hi-1)], accumulated as the loops do. *)
Definition gsum_range (lo hi : Z) (w : Z → GPair) : GPair :=
  for_range lo hi (λ i a, gadd a (w i)) gzero.

Lemma gsum_range_empty lo hi w : hi ≤ lo → gsum_range lo hi w = gzero.
Proof. intros. unfold gsum_range. by rewrite for_range_empty. Qed.

Lemma gsum_range_snoc lo hi w :
  lo ≤ hi → gsum_range lo (hi + 1) w = gadd (gsum_range lo hi w) (w hi).
Proof. intros. unfold gsum_range. by rewrite for_range_snoc. Qed.

Lemma gsum_range_ext lo hi w w' :
  (∀ i, lo ≤ i < hi → w i = w' i) → gsum_range lo hi w = gsum_range lo hi w'.
Proof.
  intros Hext. unfold gsum_range. apply for_range_ext.
  intros i a Hi. by rewrite Hext.
Qed.

Lemma gsum_range_zero lo hi : gsum_range lo hi (λ _, gzero) = gzero.
Proof.
  destruct (decide (lo ≤ hi)) as [Hle|Hgt].
  - unfold gsum_range.
    apply (for_range_invariant (λ _ a, a = gzero)); [done|done|].
    intros i a _ ->. apply gadd_zero_l.
  - by rewrite gsum_range_empty by lia.
Qed.

Lemma gsum_range_add lo hi u v :
  gsum_range lo hi (λ i, gadd (u i) (v i))
  = gadd (gsum_range lo hi u) (gsum_range lo hi v).
Proof.
  destruct (decide (lo ≤ hi)) as [Hle|Hgt].
  - apply (for_range_invariant
      (λ m a, a = gadd (gsum_range lo m u) (gsum_range lo m v))); [done| |].
    + by rewrite !gsum_range_empty, gadd_zero_l by lia.
    + intros i a Hi ->. rewrite !gsum_range_snoc by lia. apply gadd_swap.
  - by rewrite !gsum_range_empty, gadd_zero_l by lia.
Qed.

(** A loop that adds [w i] to an accumulator adds their sum. *)
Lemma for_range_gadd lo hi w init :
  for_range lo hi (λ i a, gadd a (w i)) init
  = gadd init (gsum_range lo hi w).
Proof.
  destruct (decide (lo ≤ hi)) as [Hle|Hgt].
  - apply (for_range_invariant
      (λ m a, a = gadd init (gsum_range lo m w))); [done| |].
    + by rewrite gsum_range_empty, gadd_zero_r by lia.
    + intros i a Hi ->. rewrite gsum_range_snoc by lia.
      by rewrite gadd_assoc.
  - by rewrite for_range_empty, gsum_range_empty, gadd_zero_r by lia.
Qed.

(** Only the term at [k] counts when the others are zero. *)
Lemma gsum_range_single lo hi k (x : GPair) :
  lo ≤ k < hi →
  gsum_range lo hi (λ i, if i =? k then x else gzero) = x.
Proof.
  intros Hk.
  assert (∀ m, lo ≤ m ≤ hi →
            gsum_range lo m (λ i, if i =? k then x else gzero)
            = if k <? m then x else gzero) as Hgen.
  { intros m Hm.
    apply (for_range_invariant
      (λ m a, a = if k <? m then x else gzero)); [lia| |].
    - by destruct (Z.ltb_spec k lo); [lia|].
    - intros i a Hi ->.
      destruct (Z.eqb_spec i k), (Z.ltb_spec k i), (Z.ltb_spec k (i + 1));
        try lia; by rewrite ?gadd_zero_l, ?gadd_zero_r. }
  rewrite Hgen by lia. by destruct (Z.ltb_spec k hi); [|lia].
Qed.

(** [SumAllReduce] on pairs is the sum of the pairs. *)
Lemma SumAllReduce_pair_foldl own others :
  SumAllReduce_pair own others = foldl gadd own others.
Proof.
  unfold SumAllReduce_pair, SumAllReduce. revert own.
  induction others as [|x others IH]; intros own; simpl; [by destruct own|].
  rewrite <- IH. done.
Qed.

Lemma foldl_gadd_zip_add {A B} (U V : A → B → GPair) xs ys a a' :
  foldl gadd (gadd a a') (zip_with (λ x y, gadd (U x y) (V x y)) xs ys)
  = gadd (foldl gadd a (zip_with U xs ys)) (foldl gadd a' (zip_with V xs ys)).
Proof.
  revert ys a a'. induction xs as [|x xs IH]; intros [|y ys] a a'; simpl;
    try done.
  rewrite <- IH. f_equal. apply gadd_swap.
Qed.

Lemma foldl_gadd_zip_zero {A B} (xs : list A) (ys : list B) :
  foldl gadd gzero (zip_with (λ _ _, gzero) xs ys) = gzero.
Proof.
  revert ys. induction xs as [|x xs IH]; intros [|y ys]; simpl; try done.
  by rewrite gadd_zero_l.
Qed.

Lemma zip_with_Forall2_ext {A B C} (P : A → B → Prop) (U V : A → B → C) xs ys :
  (∀ x y, P x y → U x y = V x y) → Forall2 P xs ys →
  zip_with U xs ys = zip_with V xs ys.
Proof. intros Hext. induction 1; simpl; f_equal; auto. Qed.

End ExactAlgebra.

(** ** What the row loops add to the histogram *)

Section RowSemantics.
Context {DA : DoubleArith} {EL : ExactLaws DA}.

(** Feature [j] of row [i] falls into [bin]. *)
Definition hits (b : TreeBuilder) (X : Store) (i j bin : Z) : bool :=
  let bin_idx := FindBin (tb_split_proposals b) (acc X i j 0) j in
  negb (bin_idx =? NOT_FOUND) && (bin_idx =? bin).

(** What row [i] of a shard contributes to the cell [(bin, o)] of the node
    it is at. *)
Definition row_contrib (b : TreeBuilder) (s : Shard) (i bin o : Z) : GPair :=
  if (0 <=? o) && (o <? num_outputs b) then
    gsum_range 0 (num_features b)
      (λ j, if hits b (in_X s) i j bin
            then mkGPair (acc (in_g s) i 0 o) (acc (in_h s) i 0 o)
            else gzero)
  else gzero.

(** The contributions to [(bin, o)] of the rows of a shard whose position
    is selected. *)
Definition rows_sum (b : TreeBuilder) (s : Shard) (ps : list Z)
  (sel : Z → bool) (bin o : Z) : GPair :=
  let X_shape := shape (in_X s) in
  gsum_range (lo0 X_shape) (hi0 X_shape + 1)
    (λ i, if sel (vec_at 0 ps (i - lo0 X_shape))
          then row_contrib b s i bin o else gzero).

Lemma add_outputs_spec (n_out pos bin_idx : Z) (pair : Z → GPair)
  (hb : Histogram) (n bin o : Z) :
  for_range 0 n_out
    (λ k hb, upd3 hb pos bin_idx k (gadd (hb pos bin_idx k) (pair k))) hb
    n bin o
  = if (n =? pos) && (bin =? bin_idx) && (0 <=? o) && (o <? n_out)
    then gadd (hb n bin o) (pair o) else hb n bin o.
Proof.
  destruct (decide (0 ≤ n_out)) as [Hn|Hn].
  2:{ rewrite for_range_empty by lia.
      destruct (n =? pos), (bin =? bin_idx), (Z.leb_spec 0 o),
        (Z.ltb_spec o n_out); simpl; try done; lia. }
  revert n bin o.
  apply (for_range_invariant
    (λ m r, ∀ n bin o, r n bin o
       = if (n =? pos) && (bin =? bin_idx) && (0 <=? o) && (o <? m)
         then gadd (hb n bin o) (pair o) else hb n bin o)); [done| |].
  - intros n bin o.
    destruct (n =? pos), (bin =? bin_idx), (Z.leb_spec 0 o), (Z.ltb_spec o 0);
      simpl; try done; lia.
  - intros m r Hm IH n bin o. unfold upd3. rewrite !IH.
    destruct (Z.eqb_spec n pos), (Z.eqb_spec bin bin_idx), (Z.eqb_spec o m),
      (Z.eqb_spec pos pos), (Z.eqb_spec bin_idx bin_idx),
      (Z.leb_spec 0 o), (Z.leb_spec 0 m), (Z.ltb_spec o m),
      (Z.ltb_spec m m), (Z.ltb_spec o (m + 1));
      simpl; subst; try done; lia.
Qed.

Lemma add_row_spec (b : TreeBuilder) (s : Shard) (i position : Z)
  (hb : Histogram) (n bin o : Z) :
  add_row b (in_X s) (in_g s) (in_h s) i position hb n bin o
  = if n =? position then gadd (hb n bin o) (row_contrib b s i bin o)
    else hb n bin o.
Proof.
  unfold add_row, row_contrib.
  set (valid := (0 <=? o) && (o <? num_outputs b)).
  set (pair := mkGPair (acc (in_g s) i 0 o) (acc (in_h s) i 0 o)).
  destruct (decide (0 ≤ num_features b)) as [Hn|Hn].
  2:{ rewrite for_range_empty, gsum_range_empty by lia.
      destruct (n =? position), valid; by rewrite ?gadd_zero_r. }
  revert n bin o valid pair.
  apply (for_range_invariant
    (λ m r, ∀ n bin o,
       let valid := (0 <=? o) && (o <? num_outputs b) in
       let pair := mkGPair (acc (in_g s) i 0 o) (acc (in_h s) i 0 o) in
       r n bin o
       = if n =? position
         then gadd (hb n bin o)
                (if valid
                 then gsum_range 0 m
                        (λ j, if hits b (in_X s) i j bin then pair else gzero)
                 else gzero)
         else hb n bin o)); [done| |].
  - intros n bin o valid pair. rewrite gsum_range_empty by lia.
    destruct (n =? position), valid; by rewrite ?gadd_zero_r.
  - intros m r Hm IH n bin o valid pair.
    rewrite gsum_range_snoc by lia. unfold hits at 2.
    set (bin_idx := FindBin (tb_split_proposals b) (acc (in_X s) i m 0) m).
    destruct (Z.eqb_spec bin_idx NOT_FOUND) as [Hnf|Hfound]; simpl.
    + rewrite gadd_zero_r. apply IH.
    + rewrite add_outputs_spec, !IH. subst valid. fold pair.
      destruct (Z.eqb_spec n position) as [->|Hne]; simpl; [|done].
      rewrite ?Z.eqb_refl. rewrite (Z.eqb_sym bin bin_idx). simpl.
      destruct (Z.eqb_spec bin_idx bin), (Z.leb_spec 0 o),
        (Z.ltb_spec o (num_outputs b)); simpl;
        by rewrite ?gadd_zero_r, ?gadd_assoc.
Qed.

(** A row loop that adds the rows whose position is selected. *)
Lemma rows_loop_spec (b : TreeBuilder) (s : Shard) (ps : list Z)
  (sel : Z → bool) (hb : Histogram) (n bin o : Z) :
  let X_shape := shape (in_X s) in
  for_range (lo0 X_shape) (hi0 X_shape + 1)
    (λ i hb,
       let position := vec_at 0 ps (i - lo0 X_shape) in
       if sel position
       then add_row b (in_X s) (in_g s) (in_h s) i position hb else hb)
    hb n bin o
  = gadd (hb n bin o) (rows_sum b s ps (λ q, sel q && (q =? n)) bin o).
Proof.
  intros X_shape. unfold rows_sum. fold X_shape.
  set (lo := lo0 X_shape). set (hi := hi0 X_shape).
  destruct (decide (lo ≤ hi + 1)) as [Hle|Hgt].
  2:{ by rewrite for_range_empty, gsum_range_empty, gadd_zero_r by lia. }
  revert n bin o.
  apply (for_range_invariant
    (λ m r, ∀ n bin o,
       r n bin o
       = gadd (hb n bin o)
           (gsum_range lo m
              (λ i, if sel (vec_at 0 ps (i - lo)) && (vec_at 0 ps (i - lo) =? n)
                    then row_contrib b s i bin o else gzero))));
    [done| |].
  - intros n bin o. by rewrite gsum_range_empty, gadd_zero_r by lia.
  - intros m r Hm IH n bin o. rewrite gsum_range_snoc by lia. simpl.
    destruct (sel (vec_at 0 ps (m - lo))); simpl.
    + rewrite add_row_spec, IH. rewrite (Z.eqb_sym n).
      destruct (vec_at 0 ps (m - lo) =? n);
        by rewrite ?gadd_zero_r, ?gadd_assoc.
    + by rewrite IH, gadd_zero_r.
Qed.

(** The rows that [ComputeHistogram] accumulates at [depth]: active, and on
    a node that is built directly. *)
Definition accumulated (depth : Z) (tree : Tree) (q : Z) : bool :=
  negb ((q <? 0) || negb (ComputeHistogramBin q depth (hessian tree))).

Lemma build_histogram_spec (b : TreeBuilder) (depth : Z) (tree : Tree)
  (s : Shard) (ps : list Z) (hb : Histogram) (n bin o : Z) :
  build_histogram b depth tree s ps hb n bin o
  = gadd (hb n bin o)
      (rows_sum b s ps (λ q, accumulated depth tree q && (q =? n)) bin o).
Proof.
  unfold build_histogram.
  rewrite <- (rows_loop_spec b s ps (accumulated depth tree) hb n bin o).
  cbv zeta.
  match goal with
  | |- ?f n bin o = ?g n bin o => assert (f = g) as ->; [|done]
  end.
  apply for_range_ext. intros i hb' _.
  unfold histogram_row, accumulated. simpl.
  by destruct ((_ <? 0) || _).
Qed.

Lemma node_rows_histogram_spec (b : TreeBuilder) (s : Shard) (ps : list Z)
  (node n bin o : Z) :
  node_rows_histogram b s ps node n bin o
  = rows_sum b s ps (λ q, (q =? node) && (q =? n)) bin o.
Proof.
  unfold node_rows_histogram.
  pose proof (rows_loop_spec b s ps (λ q, q =? node) (λ _ _ _, gzero)
                n bin o) as Hloop.
  cbv beta zeta in Hloop |- *. rewrite Hloop. apply gadd_zero_l.
Qed.

Lemma rows_sum_ext (b : TreeBuilder) (s : Shard) (ps : list Z)
  (sel sel' : Z → bool) (bin o : Z) :
  (∀ q, sel q = sel' q) →
  rows_sum b s ps sel bin o = rows_sum b s ps sel' bin o.
Proof.
  intros Hext. unfold rows_sum. apply gsum_range_ext. intros i _.
  by rewrite Hext.
Qed.

Lemma rows_sum_none (b : TreeBuilder) (s : Shard) (ps : list Z) (bin o : Z) :
  rows_sum b s ps (λ _, false) bin o = gzero.
Proof. unfold rows_sum. apply gsum_range_zero. Qed.

End RowSemantics.

(** ** What Scan computes *)

Section ScanSemantics.
Context {DA : DoubleArith}.

(** The builder uses a well-formed table of thresholds. *)
Definition builder_wf (b : TreeBuilder) : Prop :=
  proposals_wf (tb_split_proposals b) ∧
  sp_num_features (tb_split_proposals b) = num_features b.

Abbreviation range_begin b f := (fst (FeatureRange (tb_split_proposals b) f)).

Lemma row_pointers_monotone (b : TreeBuilder) (f f' : Z) :
  builder_wf b → 0 ≤ f ≤ f' → f' ≤ num_features b →
  vec_at 0 (row_pointers (tb_split_proposals b)) f
  ≤ vec_at 0 (row_pointers (tb_split_proposals b)) f'.
Proof.
  intros [Hwf Hnf] Hf Hf'.
  assert (∀ k : nat, f + Z.of_nat k ≤ num_features b →
            vec_at 0 (row_pointers (tb_split_proposals b)) f
            ≤ vec_at 0 (row_pointers (tb_split_proposals b)) (f + Z.of_nat k))
    as Hchain.
  { induction k as [|k IH]; intros Hk.
    - replace (f + Z.of_nat 0) with f by lia. lia.
    - specialize (IH ltac:(lia)).
      pose proof (wf_monotone _ Hwf (f + Z.of_nat k) ltac:(lia)).
      replace (f + Z.of_nat (S k)) with (f + Z.of_nat k + 1) by lia. lia. }
  specialize (Hchain (Z.to_nat (f' - f)) ltac:(lia)).
  by replace (f + Z.of_nat (Z.to_nat (f' - f))) with f' in Hchain by lia.
Qed.

(** The ranges of two features do not overlap. *)
Lemma candidate_feature_unique (b : TreeBuilder) (f f' bin : Z) :
  builder_wf b → candidate b f bin → candidate b f' bin → f = f'.
Proof.
  intros Hwf [Hf Hb] [Hf' Hb']. simpl in *.
  destruct (Z.lt_trichotomy f f') as [Hlt|[->|Hgt]]; [|done|].
  - pose proof (row_pointers_monotone b (f + 1) f' Hwf ltac:(lia) ltac:(lia)).
    lia.
  - pose proof (row_pointers_monotone b (f' + 1) f Hwf ltac:(lia) ltac:(lia)).
    lia.
Qed.

(** The bins of a feature are bins of the histogram. *)
Lemma candidate_bin_bounds (b : TreeBuilder) (f bin : Z) :
  builder_wf b → candidate b f bin →
  0 ≤ bin < histogram_size (tb_split_proposals b).
Proof.
  intros Hwf [Hf Hb]. simpl in *.
  pose proof (row_pointers_monotone b 0 f Hwf ltac:(lia) ltac:(lia)).
  pose proof (row_pointers_monotone b (f + 1) (num_features b) Hwf
                ltac:(lia) ltac:(lia)).
  destruct Hwf as [Hwf Hnf].
  rewrite (wf_first _ Hwf) in *. rewrite (wf_size _ Hwf), Hnf. lia.
Qed.

(** The running sum over the bins of one feature, for one output. *)
Lemma scan_bins_spec (node o0 fb fe : Z) (hb : Histogram) :
  let r := for_range fb fe
             (λ bin_idx '(sum, hb),
                let sum := gadd sum (hb node bin_idx o0) in
                (sum, upd3 hb node bin_idx o0 sum))
             (gzero, hb) in
  ∀ n bin o,
    r.2 n bin o
    = if (n =? node) && (o =? o0) && (fb <=? bin) && (bin <? fe)
      then gsum_range fb (bin + 1) (λ b', hb node b' o0)
      else hb n bin o.
Proof.
  intros r. subst r.
  destruct (decide (fb ≤ fe)) as [Hle|Hgt].
  2:{ rewrite for_range_empty by lia. intros n bin o. simpl.
      destruct (n =? node), (o =? o0), (Z.leb_spec fb bin),
        (Z.ltb_spec bin fe); simpl; try done; lia. }
  assert (let r := for_range fb fe
             (λ bin_idx '(sum, hb),
                let sum := gadd sum (hb node bin_idx o0) in
                (sum, upd3 hb node bin_idx o0 sum))
             (gzero, hb) in
          r.1 = gsum_range fb fe (λ b', hb node b' o0) ∧
          ∀ n bin o,
            r.2 n bin o
            = if (n =? node) && (o =? o0) && (fb <=? bin) && (bin <? fe)
              then gsum_range fb (bin + 1) (λ b', hb node b' o0)
              else hb n bin o) as [_ H]; [|exact H].
  apply (for_range_invariant
    (λ m (r : GPair * Histogram),
       r.1 = gsum_range fb m (λ b', hb node b' o0) ∧
       ∀ n bin o,
         r.2 n bin o
         = if (n =? node) && (o =? o0) && (fb <=? bin) && (bin <? m)
           then gsum_range fb (bin + 1) (λ b', hb node b' o0)
           else hb n bin o)); [done| |].
  - split; [by rewrite gsum_range_empty|]. intros n bin o. simpl.
    destruct (n =? node), (o =? o0), (Z.leb_spec fb bin), (Z.ltb_spec bin fb);
      simpl; try done; lia.
  - intros m [sum r] Hm [Hsum Hr]. simpl in *.
    assert (r node m o0 = hb node m o0) as Hcur.
    { rewrite Hr. rewrite !Z.eqb_refl.
      by destruct (Z.leb_spec fb m), (Z.ltb_spec m m); simpl; try lia. }
    split.
    + rewrite gsum_range_snoc by lia. by rewrite Hsum, Hcur.
    + intros n bin o. unfold upd3. rewrite Hcur, Hsum, Hr.
      destruct (Z.eqb_spec n node), (Z.eqb_spec o o0), (Z.eqb_spec bin m),
        (Z.leb_spec fb bin), (Z.ltb_spec bin m), (Z.ltb_spec bin (m + 1));
        simpl; subst; try done; try lia.
      by rewrite gsum_range_snoc by lia.
Qed.

(** The scan of one feature of a node: the output loop. *)
Lemma scan_feature_spec (n_out node fb fe : Z) (hb : Histogram) :
  ∀ n bin o,
    for_range 0 n_out
      (λ output hb,
         snd (for_range fb fe
                (λ bin_idx '(sum, hb),
                   let sum := gadd sum (hb node bin_idx output) in
                   (sum, upd3 hb node bin_idx output sum))
                (gzero, hb)))
      hb n bin o
    = if (n =? node) && (0 <=? o) && (o <? n_out) && (fb <=? bin) && (bin <? fe)
      then gsum_range fb (bin + 1) (λ b', hb node b' o)
      else hb n bin o.
Proof.
  destruct (decide (0 ≤ n_out)) as [Hn|Hn].
  2:{ rewrite for_range_empty by lia. intros n bin o.
      destruct (n =? node), (Z.leb_spec 0 o), (Z.ltb_spec o n_out);
        simpl; try done; lia. }
  apply (for_range_invariant
    (λ m r, ∀ n bin o,
       r n bin o
       = if (n =? node) && (0 <=? o) && (o <? m) && (fb <=? bin) && (bin <? fe)
         then gsum_range fb (bin + 1) (λ b', hb node b' o)
         else hb n bin o)); [done| |].
  - intros n bin o.
    destruct (n =? node), (Z.leb_spec 0 o), (Z.ltb_spec o 0);
      simpl; try done; lia.
  - intros m r Hm Hr n bin o.
    pose proof (scan_bins_spec node m fb fe r) as Hbins.
    cbv zeta in Hbins. rewrite Hbins, Hr. clear Hbins.
    destruct (Z.eqb_spec o m) as [Heq|Hne].
    + subst o. rewrite Z.ltb_irrefl.
      destruct (n =? node) eqn:Hnode, (Z.leb_spec 0 m), (Z.ltb_spec m (m + 1)),
        (Z.leb_spec fb bin), (Z.ltb_spec bin fe); simpl; try done; try lia.
      apply gsum_range_ext. intros b' Hb'. rewrite Hr.
      rewrite Z.eqb_refl, Z.ltb_irrefl.
      by destruct (0 <=? m).
    + destruct (n =? node), (Z.leb_spec 0 o), (Z.ltb_spec o m),
        (Z.ltb_spec o (m + 1)), (Z.leb_spec fb bin), (Z.ltb_spec bin fe);
        simpl; try done; lia.
Qed.

Lemma scan_node_histogram_spec (b : TreeBuilder) (node : Z) (hb : Histogram) :
  builder_wf b →
  (∀ f bin o, candidate b f bin → 0 ≤ o < num_outputs b →
     scan_node_histogram b node hb node bin o
     = gsum_range (range_begin b f) (bin + 1) (λ b', hb node b' o)) ∧
  (∀ n bin o, n ≠ node → scan_node_histogram b node hb n bin o = hb n bin o).
Proof.
  intros Hwf. unfold scan_node_histogram.
  destruct (decide (0 ≤ num_features b)) as [Hn|Hn].
  2:{ rewrite for_range_empty by lia. split; [|done].
      intros f bin o [? _]. lia. }
  pose (Inv := λ (m : Z) (r : Histogram),
    (∀ f bin o, candidate b f bin → f < m → 0 ≤ o < num_outputs b →
       r node bin o
       = gsum_range (range_begin b f) (bin + 1) (λ b', hb node b' o)) ∧
    (∀ n bin o, n ≠ node → r n bin o = hb n bin o) ∧
    (∀ f bin o, candidate b f bin → m ≤ f → r node bin o = hb node bin o)).
  match goal with
  | |- context [for_range 0 (num_features b) ?bd hb] =>
      assert (Inv (num_features b) (for_range 0 (num_features b) bd hb))
        as (H1 & H2 & _)
  end.
  2:{ split; [|done]. intros f bin o Hc Ho.
      apply H1; [done| |done]. destruct Hc. lia. }
  apply (for_range_invariant Inv); [done| |].
  - unfold Inv. repeat split; try done. intros f bin o [? _] ?. lia.
  - intros m r Hm (Hdone & Hother & Htodo). unfold Inv. cbv beta.
    set (fb := vec_at 0 (row_pointers (tb_split_proposals b)) m).
    set (fe := vec_at 0 (row_pointers (tb_split_proposals b)) (m + 1)).
    assert (∀ bin, candidate b m bin ↔ fb ≤ bin < fe) as Hcm.
    { intros bin. unfold candidate, FeatureRange. simpl. fold fb fe.
      split; [tauto|]. intros ?. split; [lia|done]. }
    change (FeatureRange (tb_split_proposals b) m) with (fb, fe).
    cbv beta iota.
    repeat split.
    + intros f bin o Hc Hf Ho. rewrite scan_feature_spec.
      rewrite Z.eqb_refl.
      destruct (Z.leb_spec 0 o), (Z.ltb_spec o (num_outputs b)); try lia.
      simpl. destruct (decide (f = m)) as [->|Hne].
      * apply Hcm in Hc as Hb.
        destruct (Z.leb_spec fb bin), (Z.ltb_spec bin fe); try lia. simpl.
        apply gsum_range_ext. intros b' Hb'.
        apply (Htodo m); [|lia]. apply Hcm. lia.
      * destruct (Z.leb_spec fb bin), (Z.ltb_spec bin fe); simpl;
          try (apply Hdone; [done|lia|done]).
        exfalso. apply Hne.
        apply (candidate_feature_unique b f m bin Hwf Hc).
        apply Hcm. lia.
    + intros n bin o Hne. rewrite scan_feature_spec.
      destruct (Z.eqb_spec n node); [done|]. simpl. by apply Hother.
    + intros f bin o Hc Hf. rewrite scan_feature_spec.
      destruct (Z.leb_spec fb bin), (Z.ltb_spec bin fe);
        rewrite ?andb_false_r; try (apply (Htodo f); [done|lia]).
      exfalso. assert (f = m); [|lia].
      apply (candidate_feature_unique b f m bin Hwf Hc).
      apply Hcm. lia.
Qed.

End ScanSemantics.

Section SubtractSemantics.
Context {DA : DoubleArith}.

Lemma subtract_bins_spec (sn hn p o0 fb fe : Z) (hb : Histogram) (n bin o : Z) :
  sn ≠ hn → sn ≠ p →
  for_range fb fe
    (λ bin_idx hb,
       let scanned_sum := hb hn bin_idx o0 in
       let parent_sum := hb p bin_idx o0 in
       upd3 hb sn bin_idx o0 (gsub parent_sum scanned_sum))
    hb n bin o
  = if (n =? sn) && (o =? o0) && (fb <=? bin) && (bin <? fe)
    then gsub (hb p bin o0) (hb hn bin o0) else hb n bin o.
Proof.
  intros Hhn Hp.
  destruct (decide (fb ≤ fe)) as [Hle|Hgt].
  2:{ rewrite for_range_empty by lia.
      destruct (n =? sn), (o =? o0), (Z.leb_spec fb bin), (Z.ltb_spec bin fe);
        simpl; try done; lia. }
  revert n bin o.
  apply (for_range_invariant
    (λ m r, ∀ n bin o,
       r n bin o
       = if (n =? sn) && (o =? o0) && (fb <=? bin) && (bin <? m)
         then gsub (hb p bin o0) (hb hn bin o0) else hb n bin o)); [done| |].
  - intros n bin o.
    destruct (n =? sn), (o =? o0), (Z.leb_spec fb bin), (Z.ltb_spec bin fb);
      simpl; try done; lia.
  - intros m r Hm Hr n bin o. simpl. unfold upd3.
    rewrite (Hr hn), (Hr p), (Hr n).
    destruct (Z.eqb_spec hn sn); [congruence|].
    destruct (Z.eqb_spec p sn); [congruence|]. simpl.
    destruct (Z.eqb_spec n sn), (Z.eqb_spec o o0), (Z.eqb_spec bin m),
      (Z.leb_spec fb bin), (Z.ltb_spec bin m), (Z.ltb_spec bin (m + 1));
      simpl; subst; try done; lia.
Qed.

Lemma subtract_feature_spec (n_out sn hn p fb fe : Z) (hb : Histogram)
  (n bin o : Z) :
  sn ≠ hn → sn ≠ p →
  for_range 0 n_out
    (λ output hb,
       for_range fb fe
         (λ bin_idx hb,
            let scanned_sum := hb hn bin_idx output in
            let parent_sum := hb p bin_idx output in
            upd3 hb sn bin_idx output (gsub parent_sum scanned_sum))
         hb)
    hb n bin o
  = if (n =? sn) && (0 <=? o) && (o <? n_out) && (fb <=? bin) && (bin <? fe)
    then gsub (hb p bin o) (hb hn bin o) else hb n bin o.
Proof.
  intros Hhn Hp.
  destruct (decide (0 ≤ n_out)) as [Hn|Hn].
  2:{ rewrite for_range_empty by lia.
      destruct (n =? sn), (Z.leb_spec 0 o), (Z.ltb_spec o n_out);
        simpl; try done; lia. }
  revert n bin o.
  apply (for_range_invariant
    (λ m r, ∀ n bin o,
       r n bin o
       = if (n =? sn) && (0 <=? o) && (o <? m) && (fb <=? bin) && (bin <? fe)
         then gsub (hb p bin o) (hb hn bin o) else hb n bin o)); [done| |].
  - intros n bin o.
    destruct (n =? sn), (Z.leb_spec 0 o), (Z.ltb_spec o 0);
      simpl; try done; lia.
  - intros m r Hm Hr n bin o. rewrite subtract_bins_spec by done.
    rewrite (Hr p), (Hr hn), (Hr n).
    destruct (Z.eqb_spec hn sn); [congruence|].
    destruct (Z.eqb_spec p sn); [congruence|]. simpl.
    destruct (Z.eqb_spec n sn), (Z.eqb_spec o m), (Z.leb_spec 0 o),
      (Z.ltb_spec o m), (Z.ltb_spec o (m + 1)), (Z.leb_spec fb bin),
      (Z.ltb_spec bin fe); simpl; subst; try done; lia.
Qed.

Lemma subtract_node_histogram_spec (b : TreeBuilder) (sn hn p : Z)
  (hb : Histogram) :
  sn ≠ hn → sn ≠ p →
  (∀ f bin o, candidate b f bin → 0 ≤ o < num_outputs b →
     subtract_node_histogram b sn hn p hb sn bin o
     = gsub (hb p bin o) (hb hn bin o)) ∧
  (∀ n bin o, n ≠ sn →
     subtract_node_histogram b sn hn p hb n bin o = hb n bin o).
Proof.
  intros Hhn Hp. unfold subtract_node_histogram.
  destruct (decide (0 ≤ num_features b)) as [Hn|Hn].
  2:{ rewrite for_range_empty by lia. split; [|done].
      intros f bin o [? _]. lia. }
  pose (Inv := λ (m : Z) (r : Histogram),
    (∀ f bin o, candidate b f bin → f < m → 0 ≤ o < num_outputs b →
       r sn bin o = gsub (hb p bin o) (hb hn bin o)) ∧
    (∀ n bin o, n ≠ sn → r n bin o = hb n bin o)).
  match goal with
  | |- context [for_range 0 (num_features b) ?bd hb] =>
      assert (Inv (num_features b) (for_range 0 (num_features b) bd hb))
        as (H1 & H2)
  end.
  2:{ split; [|done]. intros f bin o Hc Ho.
      apply (H1 f); [done| |done]. destruct Hc. lia. }
  apply (for_range_invariant Inv); [done| |].
  - unfold Inv. split; [|done]. intros f bin o [? _] ?. lia.
  - intros m r Hm (Hdone & Hother). unfold Inv. cbv beta.
    set (fb := vec_at 0 (row_pointers (tb_split_proposals b)) m).
    set (fe := vec_at 0 (row_pointers (tb_split_proposals b)) (m + 1)).
    change (FeatureRange (tb_split_proposals b) m) with (fb, fe).
    cbv beta iota. split.
    + intros f bin o Hc Hf Ho. rewrite subtract_feature_spec by done.
      rewrite Z.eqb_refl, (Hother p), (Hother hn) by congruence.
      destruct (Z.leb_spec 0 o), (Z.ltb_spec o (num_outputs b)); try lia.
      simpl. destruct (decide (f = m)) as [->|Hne].
      * assert (fb ≤ bin < fe) as Hb by (by destruct Hc).
        by destruct (Z.leb_spec fb bin), (Z.ltb_spec bin fe); try lia.
      * destruct ((fb <=? bin) && (bin <? fe)); [done|].
        apply (Hdone f); [done|lia|done].
    + intros n bin o Hne. rewrite subtract_feature_spec by done.
      destruct (Z.eqb_spec n sn); [done|]. simpl. by apply Hother.
Qed.

Lemma SelectHistogramNode_cases (p : Z) (h : Z → Z → double) :
  SelectHistogramNode p h = (LeftChild p, RightChild p) ∨
  SelectHistogramNode p h = (RightChild p, LeftChild p).
Proof. unfold SelectHistogramNode. destruct (_ <! _); auto. Qed.

Lemma LevelBegin_end d :
  0 ≤ d → LevelBegin d + NodesInLevel d = LevelBegin (d + 1).
Proof.
  intros Hd. unfold LevelBegin, NodesInLevel.
  rewrite Z.pow_add_r by lia. lia.
Qed.

(** [Scan] at a depth below the root: the nodes outside the level keep
    their histograms; of the two children of every node of the level above,
    one is scanned and the other is the parent minus the scanned one. *)
Lemma Scan_spec (b : TreeBuilder) (depth : Z) (tree : Tree) :
  builder_wf b → 1 ≤ depth →
  let hb := histogram_buffer b in
  let hb' := histogram_buffer (Scan b depth tree) in
  (∀ n bin o, n < LevelBegin depth ∨ LevelBegin (depth + 1) ≤ n →
     hb' n bin o = hb n bin o) ∧
  (∀ p f bin o,
     LevelBegin (depth - 1) ≤ p < LevelBegin depth →
     candidate b f bin → 0 ≤ o < num_outputs b →
     let hn := (SelectHistogramNode p (hessian tree)).1 in
     let sn := (SelectHistogramNode p (hessian tree)).2 in
     let scanned := gsum_range (fst (FeatureRange (tb_split_proposals b) f))
                      (bin + 1) (λ b', hb hn b' o) in
     hb' hn bin o = scanned ∧ hb' sn bin o = gsub (hb p bin o) scanned).
Proof.
  intros Hwf Hd hb hb'. subst hb'. unfold Scan.
  destruct (Z.eqb_spec depth 0) as [|_]; [lia|]. cbn [histogram_buffer with_histogram].
  fold hb.
  pose proof (LevelBegin_end (depth - 1) ltac:(lia)) as Hend.
  replace (depth - 1 + 1) with depth in Hend by lia. rewrite Hend.
  pose proof (LevelBegin_succ (depth - 1) ltac:(lia)) as Hlb.
  replace (depth - 1 + 1) with depth in Hlb by lia.
  pose proof (LevelBegin_succ depth ltac:(lia)) as Hlb'.
  pose proof (LevelBegin_nonneg (depth - 1) ltac:(lia)) as Hnn.
  pose (Inv := λ (m : Z) (r : Histogram),
    (∀ n bin o, n < LevelBegin depth ∨ 2 * m + 1 ≤ n →
       r n bin o = hb n bin o) ∧
    (∀ p f bin o,
       LevelBegin (depth - 1) ≤ p < m →
       candidate b f bin → 0 ≤ o < num_outputs b →
       let hn := (SelectHistogramNode p (hessian tree)).1 in
       let sn := (SelectHistogramNode p (hessian tree)).2 in
       let scanned := gsum_range (fst (FeatureRange (tb_split_proposals b) f))
                        (bin + 1) (λ b', hb hn b' o) in
       r hn bin o = scanned ∧ r sn bin o = gsub (hb p bin o) scanned)).
  match goal with
  | |- context [for_range _ (LevelBegin depth) ?bd hb] =>
      assert (Inv (LevelBegin depth)
                (for_range (LevelBegin (depth - 1)) (LevelBegin depth) bd hb))
        as (H1 & H2)
  end.
  2:{ split; [|exact H2]. intros n bin o Hn. apply H1. lia. }
  apply (for_range_invariant Inv); [lia| |].
  - unfold Inv. split; [done|]. intros; lia.
  - intros m r Hm (Hun & Hdone). unfold Inv. cbv beta.
    destruct (SelectHistogramNode m (hessian tree)) as [hn sn] eqn:Hsel.
    assert ((hn = 2 * m + 1 ∧ sn = 2 * m + 2) ∨
            (hn = 2 * m + 2 ∧ sn = 2 * m + 1)) as Hcases.
    { destruct (SelectHistogramNode_cases m (hessian tree)) as [H|H];
        rewrite Hsel in H; injection H as -> ->;
        unfold LeftChild, RightChild; auto. }
    destruct (scan_node_histogram_spec b hn r Hwf) as [Hscan Hscan'].
    destruct (subtract_node_histogram_spec b sn hn m
                (scan_node_histogram b hn r) ltac:(lia) ltac:(lia))
      as [Hsub Hsub'].
    split.
    + intros n bin o Hn. rewrite Hsub', Hscan' by lia. apply Hun. lia.
    + intros p f bin o Hp Hc Ho.
      destruct (decide (p = m)) as [->|Hne].
      * rewrite Hsel. simpl. split.
        -- rewrite Hsub', (Hscan f) by (done || lia).
           apply gsum_range_ext. intros b' _. apply Hun. lia.
        -- rewrite (Hsub f), Hscan', (Hscan f) by (done || lia).
           rewrite (Hun m) by lia. f_equal.
           apply gsum_range_ext. intros b' _. apply Hun. lia.
      * destruct (Hdone p f bin o ltac:(lia) Hc Ho) as [Hh Hs].
        destruct (SelectHistogramNode_cases p (hessian tree)) as [H|H];
          rewrite H in Hh, Hs |- *; simpl in *;
          unfold LeftChild, RightChild in *;
          rewrite !Hsub', !Hscan' by lia; done.
Qed.

End SubtractSemantics.

(** ** The histogram of a node, summed over the launch *)

Section LaunchSums.
Context {DA : DoubleArith} {EL : ExactLaws DA}.

(** The contributions to [(bin, o)] of the selected rows of every shard,
    summed as [SumAllReduce] does. *)
Definition total (b : TreeBuilder) (context : TaskContext) (ps : list Z)
  (pps : list (list Z)) (sel : Z → bool) (bin o : Z) : GPair :=
  SumAllReduce_pair (rows_sum b (inputs context) ps sel bin o)
    (zip_with (λ s p, rows_sum b s p sel bin o) (peers context) pps).

(** The scanned histogram of the rows at node [n]: the prefix sums, within
    feature [f], of what those rows contribute. *)
Definition scanned_rows (b : TreeBuilder) (context : TaskContext)
  (ps : list Z) (pps : list (list Z)) (n f bin o : Z) : GPair :=
  gsum_range (fst (FeatureRange (tb_split_proposals b) f)) (bin + 1)
    (λ b', total b context ps pps (λ q, q =? n) b' o).

Lemma map_zip_with_apply {A B} (F : A → B → Histogram) xs ys (n bin o : Z) :
  map (λ r : Histogram, r n bin o) (zip_with F xs ys)
  = zip_with (λ x y, F x y n bin o) xs ys.
Proof.
  revert ys. induction xs as [|x xs IH]; intros [|y ys]; simpl; try done.
  by rewrite IH.
Qed.

(** The positions a row loop reads are those of the vector. *)
Lemma rows_sum_ext_on (b : TreeBuilder) (s : Shard) (ps : list Z)
  (P : Z → Prop) (sel sel' : Z → bool) (bin o : Z) :
  length ps = Z.to_nat (shard_rows s) → Forall P ps →
  (∀ q, P q → sel q = sel' q) →
  rows_sum b s ps sel bin o = rows_sum b s ps sel' bin o.
Proof.
  intros Hlen Hall Hext. unfold rows_sum. apply gsum_range_ext.
  intros i Hi. rewrite Hext; [done|].
  unfold shard_rows in Hlen.
  assert (∃ q, ps !! Z.to_nat (i - lo0 (shape (in_X s))) = Some q)
    as [q Hq] by (apply lookup_lt_is_Some; lia).
  unfold vec_at. rewrite (nth_lookup_Some _ _ _ _ Hq).
  by eapply (proj1 (Forall_lookup _ _) Hall).
Qed.

Lemma total_ext_on (b : TreeBuilder) (context : TaskContext) (ps : list Z)
  (pps : list (list Z)) (P : Z → Prop) (sel sel' : Z → bool) (bin o : Z) :
  length ps = Z.to_nat (shard_rows (inputs context)) → Forall P ps →
  Forall2 (λ s p, length p = Z.to_nat (shard_rows s) ∧ Forall P p)
    (peers context) pps →
  (∀ q, P q → sel q = sel' q) →
  total b context ps pps sel bin o = total b context ps pps sel' bin o.
Proof.
  intros Hlen Hall Hpeers Hext. unfold total. f_equal.
  - by apply (rows_sum_ext_on b _ ps P).
  - eapply zip_with_Forall2_ext; [|exact Hpeers].
    intros s p [Hl Ha]. by apply (rows_sum_ext_on b s p P).
Qed.

Lemma rows_sum_or (b : TreeBuilder) (s : Shard) (ps : list Z)
  (sel1 sel2 : Z → bool) (bin o : Z) :
  (∀ q, sel1 q && sel2 q = false) →
  rows_sum b s ps (λ q, sel1 q || sel2 q) bin o
  = gadd (rows_sum b s ps sel1 bin o) (rows_sum b s ps sel2 bin o).
Proof.
  intros Hdis. unfold rows_sum. rewrite <- gsum_range_add.
  apply gsum_range_ext. intros i _.
  specialize (Hdis (vec_at 0 ps (i - lo0 (shape (in_X s))))).
  destruct (sel1 _), (sel2 _); simpl in *;
    by rewrite ?gadd_zero_l, ?gadd_zero_r.
Qed.

Lemma total_or (b : TreeBuilder) (context : TaskContext) (ps : list Z)
  (pps : list (list Z)) (sel1 sel2 : Z → bool) (bin o : Z) :
  (∀ q, sel1 q && sel2 q = false) →
  total b context ps pps (λ q, sel1 q || sel2 q) bin o
  = gadd (total b context ps pps sel1 bin o)
         (total b context ps pps sel2 bin o).
Proof.
  intros Hdis. unfold total. rewrite !SumAllReduce_pair_foldl.
  rewrite <- foldl_gadd_zip_add. rewrite rows_sum_or by done. f_equal.
  revert pps. induction (peers context) as [|s ss IH]; intros [|p pps];
    simpl; try done.
  by rewrite rows_sum_or, IH.
Qed.

Lemma total_none (b : TreeBuilder) (context : TaskContext) (ps : list Z)
  (pps : list (list Z)) (bin o : Z) :
  total b context ps pps (λ _, false) bin o = gzero.
Proof.
  unfold total. rewrite SumAllReduce_pair_foldl, rows_sum_none.
  assert (zip_with (λ s p, rows_sum b s p (λ _, false) bin o)
            (peers context) pps
          = zip_with (λ _ _, gzero) (peers context) pps) as ->.
  { revert pps. induction (peers context) as [|s ss IH]; intros [|p pps];
      simpl; try done.
    by rewrite rows_sum_none, IH. }
  apply foldl_gadd_zip_zero.
Qed.

(** The histogram the specification compares with is the scanned histogram
    of the node's rows. *)
Lemma direct_histogram_spec (b : TreeBuilder) (context : TaskContext)
  (pps : list (list Z)) (node f bin o : Z) :
  builder_wf b → candidate b f bin → 0 ≤ o < num_outputs b →
  direct_histogram b context pps node bin o
  = scanned_rows b context (positions b) pps node f bin o.
Proof.
  intros Hwf Hc Ho. unfold direct_histogram, scanned_rows.
  destruct (scan_node_histogram_spec b node
    (λ n bin output,
       SumAllReduce_pair
         (node_rows_histogram b (inputs context) (positions b) node
            n bin output)
         (map (λ r : Histogram, r n bin output)
            (zip_with (λ s p, node_rows_histogram b s p node)
               (peers context) pps))) Hwf) as [Hscan _].
  rewrite (Hscan f) by done. clear Hscan.
  apply gsum_range_ext. intros b' _.
  unfold total. rewrite map_zip_with_apply, node_rows_histogram_spec.
  f_equal.
  - apply rows_sum_ext. intros q. by destruct (q =? node).
  - revert pps. induction (peers context) as [|s ss IH]; intros [|p pps];
      simpl; try done.
    rewrite node_rows_histogram_spec, IH. f_equal.
    apply rows_sum_ext. intros q. by destruct (q =? node).
Qed.

End LaunchSums.

(** ** What ComputeHistogram leaves in the buffer *)

Section ComputeHistogramSemantics.
Context {DA : DoubleArith} {EL : ExactLaws DA}.

Lemma Parent_children (p : Z) :
  0 ≤ p → Parent (LeftChild p) = p ∧ Parent (RightChild p) = p.
Proof.
  intros Hp. unfold Parent, LeftChild, RightChild.
  rewrite !Z.quot_div_nonneg by lia. split.
  - replace (2 * p + 1 - 1) with (p * 2) by lia. by rewrite Z.div_mul.
  - replace (2 * p + 2 - 1) with (1 + p * 2) by lia.
    rewrite Z.div_add by lia. done.
Qed.

(** At a depth below the root, the rows that are accumulated are those of
    the directly built child. *)
Lemma accumulated_children (depth p : Z) (tree : Tree) :
  1 ≤ depth → 0 ≤ p →
  let hn := (SelectHistogramNode p (hessian tree)).1 in
  let sn := (SelectHistogramNode p (hessian tree)).2 in
  accumulated depth tree hn = true ∧ accumulated depth tree sn = false.
Proof.
  intros Hd Hp hn sn. subst hn sn. unfold accumulated, ComputeHistogramBin.
  destruct (Z.eqb_spec depth 0); [lia|].
  destruct (Parent_children p Hp) as [HL HR].
  destruct (SelectHistogramNode_cases p (hessian tree)) as [H|H];
    rewrite H; simpl; rewrite ?HL, ?HR, H; simpl;
    unfold LeftChild, RightChild;
    repeat match goal with
           | |- context [?x <? ?y] => destruct (Z.ltb_spec x y); try lia
           | |- context [?x =? ?y] => destruct (Z.eqb_spec x y); try lia
           end; done.
Qed.

(** The positions held during level [depth], on every shard. *)
Definition level_positions (context : TaskContext) (depth : Z) (ps : list Z)
  (pps : list (list Z)) : Prop :=
  shard_positions_ok depth (inputs context) ps ∧
  Forall2 (shard_positions_ok depth) (peers context) pps.

Lemma level_positions_total_ext (b : TreeBuilder) (context : TaskContext)
  (depth : Z) (ps : list Z) (pps : list (list Z)) (sel sel' : Z → bool)
  (bin o : Z) :
  level_positions context depth ps pps →
  (∀ q, in_level depth q → sel q = sel' q) →
  total b context ps pps sel bin o = total b context ps pps sel' bin o.
Proof.
  intros [[Hlen Hall] Hpeers] Hext.
  by apply (total_ext_on b context ps pps (in_level depth)).
Qed.

Lemma ComputeHistogram_spec (b : TreeBuilder) (depth : Z)
  (context : TaskContext) (tree : Tree) (pps : list (list Z)) :
  builder_wf b → 0 ≤ depth →
  level_positions context depth (positions b) pps →
  (∀ n bin o, LevelBegin depth ≤ n → histogram_buffer b n bin o = gzero) →
  let hb := histogram_buffer b in
  let hb' := histogram_buffer (ComputeHistogram b depth context tree pps) in
  let scanned := scanned_rows b context (positions b) pps in
  (∀ n bin o, n < LevelBegin depth ∨ LevelBegin (depth + 1) ≤ n →
     hb' n bin o = hb n bin o) ∧
  (depth = 0 → ∀ f bin o, candidate b f bin → 0 ≤ o < num_outputs b →
     hb' 0 bin o = scanned 0 f bin o) ∧
  (1 ≤ depth → ∀ p f bin o,
     LevelBegin (depth - 1) ≤ p < LevelBegin depth →
     candidate b f bin → 0 ≤ o < num_outputs b →
     let hn := (SelectHistogramNode p (hessian tree)).1 in
     let sn := (SelectHistogramNode p (hessian tree)).2 in
     hb' hn bin o = scanned hn f bin o ∧
     hb' sn bin o = gsub (hb p bin o) (scanned hn f bin o)).
Proof.
  intros Hwf Hd Hpos Hzero hb hb' scanned. subst hb' scanned.
  unfold ComputeHistogram. fold hb.
  set (reduced := λ node bin output : Z, if in_level_slab _ _ _ _ _ then _ else _).
  pose proof (LevelBegin_end depth Hd) as Hend.
  pose proof (LevelBegin_nonneg depth Hd) as Hnn.
  pose proof (LevelBegin_succ depth Hd) as Hsucc.
  assert (∀ n q, n < LevelBegin depth ∨ LevelBegin (depth + 1) ≤ n →
            in_level depth q →
            accumulated depth tree q && (q =? n) = false) as Hout.
  { intros n q Hn [->|Hq]; [done|].
    destruct (Z.eqb_spec q n); [lia|]. by rewrite andb_false_r. }
  assert (∀ n bin o, n < LevelBegin depth ∨ LevelBegin (depth + 1) ≤ n →
            reduced n bin o = hb n bin o) as R1.
  { intros n bin o Hn.
    assert (build_histogram b depth tree (inputs context) (positions b) hb
              n bin o = hb n bin o) as Hlocal.
    { rewrite build_histogram_spec. destruct Hpos as [[Hlen Hall] _].
      rewrite (rows_sum_ext_on b _ _ (in_level depth) _ (λ _, false));
        [|done|done|].
      - by rewrite rows_sum_none, gadd_zero_r.
      - intros q Hq. by apply Hout. }
    unfold reduced, in_level_slab.
    destruct (Z.leb_spec (LevelBegin depth) n),
      (Z.ltb_spec n (LevelBegin depth + NodesInLevel depth));
      simpl; try lia; exact Hlocal. }
  assert (∀ n f bin o, LevelBegin depth ≤ n < LevelBegin (depth + 1) →
            candidate b f bin → 0 ≤ o < num_outputs b →
            reduced n bin o
            = total b context (positions b) pps
                (λ q, accumulated depth tree q && (q =? n)) bin o) as R2.
  { intros n f bin o Hn Hc Ho. unfold reduced, in_level_slab.
    pose proof (candidate_bin_bounds b f bin Hwf Hc) as Hb.
    destruct (Z.leb_spec (LevelBegin depth) n),
      (Z.ltb_spec n (LevelBegin depth + NodesInLevel depth)),
      (Z.leb_spec 0 bin),
      (Z.ltb_spec bin (histogram_size (tb_split_proposals b))),
      (Z.leb_spec 0 o), (Z.ltb_spec o (num_outputs b)); try lia. simpl.
    unfold total. rewrite map_zip_with_apply, build_histogram_spec.
    unfold hb. rewrite Hzero, gadd_zero_l by lia. f_equal.
    apply zip_with_ext; [|done|done]. intros s p.
    rewrite build_histogram_spec.
    by rewrite Hzero, gadd_zero_l by lia. }
  clearbody reduced.
  split; [|split].
  - intros n bin o Hn. unfold Scan.
    destruct (Z.eqb_spec depth 0) as [->|Hne].
    + cbn [histogram_buffer with_histogram].
      destruct (scan_node_histogram_spec (with_histogram b reduced) 0 reduced
                  Hwf) as [_ Hscan].
      change (LevelBegin 0) with 0 in Hn. change (LevelBegin (0 + 1)) with 1 in Hn.
      rewrite Hscan by lia. apply R1.
      change (LevelBegin 0) with 0. change (LevelBegin (0 + 1)) with 1. lia.
    + destruct (Scan_spec (with_histogram b reduced) depth tree Hwf
                  ltac:(lia)) as [HF _].
      unfold Scan in HF. destruct (Z.eqb_spec depth 0); [lia|].
      rewrite HF by done. by apply R1.
  - intros -> f bin o Hc Ho. unfold Scan. simpl.
    destruct (scan_node_histogram_spec (with_histogram b reduced) 0 reduced
                Hwf) as [Hscan _].
    rewrite (Hscan f) by done. unfold scanned_rows.
    apply gsum_range_ext. intros b' Hb'.
    rewrite (R2 0 f); [|done| |done].
    2:{ destruct Hc as [? ?]. split; [done|]. simpl in *. lia. }
    apply (level_positions_total_ext b context 0); [done|].
    intros q [->|Hq]; [done|].
    change (LevelBegin 0) with 0 in Hq. change (LevelBegin (0 + 1)) with 1 in Hq.
    by replace q with 0 by lia.
  - intros Hd1 p f bin o Hp Hc Ho.
    set (hn := (SelectHistogramNode p (hessian tree)).1).
    set (sn := (SelectHistogramNode p (hessian tree)).2).
    destruct (Scan_spec (with_histogram b reduced) depth tree Hwf Hd1)
      as [_ HV].
    specialize (HV p f bin o Hp Hc Ho). cbv zeta in HV.
    cbn [histogram_buffer with_histogram tb_split_proposals] in HV.
    fold hn sn in HV. destruct HV as [HVh HVs].
    pose proof (LevelBegin_succ (depth - 1) ltac:(lia)) as Hlb.
    replace (depth - 1 + 1) with depth in Hlb by lia.
    pose proof (LevelBegin_nonneg (depth - 1) ltac:(lia)) as Hnn'.
    destruct (accumulated_children depth p tree Hd1 ltac:(lia)) as [Hah _].
    fold hn in Hah.
    assert (LevelBegin depth ≤ hn < LevelBegin (depth + 1)) as Hhn.
    { subst hn. destruct (SelectHistogramNode_cases p (hessian tree)) as [H|H];
        rewrite H; simpl; unfold LeftChild, RightChild; lia. }
    assert (gsum_range (fst (FeatureRange (tb_split_proposals b) f)) (bin + 1)
              (λ b', reduced hn b' o)
            = scanned_rows b context (positions b) pps hn f bin o) as Hsc.
    { unfold scanned_rows. apply gsum_range_ext. intros b' Hb'.
      rewrite (R2 hn f); [|done| |done].
      2:{ destruct Hc as [? ?]. split; [done|]. simpl in *. lia. }
      apply (level_positions_total_ext b context depth); [done|].
      intros q _. destruct (Z.eqb_spec q hn) as [->|?];
        [by rewrite Hah|by rewrite andb_false_r]. }
    split.
    + rewrite HVh. exact Hsc.
    + rewrite HVs, Hsc. f_equal. apply R1. lia.
Qed.

End ComputeHistogramSemantics.

(** ** Nodes that are split have rows *)

(** Zero minus a positive number is not positive.  IEEE doubles and the
    rationals both satisfy it (instances [ieee_negation] and
    [exact_negation]). *)
Class NegationLaws (DA : DoubleArith) : Prop := {
  positive_negation :
    ∀ x, dzero <! x = true → dzero <! (dzero -! x) = true → False
}.

Section ExactNegation.
Context {DA : DoubleArith} {DL : DoubleLaws DA} {EL : ExactLaws DA}.

Add Ring double_ring_live : exact_ring.

Lemma positive_negation_exact (x : double) :
  dzero <! x = true → dzero <! (dzero -! x) = true → False.
Proof.
  intros Hx Hnx.
  destruct (exact_leb_total x dzero) as [Hle|Hle].
  - apply leb_not_gt in Hle. congruence.
  - apply (exact_leb_add _ _ (dzero -! x)) in Hle.
    replace (dzero +! (dzero -! x)) with (dzero -! x) in Hle by ring.
    replace (x +! (dzero -! x)) with dzero in Hle by ring.
    apply leb_not_gt in Hle. congruence.
Qed.

#[export] Instance exact_negation : NegationLaws DA.
Proof. constructor. exact positive_negation_exact. Qed.

End ExactNegation.

#[export] Instance ieee_negation : NegationLaws ieee.
Proof.
  constructor. intros x. simpl. rewrite !ieee_ltb_iff.
  rewrite FloatAxioms.sub_spec.
  change (Prim2SF 0%float) with (S754_zero false).
  destruct (Prim2SF x) as [s|s| |s m e]; simpl; try done; by destruct s.
Qed.

Section LiveNodes.
Context {DA : DoubleArith} {DL : DoubleLaws DA} {NL : NegationLaws DA}.

Lemma positive_negation_absurd (x : double) :
  dzero <! x = true → dzero <! (dzero -! x) = true → False.
Proof. apply positive_negation. Qed.

(** A node that holds rows: the root, or a child of a node that was split. *)
Definition live (t : Tree) (n : Z) : Prop :=
  n = 0 ∨ (0 < n ∧ internal t (Parent n)).

(** The tree while it grows: its vectors hold the nodes below [cap]; a node
    that was split is live; a node whose parent was not split has the
    hessian the constructor gave it. *)
Definition tree_inv (cap : Z) (t : Tree) : Prop :=
  cap ≤ Z.of_nat (length (feature t)) ∧
  (∀ n, internal t n → live t n) ∧
  (∀ n, 0 < n → ¬ internal t (Parent n) → hessian t n 0 = dzero).

Lemma internal_IsLeaf (t : Tree) (n : Z) : internal t n → IsLeaf t n = false.
Proof.
  intros [Hn (f & Hf & Hne)]. unfold IsLeaf, vec_at.
  rewrite (nth_lookup_Some _ _ _ _ Hf). by apply Z.eqb_neq.
Qed.

Lemma internal_or_not (t : Tree) (n : Z) : internal t n ∨ ¬ internal t n.
Proof.
  unfold internal. destruct (decide (0 ≤ n)) as [Hn|Hn]; [|right; tauto].
  destruct (feature t !! Z.to_nat n) as [f|] eqn:Hf.
  - destruct (decide (f = -1)) as [->|?].
    + right. intros (_ & f' & Heq & Hne). congruence.
    + left. eauto.
  - right. intros (_ & f' & Heq & _). done.
Qed.

Lemma split_node_tree_inv (b : TreeBuilder) (a : double) (m cap : Z)
  (t : Tree) :
  0 ≤ m < cap → 0 < num_outputs b → tree_inv cap t →
  let t' := split_node b a m t in
  tree_inv cap t' ∧
  (∀ n, internal t n → internal t' n) ∧
  (∀ n, internal t' n → internal t n ∨ n = m).
Proof.
  intros Hm Hno (Hcap & Hlive & Hzero) t'. subst t'.
  destruct (split_node_cases b a m t) as [->|(Hgain & HhL & HhR & ->)].
  { split; [by split|]. split; auto. }
  rewrite !vec_at_map_seqZ in HhL, HhR by lia.
  destruct (applied_split_facts b a m t Hno Hgain HhL HhR)
    as ([Hbf _] & HposL & HposR).
  set (best := find_best_split b t a m) in *.
  match goal with
  | |- context [AddSplit ?t ?n ?f ?sv ?ll ?rl ?gn ?gl ?gr ?hl ?hr] =>
      pose proof (AddSplit_spec t n f sv ll rl gn gl gr hl hr) as Hspec;
      set (t' := AddSplit t n f sv ll rl gn gl gr hl hr) in *
  end.
  cbv zeta in Hspec. destruct Hspec as (Hf & _ & _ & Hhe & _ & _).
  assert (∀ n, internal t n → internal t' n) as Hmono.
  { intros n [Hn (f & Hfn & Hne)]. split; [done|]. rewrite Hf.
    unfold vec_set. destruct (decide (n = m)) as [->|Hnm].
    - exists (best_feature best). split; [|lia].
      apply list_lookup_insert_eq. by eapply lookup_lt_Some.
    - exists f. split; [|done]. rewrite list_lookup_insert_ne by lia. done. }
  assert (∀ n, internal t' n → internal t n ∨ n = m) as Hnew.
  { intros n [Hn (f & Hfn & Hne)].
    destruct (decide (n = m)) as [->|Hnm]; [by right|left].
    rewrite Hf in Hfn. unfold vec_set in Hfn.
    rewrite list_lookup_insert_ne in Hfn by lia. split; eauto. }
  assert (live t m) as Hlm.
  { destruct (decide (m = 0)) as [->|Hm0]; [by left|]. right.
    split; [lia|].
    destruct (internal_or_not t (Parent m)) as [?|Hni]; [done|].
    exfalso. cbv zeta in HposL, HposR.
    rewrite (Hzero m ltac:(lia) Hni) in HposR.
    exact (positive_negation_absurd _ HposL HposR). }
  split; [|by split]. split; [|split].
  - rewrite Hf, length_vec_set. done.
  - intros n Hn. destruct (Hnew n Hn) as [Hold| ->].
    + destruct (Hlive n Hold) as [->|[? ?]]; [by left|right]. split; auto.
    + destruct Hlm as [->|[? ?]]; [by left|right]. split; auto.
  - intros n Hn Hni. rewrite Hhe.
    assert (Parent n ≠ m) as Hpm.
    { intros Heq. apply Hni. rewrite Heq. split; [lia|].
      exists (best_feature best). rewrite Hf. split; [|lia].
      apply list_lookup_insert_eq. lia. }
    destruct (Parent_children m ltac:(lia)) as [HL HR].
    destruct (Z.eqb_spec n (LeftChild m)) as [->|?]; [congruence|].
    destruct (Z.eqb_spec n (RightChild m)) as [->|?]; [congruence|].
    simpl. apply Hzero; [done|]. intros Hi. by apply Hni, Hmono.
Qed.

Lemma PerformBestSplit_tree_inv (b : TreeBuilder) (depth cap : Z) (t : Tree)
  (a : double) :
  0 ≤ depth → LevelBegin (depth + 1) ≤ cap → 0 < num_outputs b →
  tree_inv cap t →
  let t' := PerformBestSplit b depth t a in
  tree_inv cap t' ∧
  (∀ n, internal t n → internal t' n) ∧
  (∀ n, internal t' n →
        internal t n ∨ LevelBegin depth ≤ n < LevelBegin (depth + 1)).
Proof.
  intros Hd Hcap Hno Hinv t'. subst t'. unfold PerformBestSplit.
  pose proof (LevelBegin_nonneg depth Hd) as Hnn.
  pose proof (LevelBegin_succ depth Hd) as Hsucc.
  apply (for_range_invariant
    (λ _ t', tree_inv cap t' ∧
       (∀ n, internal t n → internal t' n) ∧
       (∀ n, internal t' n →
             internal t n ∨ LevelBegin depth ≤ n < LevelBegin (depth + 1))));
    [lia|by split; [|split; auto]|].
  intros m t' Hm (Hinv' & Hmono & Hnew).
  destruct (split_node_tree_inv b a m cap t' ltac:(lia) Hno Hinv')
    as (Hinv'' & Hmono' & Hnew').
  split; [done|]. split.
  - intros n Hn. by apply Hmono', Hmono.
  - intros n Hn. destruct (Hnew' n Hn) as [Hold| ->]; [by apply Hnew|].
    right. lia.
Qed.

End LiveNodes.

(** ** Sibling subtraction along the level loop *)

Section SiblingSubtraction.
Context {DA : DoubleArith} {DL : DoubleLaws DA} {EL : ExactLaws DA}.

Lemma child_of_parent (c : Z) :
  0 < c → c = LeftChild (Parent c) ∨ c = RightChild (Parent c).
Proof.
  intros Hc. unfold Parent, LeftChild, RightChild.
  rewrite Z.quot_div_nonneg by lia.
  pose proof (Z.div_mod (c - 1) 2 ltac:(lia)).
  pose proof (Z.mod_pos_bound (c - 1) 2 ltac:(lia)). lia.
Qed.

Lemma Parent_level (d c : Z) :
  1 ≤ d → LevelBegin d ≤ c < LevelBegin (d + 1) →
  0 < c ∧ LevelBegin (d - 1) ≤ Parent c < LevelBegin d.
Proof.
  intros Hd Hc.
  pose proof (LevelBegin_succ (d - 1) ltac:(lia)) as H1.
  replace (d - 1 + 1) with d in H1 by lia.
  pose proof (LevelBegin_succ d ltac:(lia)) as H2.
  pose proof (LevelBegin_nonneg (d - 1) ltac:(lia)) as H0.
  split; [lia|].
  destruct (child_of_parent c ltac:(lia)) as [Heq|Heq];
    unfold LeftChild, RightChild in Heq; lia.
Qed.

(** The rows that are at a child of [p] after [UpdatePositions] are the
    rows that were at [p]. *)
Lemma rows_sum_children (b : TreeBuilder) (s : Shard) (ps : list Z)
  (depth : Z) (t : Tree) (p bin o : Z) :
  depth ≠ 0 → length ps = Z.to_nat (shard_rows s) → internal t p →
  rows_sum b s (UpdatePositions depth t (in_X s) ps)
    (λ q, (q =? LeftChild p) || (q =? RightChild p)) bin o
  = rows_sum b s ps (λ q, q =? p) bin o.
Proof.
  intros Hd Hlen Hint. unfold rows_sum. apply gsum_range_ext. intros i Hi.
  unfold shard_rows in Hlen.
  assert (∃ q, ps !! Z.to_nat (i - lo0 (shape (in_X s))) = Some q)
    as [q Hq] by (apply lookup_lt_is_Some; lia).
  pose proof (UpdatePositions_lookup depth t (in_X s) ps
                (Z.to_nat (i - lo0 (shape (in_X s)))) Hd) as Hnew.
  rewrite Hq in Hnew. simpl in Hnew.
  destruct (Z.ltb_spec (Z.of_nat (Z.to_nat (i - lo0 (shape (in_X s)))))
              (hi0 (shape (in_X s)) - lo0 (shape (in_X s)) + 1)); [|lia].
  replace (lo0 (shape (in_X s)) + Z.of_nat (Z.to_nat (i - lo0 (shape (in_X s)))))
    with i in Hnew by lia.
  unfold vec_at. rewrite (nth_lookup_Some _ _ _ _ Hq),
    (nth_lookup_Some _ _ _ _ Hnew).
  assert ((next_position t (in_X s) i q =? LeftChild p)
          || (next_position t (in_X s) i q =? RightChild p) = (q =? p)) as ->;
    [|done].
  destruct Hint as [Hp Hint'].
  pose proof (internal_IsLeaf t p (conj Hp Hint')) as Hleaf.
  destruct (Z.eqb_spec q p) as [->|Hne].
  - unfold next_position. rewrite Hleaf.
    destruct (Z.ltb_spec p 0); [lia|]. simpl.
    destruct (_ <=! _); rewrite Z.eqb_refl; by rewrite ?orb_true_r.
  - destruct (next_position_cases t (in_X s) i q)
      as [->|(Hq0 & _ & [-> | ->])];
      unfold LeftChild, RightChild;
      repeat match goal with
             | |- context [?x =? ?y] => destruct (Z.eqb_spec x y); try lia
             end; done.
Qed.

Lemma total_children (b : TreeBuilder) (context : TaskContext) (ps : list Z)
  (pps : list (list Z)) (depth k : Z) (t : Tree) (p bin o : Z) :
  depth ≠ 0 → level_positions context k ps pps → internal t p →
  let ps' := UpdatePositions depth t (in_X (inputs context)) ps in
  let pps' := zip_with (λ s pp, UpdatePositions depth t (in_X s) pp)
                (peers context) pps in
  gadd (total b context ps' pps' (λ q, q =? LeftChild p) bin o)
       (total b context ps' pps' (λ q, q =? RightChild p) bin o)
  = total b context ps pps (λ q, q =? p) bin o.
Proof.
  intros Hd [[Hlen _] Hpeers] Hint ps' pps'. subst ps' pps'.
  rewrite <- total_or.
  2:{ intros q. unfold LeftChild, RightChild.
      destruct (Z.eqb_spec q (2 * p + 1)), (Z.eqb_spec q (2 * p + 2));
        simpl; try done; lia. }
  unfold total. f_equal; [by apply rows_sum_children|].
  induction Hpeers as [|s pp ss pps [Hl _] _ IH]; simpl; [done|].
  by rewrite rows_sum_children, IH.
Qed.

Lemma total_same_constants (b b' : TreeBuilder) (context : TaskContext)
  (ps : list Z) (pps : list (list Z)) (sel : Z → bool) (bin o : Z) :
  same_constants b b' →
  total b' context ps pps sel bin o = total b context ps pps sel bin o.
Proof.
  destruct b, b'. unfold same_constants. simpl.
  intros (-> & -> & -> & -> & ->). reflexivity.
Qed.

Lemma candidate_same_constants (b b' : TreeBuilder) (f bin : Z) :
  same_constants b b' → candidate b' f bin ↔ candidate b f bin.
Proof.
  destruct b, b'. unfold same_constants. simpl.
  intros (-> & -> & -> & -> & ->). reflexivity.
Qed.

Lemma builder_wf_same_constants (b b' : TreeBuilder) :
  same_constants b b' → builder_wf b → builder_wf b'.
Proof.
  intros (_ & Hf & _ & _ & Hsp) [Hwf Hn]. unfold builder_wf.
  rewrite Hsp, Hf. done.
Qed.

(** The state of the histogram buffer when [UpdatePositions(d)] has run:
    the tree invariant; every split node of the level above holds the
    scanned histogram of the rows now at its two children; the levels from
    [d] on are still zero. *)
Definition hist_inv (context : TaskContext) (cap d : Z) (st : LevelState)
  : Prop :=
  let t := ls_tree st in
  let b := ls_builder st in
  let tot := total b context (positions b) (ls_peer_positions st) in
  tree_inv cap t ∧
  (∀ p f bin o,
     LevelBegin (d - 1) ≤ p < LevelBegin d → internal t p →
     candidate b f bin → 0 ≤ o < num_outputs b →
     histogram_buffer b p bin o
     = gsum_range (fst (FeatureRange (tb_split_proposals b) f)) (bin + 1)
         (λ b', gadd (tot (λ q, q =? LeftChild p) b' o)
                     (tot (λ q, q =? RightChild p) b' o))) ∧
  (∀ n bin o, LevelBegin d ≤ n → histogram_buffer b n bin o = gzero).

(** After [ComputeHistogram(d)], every live node of level [d] holds the
    scanned histogram of its own rows. *)
Lemma children_histograms (context : TaskContext) (cap d : Z)
  (st : LevelState) :
  let t := ls_tree st in
  let b := ls_builder st in
  let pps := ls_peer_positions st in
  let b' := ComputeHistogram b d context t pps in
  builder_wf b → 0 ≤ d → positions_ok context d st →
  hist_inv context cap d st →
  ∀ c f bin o,
    LevelBegin d ≤ c < LevelBegin (d + 1) → live t c →
    candidate b f bin → 0 ≤ o < num_outputs b →
    histogram_buffer b' c bin o
    = scanned_rows b context (positions b) pps c f bin o.
Proof.
  intros t b pps b' Hwf Hd Hpos (Htree & Hpar & Hzero) c f bin o Hc Hlive
    Hcand Ho.
  destruct (ComputeHistogram_spec b d context t pps Hwf Hd Hpos Hzero)
    as (_ & H0 & H1).
  destruct (decide (d = 0)) as [->|Hd0].
  - change (LevelBegin 0) with 0 in Hc. change (LevelBegin (0 + 1)) with 1 in Hc.
    replace c with 0 by lia. by apply H0.
  - destruct (Parent_level d c ltac:(lia) Hc) as [Hc0 Hp].
    destruct Hlive as [->|[_ Hint]]; [lia|].
    specialize (H1 ltac:(lia) (Parent c) f bin o Hp Hcand Ho).
    cbv zeta in H1. destruct H1 as [Hh Hs].
    pose proof (Hpar (Parent c) f bin o Hp Hint Hcand Ho) as Hparent.
    fold b pps in Hparent. rewrite gsum_range_add in Hparent.
    fold (scanned_rows b context (positions b) pps (LeftChild (Parent c))
            f bin o) in Hparent.
    fold (scanned_rows b context (positions b) pps (RightChild (Parent c))
            f bin o) in Hparent.
    rewrite Hparent in Hs.
    pose proof (child_of_parent c Hc0) as Hchild.
    remember (Parent c) as p eqn:Hpc. clear Hpc.
    destruct (SelectHistogramNode_cases p (hessian t)) as [Hsel|Hsel];
      rewrite Hsel in Hh, Hs; simpl in Hh, Hs;
      destruct Hchild as [-> | ->].
    + exact Hh.
    + etransitivity; [exact Hs|]. apply gsub_add_l.
    + etransitivity; [exact Hs|]. apply gsub_add_r.
    + exact Hh.
Qed.

Lemma with_positions_constants (b : TreeBuilder) (ps : list Z) :
  same_constants b (with_positions b ps).
Proof. by repeat split. Qed.

Lemma ComputeHistogram_positions (b : TreeBuilder) (depth : Z)
  (context : TaskContext) (tree : Tree) (pp : list (list Z)) :
  positions (ComputeHistogram b depth context tree pp) = positions b.
Proof. unfold ComputeHistogram, Scan. by destruct (depth =? 0). Qed.

Lemma update_step_constants (context : TaskContext) (d : Z) :
  same_constants (ls_builder (initial_state context))
    (ls_builder (update_step context d (level_state context d))).
Proof.
  eapply same_constants_trans; [apply (level_state_constants context d)|].
  apply with_positions_constants.
Qed.

Lemma hist_inv_initial (context : TaskContext) (cap : Z) :
  cap ≤ max_nodes (scalars context) →
  hist_inv context cap 0 (update_step context 0 (level_state context 0)).
Proof.
  intros Hcap. unfold level_state. rewrite for_range_empty by lia.
  pose proof (initial_tree_leaves context) as Hleaves.
  unfold hist_inv.
  change (ls_tree (update_step context 0 (initial_state context)))
    with (ls_tree (initial_state context)).
  split; [|split].
  - split; [|split].
    + pose proof (InitialiseRoot_spec (ls_builder (initial_state context))
        context
        (Tree_new (max_nodes (scalars context))
           (num_outputs (ls_builder (initial_state context))))
        (alpha (scalars context))) as (Hf & _).
      change (feature (ls_tree (initial_state context)))
        with (feature (InitialiseRoot (ls_builder (initial_state context))
          context
          (Tree_new (max_nodes (scalars context))
             (num_outputs (ls_builder (initial_state context))))
          (alpha (scalars context)))).
      rewrite Hf. simpl. rewrite length_replicate. lia.
    + intros n Hn. by destruct (Hleaves n).
    + intros n Hn _.
      pose proof (InitialiseRoot_spec (ls_builder (initial_state context))
        context
        (Tree_new (max_nodes (scalars context))
           (num_outputs (ls_builder (initial_state context))))
        (alpha (scalars context))) as (_ & _ & _ & _ & Hh & _).
      change (hessian (ls_tree (initial_state context)) n 0)
        with (hessian (InitialiseRoot (ls_builder (initial_state context))
          context
          (Tree_new (max_nodes (scalars context))
             (num_outputs (ls_builder (initial_state context))))
          (alpha (scalars context))) n 0).
      rewrite Hh. destruct (Z.eqb_spec n 0); [lia|]. reflexivity.
  - intros p f bin o _ Hint. by destruct (Hleaves p).
  - intros n bin o _. reflexivity.
Qed.

Lemma hist_inv_step (context : TaskContext) (cap : Z) (d : nat) :
  let b0 := ls_builder (initial_state context) in
  builder_wf b0 → 0 < num_outputs b0 →
  LevelBegin (Z.of_nat d + 1) ≤ cap →
  hist_inv context cap (Z.of_nat d)
    (update_step context (Z.of_nat d) (level_state context (Z.of_nat d))) →
  hist_inv context cap (Z.of_nat d + 1)
    (update_step context (Z.of_nat d + 1)
       (level_state context (Z.of_nat d + 1))).
Proof.
  intros b0 Hwf0 Hout0 Hcap Hinv.
  pose proof (positions_ok_after_update context d) as Hpos.
  pose proof (update_step_constants context (Z.of_nat d)) as Hconst.
  rewrite level_state_succ by lia.
  set (st := update_step context (Z.of_nat d)
               (level_state context (Z.of_nat d))) in *.
  set (t := ls_tree st). set (b := ls_builder st) in *.
  set (pps := ls_peer_positions st).
  set (b' := ComputeHistogram b (Z.of_nat d) context t pps).
  set (t' := PerformBestSplit b' (Z.of_nat d) t (alpha (scalars context))).
  fold b0 in Hconst.
  assert (builder_wf b) as Hwf by by eapply builder_wf_same_constants.
  assert (same_constants b b') as Hconst'
    by apply ComputeHistogram_constants.
  pose proof (children_histograms context cap (Z.of_nat d) st Hwf
                ltac:(lia) Hpos Hinv) as Hchildren.
  destruct Hinv as (Htree & Hpar & Hzero). fold t b pps in Htree, Hpar, Hzero.
  fold t b pps b' in Hchildren.
  destruct (ComputeHistogram_spec b (Z.of_nat d) context t pps Hwf
              ltac:(lia) Hpos Hzero) as (Hframe & _ & _).
  fold b' in Hframe.
  assert (0 < num_outputs b') as Hout'.
  { destruct Hconst as (_ & _ & Ho & _), Hconst' as (_ & _ & Ho' & _).
    rewrite Ho', Ho. exact Hout0. }
  destruct (PerformBestSplit_tree_inv b' (Z.of_nat d) cap t
              (alpha (scalars context)) ltac:(lia) Hcap Hout' Htree)
    as (Htree' & Hmono & Hnew).
  fold t' in Htree', Hmono, Hnew.
  set (ps' := UpdatePositions (Z.of_nat d + 1) t' (in_X (inputs context))
                (positions b')).
  set (pps' := zip_with (λ s p, UpdatePositions (Z.of_nat d + 1) t' (in_X s) p)
                 (peers context) pps).
  unfold hist_inv.
  change (ls_tree (update_step context (Z.of_nat d + 1)
                     (split_step context (Z.of_nat d) st))) with t'.
  change (ls_builder (update_step context (Z.of_nat d + 1)
                        (split_step context (Z.of_nat d) st)))
    with (with_positions b' ps').
  change (ls_peer_positions (update_step context (Z.of_nat d + 1)
                               (split_step context (Z.of_nat d) st)))
    with pps'.
  assert (same_constants b (with_positions b' ps')) as Hconst''.
  { eapply same_constants_trans; [exact Hconst'|].
    apply with_positions_constants. }
  split; [exact Htree'|]. split.
  - intros p f bin o Hp Hint Hcand Ho.
    replace (Z.of_nat d + 1 - 1) with (Z.of_nat d) in Hp by lia.
    apply (candidate_same_constants _ _ _ _ Hconst'') in Hcand.
    assert (0 ≤ o < num_outputs b) as Ho'.
    { destruct Hconst'' as (_ & _ & Hno & _). by rewrite <- Hno. }
    assert (live t p) as Hlive.
    { destruct Htree' as (_ & Hl & _).
      destruct (Hl p Hint) as [->|[Hp0 Hpi]]; [by left|]. right.
      split; [done|].
      destruct (Hnew _ Hpi) as [Hold|Hlev]; [done|].
      destruct (decide (Z.of_nat d = 0)) as [Hd|Hd].
      - rewrite Hd in Hp. change (LevelBegin (0 + 1)) with 1 in Hp. lia.
      - destruct (Parent_level (Z.of_nat d) p ltac:(lia) Hp). lia. }
    change (histogram_buffer (with_positions b' ps')) with (histogram_buffer b').
    change (positions (with_positions b' ps')) with ps'.
    rewrite (Hchildren p f bin o Hp Hlive Hcand Ho').
    unfold scanned_rows.
    pose proof Hconst'' as (_ & _ & _ & _ & Hsp).
    rewrite Hsp. apply gsum_range_ext. intros i _.
    rewrite !(total_same_constants b (with_positions b' ps'))
      by (eapply same_constants_trans;
          [exact Hconst'|apply with_positions_constants]).
    symmetry. subst ps'. unfold b'. rewrite ComputeHistogram_positions.
    apply total_children with (k := Z.of_nat d); [lia|exact Hpos|exact Hint].
  - intros n bin o Hn.
    change (histogram_buffer (with_positions b' ps')) with (histogram_buffer b').
    pose proof (LevelBegin_succ (Z.of_nat d) ltac:(lia)).
    pose proof (LevelBegin_nonneg (Z.of_nat d) ltac:(lia)).
    rewrite Hframe by (right; lia). apply Hzero. lia.
Qed.

Lemma hist_inv_level (context : TaskContext) (cap : Z) (d : nat) :
  let b0 := ls_builder (initial_state context) in
  builder_wf b0 → 0 < num_outputs b0 →
  cap ≤ max_nodes (scalars context) →
  LevelBegin (Z.of_nat d) ≤ cap →
  hist_inv context cap (Z.of_nat d)
    (update_step context (Z.of_nat d) (level_state context (Z.of_nat d))).
Proof.
  intros b0 Hwf Hout Hcap. induction d as [|d IH]; intros Hd.
  - by apply hist_inv_initial.
  - replace (Z.of_nat (S d)) with (Z.of_nat d + 1) in * by lia.
    apply hist_inv_step; try done.
    apply IH. pose proof (LevelBegin_succ (Z.of_nat d) ltac:(lia)).
    pose proof (LevelBegin_nonneg (Z.of_nat d) ltac:(lia)). lia.
Qed.

End SiblingSubtraction.

(** ** The sibling's histogram *)

Section SiblingHistogram.
Context {DA : DoubleArith} {DL : DoubleLaws DA} {EL : ExactLaws DA}.

(** C2, in arithmetic without rounding.  Take the level loop at a depth
    [d ≥ 1], after [UpdatePositions(d)], and a node [p] of level [d - 1]
    that was split.  [ComputeHistogram(d)] builds one child [hn] of [p]
    from its rows and scans it, and gives the other child [sn] the
    parent's scanned histogram minus the scanned histogram of [hn].  For
    every bin of every feature and every output, what [sn] receives is the
    histogram obtained by accumulating the rows of [sn] on all shards,
    reducing and prefix-summing.  The arithmetic is that of a ring without
    rounding ([ExactLaws]). *)
Theorem sibling_histogram_exact (context : TaskContext) (d p f bin o : Z) :
  let own := inputs context in
  let sc := scalars context in
  let nf := hi1 (shape (in_X own)) - lo1 (shape (in_X own)) + 1 in
  let st := update_step context d (level_state context d) in
  let tree := ls_tree st in
  let b := ls_builder st in
  let pps := ls_peer_positions st in
  let b' := ComputeHistogram b d context tree pps in
  let hn := fst (SelectHistogramNode p (hessian tree)) in
  let sn := snd (SelectHistogramNode p (hessian tree)) in
  0 ≤ nf → nf * Z.max (split_samples sc) 0 < 2 ^ 31 →
  lo2 (shape (in_g own)) ≤ hi2 (shape (in_g own)) →
  LevelBegin d ≤ max_nodes sc →
  1 ≤ d → LevelBegin (d - 1) ≤ p < LevelBegin d → internal tree p →
  candidate b f bin → 0 ≤ o < num_outputs b →
  histogram_buffer b' sn bin o
  = gsub (histogram_buffer b p bin o) (histogram_buffer b' hn bin o) ∧
  histogram_buffer b' sn bin o = direct_histogram b context pps sn bin o.
Proof.
  intros own sc nf st tree b pps b' hn sn Hnf Hbound Hout Hcap Hd Hp Hint
    Hcand Ho.
  assert (builder_wf (ls_builder (initial_state context))) as Hwf0.
  { destruct (SelectSplitSamples_spec context (in_X own) (split_samples sc)
                (seed sc) (dataset_rows sc) Hnf Hbound) as (Hn & Hwf & _).
    split; [exact Hwf|exact Hn]. }
  assert (0 < num_outputs (ls_builder (initial_state context))) as Hout0.
  { simpl. fold own. lia. }
  assert (builder_wf b) as Hwf.
  { eapply builder_wf_same_constants; [|exact Hwf0].
    apply update_step_constants. }
  pose proof (positions_ok_after_update context (Z.to_nat d)) as Hpos.
  pose proof (hist_inv_level context (LevelBegin d) (Z.to_nat d) Hwf0 Hout0
                Hcap) as Hinv.
  rewrite Z2Nat.id in Hpos, Hinv by lia.
  specialize (Hinv ltac:(lia)). fold st in Hpos, Hinv.
  pose proof (children_histograms context (LevelBegin d) d st Hwf
                ltac:(lia) Hpos Hinv) as Hchildren.
  fold tree b pps b' in Hchildren.
  destruct Hinv as (_ & _ & Hzero). fold b in Hzero.
  destruct (ComputeHistogram_spec b d context tree pps Hwf ltac:(lia) Hpos
              Hzero) as (_ & _ & Hsub).
  destruct (Hsub Hd p f bin o Hp Hcand Ho) as [Hh Hs].
  fold b' hn sn in Hh, Hs.
  pose proof (LevelBegin_succ (d - 1) ltac:(lia)) as H1.
  replace (d - 1 + 1) with d in H1 by lia.
  pose proof (LevelBegin_succ d ltac:(lia)) as H2.
  pose proof (LevelBegin_nonneg (d - 1) ltac:(lia)) as H0.
  destruct (Parent_children p ltac:(lia)) as [HpL HpR].
  split; [by rewrite Hh|].
  rewrite (direct_histogram_spec b context pps sn f bin o Hwf Hcand Ho).
  apply Hchildren; [| |done|done].
  - subst sn.
    destruct (SelectHistogramNode_cases p (hessian tree)) as [-> | ->];
      simpl; unfold LeftChild, RightChild; lia.
  - right. subst sn.
    destruct (SelectHistogramNode_cases p (hessian tree)) as [-> | ->];
      simpl; rewrite ?HpL, ?HpR; (split; [|done]);
      unfold LeftChild, RightChild; lia.
Qed.

End SiblingHistogram.

(** ** The rows a launch samples *)

(** The standard library is not part of the sources; what follows is
    libstdc++.  [std::default_random_engine] is [std::minstd_rand0]: the
    engine keeps a state in [1, 2^31 - 2], which is the seed (an [int]
    converted to a 64-bit unsigned integer) modulo [2^31 - 1], or 1 when
    that is 0; a call multiplies the state by 16807 modulo [2^31 - 1] and
    returns it. *)
Module minstd_rand0.

Definition modulus : Z := 2 ^ 31 - 1.

Definition seeded (s : Z) : Z :=
  let x := (s mod 2 ^ 64) mod modulus in
  if x =? 0 then 1 else x.

Definition next (x : Z) : Z := (16807 * x) mod modulus.

End minstd_rand0.

(** [dist(eng)] for [std::uniform_int_distribution<int64_t> dist(0, b)] with
    [b < 2^31 - 3], where the range of the engine, [2^31 - 3], is scaled
    down: the engine's value less 1 is divided by [scaling], and a value
    from [past] on is drawn again.  [fuel] bounds the values taken from the
    engine; the result is the number drawn and the state of the engine. *)
Fixpoint uniform_int_distribution (fuel : nat) (b x : Z) : option (Z * Z) :=
  match fuel with
  | O => None
  | S fuel' =>
      let uerange := b + 1 in
      let scaling := (2 ^ 31 - 3) / uerange in
      let past := uerange * scaling in
      let x' := minstd_rand0.next x in
      let ret := x' - 1 in
      if ret <? past then Some (ret / scaling, x')
      else uniform_int_distribution fuel' b x'
  end.

(** The [row_samples] of [SelectSplitSamples]: [std::transform] draws them
    in order from the one engine. *)
Fixpoint row_samples (fuel : nat) (split_samples : nat) (b x : Z)
  : option (list Z) :=
  match split_samples with
  | O => Some []
  | S n =>
      match uniform_int_distribution fuel b x with
      | Some (row, x') => cons row <$> row_samples fuel n b x'
      | None => None
      end
  end.

(** A launch of one shard, three rows with x = 0, 1, 2, g = 1, 1, -2 and
    h = 0.1, 0.2, 0.3 (the doubles nearest to them), [max_depth = 2],
    [max_nodes = 7], three samples of the three rows, and the seed 5, for
    which the engine draws the rows 0, 1 and 2. *)
Definition rounding_context : TaskContext :=
  mkContext
    (@Scenario.shard ieee [0; 1; 2]%float [1; 1; -2]%float
       [0x1.999999999999ap-4; 0x1.999999999999ap-3; 0x1.3333333333333p-2]%float)
    (@mkScalars ieee 2 7 0%float 3 5 3) []
    (vec_at 0 (default [] (row_samples 4 3 (3 - 1) (minstd_rand0.seeded 5)))).

(** C2 as stated does not hold of the doubles the code computes with.  The
    samples are the rows 0, 1 and 2, so the thresholds are 0, 1 and 2.  At
    depth 1 the root has been split; rows 0 and 1 are at node 1 and row 2 is
    at node 2.  Node 2 is built from its row, node 1 is derived.  At the
    last bin the parent holds (0.1 + 0.2) + 0.3 = 0.6000000000000001, and
    node 1 receives 0.6000000000000001 - 0.3 = 0.3000000000000001, while
    its own rows sum to 0.1 + 0.2 = 0.30000000000000004.  Deriving node 2
    from node 1 instead would not agree either:
    0.6000000000000001 - 0.30000000000000004 is not the 0.3 of row 2. *)
Lemma sibling_histogram_rounds :
  let c := rounding_context in
  let sc := scalars c in
  let st := update_step c 1 (level_state c 1) in
  let tree := ls_tree st in
  let b := ls_builder st in
  let pps := ls_peer_positions st in
  let b' := ComputeHistogram b 1 c tree pps in
  row_samples 4 (Z.to_nat (split_samples sc)) (dataset_rows sc - 1)
    (minstd_rand0.seeded (seed sc))
  = Some (map (dist_eng c) (seqZ 0 (split_samples sc))) ∧
  map (dist_eng c) (seqZ 0 (split_samples sc)) = [0; 1; 2] ∧
  split_proposals (tb_split_proposals b) = [0; 1; 2]%float ∧
  internal tree 0 ∧ candidate b 0 2 ∧
  positions b = [1; 1; 2] ∧
  SelectHistogramNode 0 (hessian tree) = (2, 1) ∧
  histogram_buffer b' 1 2 0
  = gsub (histogram_buffer b 0 2 0) (histogram_buffer b' 2 2 0) ∧
  hess (histogram_buffer b' 1 2 0) = 0x1.3333333333335p-2%float ∧
  hess (direct_histogram b c pps 1 2 0) = 0x1.3333333333334p-2%float ∧
  histogram_buffer b' 1 2 0 ≠ direct_histogram b c pps 1 2 0 ∧
  gsub (histogram_buffer b 0 2 0) (direct_histogram b c pps 1 2 0)
  ≠ direct_histogram b c pps 2 2 0.
Proof.
  do 3 (split; [vm_compute; reflexivity|]).
  split; [split; [lia|exists 0; split; [vm_compute; reflexivity|lia]]|].
  split; [vm_compute; done|].
  do 5 (split; [vm_compute; reflexivity|]).
  split; intros H.
  - apply (f_equal (λ p : @GPair ieee,
             PrimFloat.eqb (hess p) 0x1.3333333333334p-2%float)) in H.
    vm_compute in H. discriminate H.
  - apply (f_equal (λ p : @GPair ieee,
             PrimFloat.eqb (hess p) 0x1.3333333333333p-2%float)) in H.
    vm_compute in H. discriminate H.
Qed.

(** ** The theorems at concrete launches *)

(** The specification's scenario: four rows, x = 0, 0, 1, 1,
    g = -1, -1, 1, 1, h = 1, one feature, one output, [max_depth = 1]. *)
Definition split_context : TaskContext :=
  @Scenario.context ieee [0; 0; 1; 1]%float [-1; -1; 1; 1]%float
    [1; 1; 1; 1]%float 1 3 0%float.

(** Its builder when [ComputeHistogram(0)] has run, and its root. *)
Definition split_builder : TreeBuilder :=
  let st := update_step split_context 0 (level_state split_context 0) in
  ComputeHistogram (ls_builder st) 0 split_context (ls_tree st)
    (ls_peer_positions st).

Definition split_root : Tree := ls_tree (level_state split_context 0).

(** Two rows whose gradients are zero: no split gains anything. *)
Definition flat_context : TaskContext :=
  @Scenario.context ieee [0; 1]%float [0; 0]%float [1; 1]%float 1 3 0%float.

Definition flat_builder : TreeBuilder :=
  let st := update_step flat_context 0 (level_state flat_context 0) in
  ComputeHistogram (ls_builder st) 0 flat_context (ls_tree st)
    (ls_peer_positions st).

Definition flat_root : Tree := ls_tree (level_state flat_context 0).

(** The scenario with [max_depth = 0]. *)
Definition root_context : TaskContext :=
  @Scenario.context ieee [0; 0; 1; 1]%float [-1; -1; 1; 1]%float
    [1; 1; 1; 1]%float 0 1 0%float.

Definition rational (n : Z) : Qc := Q2Qc (inject_Z n).

(** Three rows over the rationals, x = 0, 1, 2, g = 1, 1, -2, h = 1, 2, 3,
    [max_depth = 2]. *)
Definition exact_context : TaskContext :=
  @Scenario.context exact (map rational [0; 1; 2]) (map rational [1; 1; -2])
    (map rational [1; 2; 3]) 2 7 (rational 0).

Lemma sibling_histogram_exact_witness :
  let c := exact_context in
  let st := update_step c 1 (level_state c 1) in
  let tree := ls_tree st in
  let b := ls_builder st in
  let pps := ls_peer_positions st in
  let b' := ComputeHistogram b 1 c tree pps in
  SelectHistogramNode 0 (hessian tree) = (2, 1) ∧
  histogram_buffer b' 1 2 0
  = gsub (histogram_buffer b 0 2 0) (histogram_buffer b' 2 2 0) ∧
  histogram_buffer b' 1 2 0 = direct_histogram b c pps 1 2 0.
Proof.
  split; [vm_compute; reflexivity|].
  apply (@sibling_histogram_exact exact exact_laws exact_ring_laws
           exact_context 1 0 0 2 0); try (vm_compute; done).
  split; [lia|]. exists 0. split; [vm_compute; reflexivity|lia].
Defined.

Lemma internal_nodes_gain_and_hessians_witness :
  let tree := build_tree split_context in
  feature tree !! 0%nat = Some 0 ∧
  eps <! vec_at dzero (gain tree) 0 = true ∧
  dzero <! hessian tree 1 0 = true ∧
  dzero <! hessian tree 2 0 = true.
Proof.
  split; [vm_compute; reflexivity|].
  apply (@internal_nodes_gain_and_hessians ieee ieee_laws split_context 0 0);
    [simpl; lia|lia|vm_compute; reflexivity|lia].
Defined.

Lemma rejected_split_leaves_tree_witness :
  best_gain (find_best_split flat_builder flat_root 0%float 0) <=! eps = true ∧
  split_node flat_builder 0%float 0 flat_root = flat_root ∧
  (IsLeaf flat_root 0 = true →
   IsLeaf (split_node flat_builder 0%float 0 flat_root) 0 = true).
Proof.
  split; [vm_compute; reflexivity|].
  apply (@rejected_split_leaves_tree ieee ieee_laws flat_builder 0%float 0
           flat_root).
  left. vm_compute. reflexivity.
Defined.

Lemma best_split_first_of_equal_gain_witness :
  let best := find_best_split split_builder split_root 0%float 0 in
  let g := candidate_gain split_builder split_root 0%float 0 in
  (best_feature best = 0 ∧ best_bin best = 0) ∧
  (∀ f bin, candidate split_builder f bin → best_gain best <! g bin = false) ∧
  (best = mkBest dzero (-1) (-1) ∨
   (candidate split_builder (best_feature best) (best_bin best) ∧
    best_gain best = g (best_bin best) ∧
    dzero <! best_gain best = true ∧
    ∀ f bin, candidate split_builder f bin → g bin = best_gain best →
      best_feature best < f ∨ (best_feature best = f ∧ best_bin best ≤ bin))).
Proof.
  split; [vm_compute; done|].
  exact (@best_split_first_of_equal_gain ieee ieee_laws split_builder
           split_root 0%float 0).
Defined.

Lemma root_only_tree_witness :
  let tree := build_tree root_context in
  feature tree = [-1] ∧
  ∀ o, 0 ≤ o < 1 →
    let G := global_sum root_context in_g o in
    let H := global_sum root_context in_h o in
    gradient tree 0 o = G ∧ hessian tree 0 o = H ∧
    leaf_value tree 0 o = dneg G /! (H +! eps).
Proof.
  exact (@root_only_tree ieee root_context eq_refl).
Defined.

Lemma split_proposals_sorted_unique_witness :
  let sp := SelectSplitSamples split_context (in_X (inputs split_context))
              4 0 4 in
  split_proposals sp = [0%float; 1%float] ∧
  row_pointers sp !! 0%nat = Some 0 ∧
  (∀ f, 0 ≤ f < 1 →
     vec_at 0 (row_pointers sp) f ≤ vec_at 0 (row_pointers sp) (f + 1)) ∧
  (∀ f bin, 0 ≤ f < 1 →
     vec_at 0 (row_pointers sp) f ≤ bin →
     bin + 1 < vec_at 0 (row_pointers sp) (f + 1) →
     vec_at dzero (split_proposals sp) bin
       <! vec_at dzero (split_proposals sp) (bin + 1) = true).
Proof.
  split; [vm_compute; reflexivity|].
  apply (@split_proposals_sorted_unique ieee split_context
           (in_X (inputs split_context)) 4 0 4); [simpl; lia|].
  vm_compute. reflexivity.
Defined.

(** * Further properties of the builder *)

(** ** What the processing of a node writes *)

Section TreeFrames.
Context {DA : DoubleArith}.

(** The two trees hold the same entries for node [k] in the three vectors. *)
Definition same_node (t t' : Tree) (k : nat) : Prop :=
  feature t' !! k = feature t !! k ∧
  split_value t' !! k = split_value t !! k ∧
  gain t' !! k = gain t !! k.

(** The two trees hold the same row [i] in the three buffers. *)
Definition same_row (t t' : Tree) (i : Z) : Prop :=
  ∀ o, gradient t' i o = gradient t i o ∧
       hessian t' i o = hessian t i o ∧
       leaf_value t' i o = leaf_value t i o.

Definition same_lengths (t t' : Tree) : Prop :=
  length (feature t') = length (feature t) ∧
  length (split_value t') = length (split_value t) ∧
  length (gain t') = length (gain t).

(** The three vectors have one entry per node. *)
Definition tree_sized (t : Tree) : Prop :=
  length (split_value t) = length (feature t) ∧
  length (gain t) = length (feature t).

(** Node [n] and the rows of its children are as they were. *)
Definition untouched (t t' : Tree) (n : Z) : Prop :=
  same_node t t' (Z.to_nat n) ∧
  same_row t t' (LeftChild n) ∧ same_row t t' (RightChild n).

(** What is recorded for a node [n] that is split, [t] being the tree the
    statistics of [n] are read from and [t'] the tree written. *)
Definition split_record (b : TreeBuilder) (a : double) (t t' : Tree) (n : Z)
  : Prop :=
  let best := find_best_split b t a n in
  let bin := best_bin best in
  eps <! best_gain best = true ∧
  feature t' !! Z.to_nat n = Some (best_feature best) ∧
  split_value t' !! Z.to_nat n
  = Some (vec_at dzero (split_proposals (tb_split_proposals b)) bin) ∧
  gain t' !! Z.to_nat n = Some (best_gain best) ∧
  ∀ o, 0 ≤ o < num_outputs b →
    let G_L := grad (histogram_buffer b n bin o) in
    let H_L := hess (histogram_buffer b n bin o) in
    let G_R := gradient t n o -! G_L in
    let H_R := hessian t n o -! H_L in
    gradient t' (LeftChild n) o = G_L ∧
    hessian t' (LeftChild n) o = H_L ∧
    gradient t' (RightChild n) o = G_R ∧
    hessian t' (RightChild n) o = H_R ∧
    leaf_value t' (LeftChild n) o = CalculateLeafValue G_L H_L a ∧
    leaf_value t' (RightChild n) o = CalculateLeafValue G_R H_R a.

Lemma same_node_refl t k : same_node t t k.
Proof. by repeat split. Qed.

Lemma same_row_refl t i : same_row t t i.
Proof. by repeat split. Qed.

Lemma same_lengths_refl t : same_lengths t t.
Proof. by repeat split. Qed.

Lemma same_node_trans t1 t2 t3 k :
  same_node t1 t2 k → same_node t2 t3 k → same_node t1 t3 k.
Proof. intros (? & ? & ?) (? & ? & ?). repeat split; congruence. Qed.

Lemma same_row_trans t1 t2 t3 i :
  same_row t1 t2 i → same_row t2 t3 i → same_row t1 t3 i.
Proof.
  intros H12 H23 o. destruct (H12 o) as (? & ? & ?), (H23 o) as (? & ? & ?).
  repeat split; congruence.
Qed.

Lemma same_lengths_trans t1 t2 t3 :
  same_lengths t1 t2 → same_lengths t2 t3 → same_lengths t1 t3.
Proof. intros (? & ? & ?) (? & ? & ?). repeat split; congruence. Qed.

Lemma tree_sized_same_lengths t t' :
  same_lengths t t' → tree_sized t → tree_sized t'.
Proof. intros (? & ? & ?) [? ?]. split; congruence. Qed.

(** The search at node [n] reads the tree at row [n] only. *)
Lemma candidate_gain_ext (b : TreeBuilder) (t t' : Tree) (a : double)
  (n bin : Z) :
  same_row t t' n →
  candidate_gain b t' a n bin = candidate_gain b t a n bin.
Proof.
  intros Hrow. unfold candidate_gain. apply for_range_ext. intros o g _.
  destruct (Hrow o) as (-> & -> & _). done.
Qed.

Lemma find_best_split_ext (b : TreeBuilder) (t t' : Tree) (a : double)
  (n : Z) :
  same_row t t' n → find_best_split b t' a n = find_best_split b t a n.
Proof.
  intros Hrow. unfold find_best_split. apply for_range_ext. intros f best _.
  destruct (FeatureRange _ f) as [fb fe]. apply for_range_ext.
  intros bin best' _. unfold consider.
  by rewrite (candidate_gain_ext b t t' a n bin Hrow).
Qed.

Lemma split_record_ext (b : TreeBuilder) (a : double) (t0 t t' : Tree)
  (n : Z) :
  same_row t0 t n → split_record b a t t' n → split_record b a t0 t' n.
Proof.
  intros Hrow. unfold split_record.
  rewrite (find_best_split_ext b t0 t a n Hrow).
  intros (Hg & Hf & Hs & Hgn & Hout). repeat split; try done;
    destruct (Hrow o) as (Hgr & Hhe & _);
    destruct (Hout o ltac:(done)) as (? & ? & ? & ? & ? & ?); congruence.
Qed.

Lemma split_record_frame (b : TreeBuilder) (a : double) (t0 t' t'' : Tree)
  (n : Z) :
  untouched t' t'' n → split_record b a t0 t' n → split_record b a t0 t'' n.
Proof.
  intros ((Hf' & Hs' & Hg') & HL & HR) (Hg & Hf & Hs & Hgn & Hout).
  repeat split; try congruence;
    destruct (HL o) as (? & ? & ?), (HR o) as (? & ? & ?);
    destruct (Hout o ltac:(done)) as (? & ? & ? & ? & ? & ?); congruence.
Qed.

Lemma split_applies_ext (b : TreeBuilder) (a : double) (t t' : Tree)
  (n : Z) :
  same_row t t' n → split_applies b a t' n = split_applies b a t n.
Proof.
  intros Hrow. unfold split_applies.
  rewrite (find_best_split_ext b t t' a n Hrow).
  set (best := find_best_split b t a n).
  rewrite (map_ext
             (λ o, hessian t' n o
                   -! hess (histogram_buffer b n (best_bin best) o))
             (λ o, hessian t n o
                   -! hess (histogram_buffer b n (best_bin best) o)));
    [done|].
  intros o. by destruct (Hrow o) as (_ & -> & _).
Qed.

(** The processing of one node: the tree is returned as it is, or the
    node's split is recorded; nothing else is written. *)
Lemma split_node_post (b : TreeBuilder) (a : double) (m : Z) (t : Tree) :
  0 ≤ m < Z.of_nat (length (feature t)) → tree_sized t →
  let t' := split_node b a m t in
  same_lengths t t' ∧
  (∀ k, k ≠ Z.to_nat m → same_node t t' k) ∧
  (∀ i, i ≠ LeftChild m → i ≠ RightChild m → same_row t t' i) ∧
  (split_applies b a t m = false ∧ t' = t ∨
   split_applies b a t m = true ∧ split_record b a t t' m).
Proof.
  intros Hm [Hls Hlg] t'. subst t'.
  assert (split_applies b a t m = false ∧ split_node b a m t = t ∨
          split_applies b a t m = true ∧
          eps <! best_gain (find_best_split b t a m) = true ∧
          split_node b a m t
          = AddSplit t m (best_feature (find_best_split b t a m))
              (vec_at dzero (split_proposals (tb_split_proposals b))
                 (best_bin (find_best_split b t a m)))
              (map (λ o, CalculateLeafValue
                      (grad (histogram_buffer b m
                               (best_bin (find_best_split b t a m)) o))
                      (hess (histogram_buffer b m
                               (best_bin (find_best_split b t a m)) o)) a)
                 (seqZ 0 (num_outputs b)))
              (map (λ o, CalculateLeafValue
                      (gradient t m o
                       -! grad (histogram_buffer b m
                                  (best_bin (find_best_split b t a m)) o))
                      (hessian t m o
                       -! hess (histogram_buffer b m
                                  (best_bin (find_best_split b t a m)) o)) a)
                 (seqZ 0 (num_outputs b)))
              (best_gain (find_best_split b t a m))
              (map (λ o, grad (histogram_buffer b m
                                 (best_bin (find_best_split b t a m)) o))
                 (seqZ 0 (num_outputs b)))
              (map (λ o, gradient t m o
                         -! grad (histogram_buffer b m
                                    (best_bin (find_best_split b t a m)) o))
                 (seqZ 0 (num_outputs b)))
              (map (λ o, hess (histogram_buffer b m
                                 (best_bin (find_best_split b t a m)) o))
                 (seqZ 0 (num_outputs b)))
              (map (λ o, hessian t m o
                         -! hess (histogram_buffer b m
                                    (best_bin (find_best_split b t a m)) o))
                 (seqZ 0 (num_outputs b)))) as Hcases.
  { unfold split_applies, split_node. cbv zeta.
    destruct (eps <! best_gain (find_best_split b t a m)); [|by left].
    destruct (_ || _); [by left|by right]. }
  destruct Hcases as [[Happ ->]|(Happ & Hgain & ->)].
  { split; [apply same_lengths_refl|]. split; [intros; apply same_node_refl|].
    split; [intros; apply same_row_refl|by left]. }
  set (best := find_best_split b t a m) in *.
  match goal with
  | |- context [AddSplit ?t ?n ?f ?sv ?ll ?rl ?gn ?gl ?gr ?hl ?hr] =>
      pose proof (AddSplit_spec t n f sv ll rl gn gl gr hl hr) as Hspec;
      set (t' := AddSplit t n f sv ll rl gn gl gr hl hr) in *
  end.
  cbv zeta in Hspec. destruct Hspec as (Hf & Hs & Hg & Hhe & Hgr & Hlv).
  rewrite length_map, length_seqZ in Hhe, Hgr, Hlv.
  split; [|split; [|split]].
  - unfold same_lengths. by rewrite Hf, Hs, Hg, !length_vec_set.
  - intros k Hk. unfold same_node. rewrite Hf, Hs, Hg. unfold vec_set.
    by rewrite !list_lookup_insert_ne by lia.
  - intros i HiL HiR o. rewrite Hgr, Hhe, Hlv.
    destruct (Z.eqb_spec i (LeftChild m)); [done|].
    destruct (Z.eqb_spec i (RightChild m)); [done|]. done.
  - right. split; [done|]. unfold split_record. fold best.
    split; [done|]. rewrite Hf, Hs, Hg. unfold vec_set.
    rewrite !list_lookup_insert_eq by lia.
    do 3 (split; [done|]).
    intros o Ho. rewrite !Hgr, !Hhe, !Hlv.
    unfold LeftChild, RightChild.
    destruct (Z.eqb_spec (2 * m + 1) (2 * m + 1)); [|lia].
    destruct (Z.eqb_spec (2 * m + 2) (2 * m + 1)); [lia|].
    destruct (Z.eqb_spec (2 * m + 2) (2 * m + 2)); [|lia].
    destruct (Z.leb_spec 0 o); [|lia].
    destruct (Z.ltb_spec o (Z.of_nat (Z.to_nat (num_outputs b)))); [|lia].
    simpl. rewrite !vec_at_map_seqZ by lia. done.
Qed.

(** A level of splits: the vectors change at the nodes of the level only,
    the buffers at the rows of the next level only, and every node of the
    level is left untouched or has its split recorded. *)
Lemma PerformBestSplit_post (b : TreeBuilder) (depth : Z) (t : Tree)
  (a : double) :
  0 ≤ depth → tree_sized t →
  LevelBegin (depth + 1) ≤ Z.of_nat (length (feature t)) →
  let t' := PerformBestSplit b depth t a in
  same_lengths t t' ∧
  (∀ k, ¬ LevelBegin depth ≤ Z.of_nat k < LevelBegin (depth + 1) →
        same_node t t' k) ∧
  (∀ i, ¬ LevelBegin (depth + 1) ≤ i < LevelBegin (depth + 2) →
        same_row t t' i) ∧
  (∀ n, LevelBegin depth ≤ n < LevelBegin (depth + 1) →
        split_applies b a t n = false ∧ untouched t t' n ∨
        split_applies b a t n = true ∧ split_record b a t t' n).
Proof.
  intros Hd Hsized Hcap t'. subst t'. unfold PerformBestSplit.
  pose proof (LevelBegin_nonneg depth Hd) as Hnn.
  pose proof (LevelBegin_succ depth Hd) as Hsucc.
  pose proof (LevelBegin_succ (depth + 1) ltac:(lia)) as Hsucc'.
  replace (depth + 1 + 1) with (depth + 2) in Hsucc' by lia.
  pose (Inv := λ (m : Z) (t' : Tree),
    same_lengths t t' ∧
    (∀ k, ¬ LevelBegin depth ≤ Z.of_nat k < m → same_node t t' k) ∧
    (∀ i, i < LevelBegin (depth + 1) ∨ 2 * m + 1 ≤ i → same_row t t' i) ∧
    (∀ n, LevelBegin depth ≤ n < m →
          split_applies b a t n = false ∧ untouched t t' n ∨
          split_applies b a t n = true ∧ split_record b a t t' n)).
  assert (Inv (LevelBegin (depth + 1))
            (for_range (LevelBegin depth) (LevelBegin (depth + 1))
               (split_node b a) t)) as (Hlen & Hnode & Hrow & Hrec).
  { apply (for_range_invariant Inv); [lia| |].
    - split; [apply same_lengths_refl|]. split; [intros; apply same_node_refl|].
      split; [intros; apply same_row_refl|]. intros n Hn. lia.
    - intros m t' Hm (Hlen & Hnode & Hrow & Hrec).
      assert (tree_sized t') as Hsized'
        by by eapply tree_sized_same_lengths.
      assert (0 ≤ m < Z.of_nat (length (feature t'))) as Hm'.
      { destruct Hlen as (-> & _). lia. }
      destruct (split_node_post b a m t' Hm' Hsized')
        as (Hlen' & Hnode' & Hrow' & Hcase).
      assert (same_row t t' m) as Hrm by (apply Hrow; lia).
      split; [by eapply same_lengths_trans|]. split; [|split].
      + intros k Hk. eapply same_node_trans; [apply Hnode; lia|].
        apply Hnode'. lia.
      + intros i Hi. eapply same_row_trans; [apply Hrow; lia|].
        apply Hrow'; unfold LeftChild, RightChild; lia.
      + intros n Hn. destruct (decide (n = m)) as [->|Hne].
        * rewrite (split_applies_ext b a t t' m Hrm) in Hcase.
          destruct Hcase as [[Happ ->]|[Happ Hsplit]].
          -- left. split; [done|]. split; [apply Hnode; lia|].
             split; apply Hrow; unfold LeftChild, RightChild; lia.
          -- right. split; [done|]. by eapply split_record_ext.
        * assert (untouched t' (split_node b a m t') n) as Hun.
          { split; [apply Hnode'; lia|].
            split; apply Hrow'; unfold LeftChild, RightChild; lia. }
          destruct (Hrec n ltac:(lia)) as [[Happ Hu]|[Happ Hs]];
            [left|right]; (split; [done|]).
          -- destruct Hu as (Hu1 & Hu2 & Hu3), Hun as (Hv1 & Hv2 & Hv3).
             split; [by eapply same_node_trans|].
             split; by eapply same_row_trans.
          -- by eapply split_record_frame. }
  split; [done|]. split; [done|]. split; [|done].
  intros i Hi. apply Hrow. lia.
Qed.

End TreeFrames.

(** ** The tree along the level loop *)

Section GrownTreeFrames.
Context {DA : DoubleArith}.

Lemma LevelBegin_mono (d d' : Z) :
  0 ≤ d ≤ d' → LevelBegin d ≤ LevelBegin d'.
Proof.
  intros Hd. unfold LevelBegin.
  pose proof (Z.pow_le_mono_r 2 d d' ltac:(lia) ltac:(lia)). lia.
Qed.

(** The tree before the level loop: every node a leaf, and only the row of
    the root written. *)
Lemma initial_tree_shape (context : TaskContext) :
  let sc := scalars context in
  let t0 := ls_tree (initial_state context) in
  feature t0 = replicate (Z.to_nat (max_nodes sc)) (-1) ∧
  split_value t0 = replicate (Z.to_nat (max_nodes sc)) dzero ∧
  gain t0 = replicate (Z.to_nat (max_nodes sc)) dzero ∧
  (∀ i o, i ≠ 0 →
     gradient t0 i o = dzero ∧ hessian t0 i o = dzero ∧
     leaf_value t0 i o = dzero).
Proof.
  intros sc t0. subst t0. unfold initial_state. cbn [ls_tree].
  match goal with
  | |- context [InitialiseRoot ?b ?c ?t ?al] =>
      destruct (InitialiseRoot_spec b c t al)
        as (Hf & Hs & Hg & Hgr & Hhe & Hlv)
  end.
  rewrite Hf, Hs, Hg. do 3 (split; [done|]).
  intros i o Hi. rewrite Hgr, Hhe, Hlv.
  destruct (Z.eqb_spec i 0); [done|]. done.
Qed.

Lemma level_state_nonpositive (context : TaskContext) (d : Z) :
  d ≤ 0 → level_state context d = initial_state context.
Proof. intros Hd. unfold level_state. by rewrite for_range_empty. Qed.

Lemma build_tree_level (context : TaskContext) :
  build_tree context
  = ls_tree (level_state context
               (Z.of_nat (Z.to_nat (max_depth (scalars context))))).
Proof.
  unfold build_tree.
  destruct (decide (0 ≤ max_depth (scalars context))) as [Hd|Hd].
  - by rewrite Z2Nat.id.
  - rewrite !level_state_nonpositive by lia. done.
Qed.

Lemma level_state_tree_succ (context : TaskContext) (d : nat) :
  let st := update_step context (Z.of_nat d)
              (level_state context (Z.of_nat d)) in
  ls_tree (level_state context (Z.of_nat (S d)))
  = PerformBestSplit
      (ComputeHistogram (ls_builder st) (Z.of_nat d) context
         (ls_tree (level_state context (Z.of_nat d))) (ls_peer_positions st))
      (Z.of_nat d) (ls_tree (level_state context (Z.of_nat d)))
      (alpha (scalars context)).
Proof.
  replace (Z.of_nat (S d)) with (Z.of_nat d + 1) by lia.
  rewrite level_state_succ by lia. reflexivity.
Qed.

(** The vectors keep their [max_nodes] entries. *)
Lemma level_state_lengths (context : TaskContext) (d : nat) :
  LevelBegin (Z.of_nat d) ≤ max_nodes (scalars context) →
  same_lengths (ls_tree (initial_state context))
    (ls_tree (level_state context (Z.of_nat d))) ∧
  tree_sized (ls_tree (level_state context (Z.of_nat d))) ∧
  Z.of_nat (length (feature (ls_tree (level_state context (Z.of_nat d)))))
  = Z.max 0 (max_nodes (scalars context)).
Proof.
  destruct (initial_tree_shape context) as (Hf & Hs & Hg & _).
  assert (tree_sized (ls_tree (initial_state context))) as Hsized0.
  { split; rewrite Hf, ?Hs, ?Hg; by rewrite !length_replicate. }
  induction d as [|d IH]; intros Hcap.
  - rewrite level_state_nonpositive by done.
    split; [apply same_lengths_refl|]. split; [done|].
    rewrite Hf, length_replicate. lia.
  - pose proof (LevelBegin_mono (Z.of_nat d) (Z.of_nat (S d)) ltac:(lia)).
    destruct (IH ltac:(lia)) as (Hlen & Hsized & Hmax).
    rewrite level_state_tree_succ.
    match goal with
    | |- context [PerformBestSplit ?b ?dp ?t ?a] =>
        destruct (PerformBestSplit_post b dp t a ltac:(lia) Hsized)
          as (Hlen' & _)
    end.
    { replace (Z.of_nat d + 1) with (Z.of_nat (S d)) by lia. lia. }
    split; [by eapply same_lengths_trans|].
    split; [by eapply tree_sized_same_lengths|].
    destruct Hlen' as (-> & _). done.
Qed.

(** Between depth [d] and a later depth [d + k], the nodes above level [d]
    and from level [d + k] on keep their entries, and so do the rows up to
    level [d] and from level [d + k + 1] on. *)
Lemma level_state_frame (context : TaskContext) (d k : nat) :
  LevelBegin (Z.of_nat (d + k)) ≤ max_nodes (scalars context) →
  let t := ls_tree (level_state context (Z.of_nat d)) in
  let t' := ls_tree (level_state context (Z.of_nat (d + k))) in
  (∀ j, Z.of_nat j < LevelBegin (Z.of_nat d)
        ∨ LevelBegin (Z.of_nat (d + k)) ≤ Z.of_nat j → same_node t t' j) ∧
  (∀ i, i < LevelBegin (Z.of_nat d + 1)
        ∨ LevelBegin (Z.of_nat (d + k) + 1) ≤ i → same_row t t' i).
Proof.
  induction k as [|k IH]; intros Hcap t t'; subst t t'.
  - replace (d + 0)%nat with d by lia.
    split; intros; [apply same_node_refl|apply same_row_refl].
  - replace (d + S k)%nat with (S (d + k)) in * by lia.
    pose proof (LevelBegin_mono (Z.of_nat (d + k)) (Z.of_nat (S (d + k)))
                  ltac:(lia)) as Hm1.
    pose proof (LevelBegin_mono (Z.of_nat d) (Z.of_nat (d + k)) ltac:(lia))
      as Hm2.
    pose proof (LevelBegin_mono (Z.of_nat d + 1) (Z.of_nat (d + k) + 1)
                  ltac:(lia)) as Hm3.
    pose proof (LevelBegin_mono (Z.of_nat (d + k) + 1)
                  (Z.of_nat (S (d + k)) + 1) ltac:(lia)) as Hm4.
    destruct (IH ltac:(lia)) as (Hnode & Hrow).
    destruct (level_state_lengths context (d + k) ltac:(lia))
      as (_ & Hsized & Hmax).
    rewrite level_state_tree_succ.
    match goal with
    | |- context [PerformBestSplit ?b ?dp ?t ?a] =>
        destruct (PerformBestSplit_post b dp t a ltac:(lia) Hsized)
          as (_ & Hnode' & Hrow' & _)
    end.
    { replace (Z.of_nat (d + k) + 1) with (Z.of_nat (S (d + k))) by lia.
      lia. }
    replace (Z.of_nat (S (d + k))) with (Z.of_nat (d + k) + 1) in * by lia.
    replace (Z.of_nat (d + k) + 1 + 1) with (Z.of_nat (d + k) + 2) in *
      by lia.
    split.
    + intros j Hj. eapply same_node_trans; [apply Hnode; lia|].
      apply Hnode'. lia.
    + intros i Hi. eapply same_row_trans; [apply Hrow; lia|].
      apply Hrow'. lia.
Qed.

End GrownTreeFrames.

(** ** The nodes of the tree that is built *)

Section GrownTreeNodes.
Context {DA : DoubleArith}.

(** Every split node of the tree at depth [D] lies in a level [j < D], and
    holds the record of the split made when its level was processed. *)
Lemma grown_tree_record (context : TaskContext) (D : nat) (n : Z) :
  LevelBegin (Z.of_nat D) ≤ max_nodes (scalars context) →
  let tree := ls_tree (level_state context (Z.of_nat D)) in
  internal tree n →
  ∃ (j : nat) (b : TreeBuilder) (t : Tree),
    (j < D)%nat ∧
    LevelBegin (Z.of_nat j) ≤ n < LevelBegin (Z.of_nat j + 1) ∧
    same_constants (ls_builder (initial_state context)) b ∧
    same_row t tree n ∧
    split_record b (alpha (scalars context)) t tree n.
Proof.
  induction D as [|D IH]; intros Hcap tree Hint; subst tree.
  - rewrite level_state_nonpositive in Hint by done.
    by apply initial_tree_leaves in Hint.
  - pose proof (LevelBegin_mono (Z.of_nat D) (Z.of_nat (S D)) ltac:(lia))
      as Hmono.
    pose proof (LevelBegin_succ (Z.of_nat D) ltac:(lia)) as Hs1.
    pose proof (LevelBegin_succ (Z.of_nat D + 1) ltac:(lia)) as Hs2.
    replace (Z.of_nat D + 1 + 1) with (Z.of_nat D + 2) in Hs2 by lia.
    pose proof (LevelBegin_nonneg (Z.of_nat D) ltac:(lia)) as Hnn.
    specialize (IH ltac:(lia)). cbv zeta in IH.
    destruct (level_state_lengths context D ltac:(lia))
      as (_ & Hsized & Hmax).
    rewrite level_state_tree_succ in Hint |- *.
    set (t := ls_tree (level_state context (Z.of_nat D))) in *.
    match goal with
    | |- context [PerformBestSplit ?b0 ?dp t ?a] => set (b := b0) in *
    end.
    destruct (PerformBestSplit_post b (Z.of_nat D) t (alpha (scalars context))
                ltac:(lia) Hsized) as (_ & Hnode & Hrow & Hrec).
    { replace (Z.of_nat D + 1) with (Z.of_nat (S D)) by lia. lia. }
    set (t' := PerformBestSplit b (Z.of_nat D) t (alpha (scalars context)))
      in *.
    assert (0 ≤ n) as Hn by apply Hint.
    assert (same_node t t' (Z.to_nat n) → internal t n) as Hback.
    { intros (Hf & _). destruct Hint as (_ & f & Hfn & Hne).
      split; [done|]. exists f. split; [congruence|done]. }
    assert (∀ j bj tj,
              (j < D)%nat →
              LevelBegin (Z.of_nat j) ≤ n < LevelBegin (Z.of_nat j + 1) →
              same_row tj t n →
              split_record bj (alpha (scalars context)) tj t n →
              same_row tj t' n ∧
              split_record bj (alpha (scalars context)) tj t' n) as Hkeep.
    { intros j bj tj Hj Hlev Hrj Hsj.
      pose proof (LevelBegin_mono (Z.of_nat j + 1) (Z.of_nat D) ltac:(lia)).
      split.
      - eapply same_row_trans; [exact Hrj|]. apply Hrow. lia.
      - eapply split_record_frame; [|exact Hsj].
        split; [apply Hnode; lia|].
        split; apply Hrow; unfold LeftChild, RightChild; lia. }
    destruct (decide (LevelBegin (Z.of_nat D) ≤ n
                      < LevelBegin (Z.of_nat D + 1))) as [Hlev|Hlev].
    + destruct (Hrec n Hlev) as [(_ & Hun & _)|[_ Hsplit]].
      * destruct (IH (Hback Hun)) as (j & bj & tj & Hj & Hlj & _).
        pose proof (LevelBegin_mono (Z.of_nat j + 1) (Z.of_nat D)
                      ltac:(lia)).
        lia.
      * exists D, b, t. split; [lia|]. split; [done|]. split.
        { eapply same_constants_trans; [apply update_step_constants|].
          apply ComputeHistogram_constants. }
        split; [|done]. apply Hrow. lia.
    + assert (same_node t t' (Z.to_nat n)) as Hun by (apply Hnode; lia).
      destruct (IH (Hback Hun)) as (j & bj & tj & Hj & Hlj & Hc & Hrj & Hsj).
      destruct (Hkeep j bj tj Hj Hlj Hrj Hsj) as [? ?].
      exists j, bj, tj. split; [lia|]. done.
Qed.

End GrownTreeNodes.

Section GrownTreeTheorems.
Context {DA : DoubleArith}.

(** X1.  The tree that is built has one entry per node in each of its vectors,
    and its depth is at most [max_depth]: a node that is split lies in a
    level above [max_depth], so the nodes from [2^max_depth - 1] on are
    leaves. *)
Theorem tree_depth_bounded (context : TaskContext) :
  let sc := scalars context in
  let tree := build_tree context in
  0 ≤ max_depth sc → 2 ^ (max_depth sc + 1) - 1 ≤ max_nodes sc →
  length (feature tree) = Z.to_nat (max_nodes sc) ∧
  length (split_value tree) = Z.to_nat (max_nodes sc) ∧
  length (gain tree) = Z.to_nat (max_nodes sc) ∧
  ∀ n, internal tree n → n < 2 ^ max_depth sc - 1.
Proof.
  intros sc tree Hd Hfit. subst tree. rewrite build_tree_level. fold sc.
  set (D := Z.to_nat (max_depth sc)).
  pose proof (LevelBegin_mono (Z.of_nat D) (max_depth sc + 1) ltac:(lia))
    as Hmono.
  assert (LevelBegin (Z.of_nat D) ≤ max_nodes sc) as Hcap
    by (unfold LevelBegin in *; lia).
  destruct (level_state_lengths context D Hcap)
    as ((Hlf & Hls & Hlg) & _ & _).
  destruct (initial_tree_shape context) as (Hf & Hs & Hg & _).
  rewrite Hf in Hlf. rewrite Hs in Hls. rewrite Hg in Hlg.
  rewrite length_replicate in Hlf. rewrite length_replicate in Hls.
  rewrite length_replicate in Hlg.
  do 3 (split; [done|]).
  intros n Hint.
  destruct (grown_tree_record context D n Hcap Hint)
    as (j & _ & _ & Hj & Hlev & _).
  pose proof (LevelBegin_mono (Z.of_nat j + 1) (Z.of_nat D) ltac:(lia))
    as Hm.
  unfold LevelBegin in Hm, Hlev. replace (max_depth sc) with (Z.of_nat D)
    by lia.
  lia.
Qed.

(** X2.  The statistics of the two children of a split node: the right child's
    gradient and hessian are the node's minus the left child's, computed in
    the arithmetic of the code, and each child's leaf value is
    [CalculateLeafValue] of its own gradient and hessian. *)
Theorem children_statistics (context : TaskContext) (n o : Z) :
  let sc := scalars context in
  let g_shape := shape (in_g (inputs context)) in
  let tree := build_tree context in
  0 ≤ max_depth sc → 2 ^ (max_depth sc + 1) - 1 ≤ max_nodes sc →
  internal tree n → 0 ≤ o < hi2 g_shape - lo2 g_shape + 1 →
  gradient tree (2 * n + 2) o
  = gradient tree n o -! gradient tree (2 * n + 1) o ∧
  hessian tree (2 * n + 2) o
  = hessian tree n o -! hessian tree (2 * n + 1) o ∧
  leaf_value tree (2 * n + 1) o
  = CalculateLeafValue (gradient tree (2 * n + 1) o)
      (hessian tree (2 * n + 1) o) (alpha sc) ∧
  leaf_value tree (2 * n + 2) o
  = CalculateLeafValue (gradient tree (2 * n + 2) o)
      (hessian tree (2 * n + 2) o) (alpha sc).
Proof.
  intros sc g_shape tree Hd Hfit Hint Ho. subst tree.
  rewrite build_tree_level in Hint |- *. fold sc in Hint |- *.
  set (D := Z.to_nat (max_depth sc)) in *.
  pose proof (LevelBegin_mono (Z.of_nat D) (max_depth sc + 1) ltac:(lia))
    as Hmono.
  assert (LevelBegin (Z.of_nat D) ≤ max_nodes sc) as Hcap
    by (unfold LevelBegin in *; lia).
  destruct (grown_tree_record context D n Hcap Hint)
    as (j & b & t & _ & _ & Hc & Hrow & Hrec).
  destruct Hrec as (_ & _ & _ & _ & Hout).
  destruct Hc as (_ & _ & Hno & _). simpl in Hno. fold g_shape in Hno.
  destruct (Hout o ltac:(lia)) as (HgL & HhL & HgR & HhR & HlL & HlR).
  destruct (Hrow o) as (Hgn & Hhn & _).
  change (2 * n + 1) with (LeftChild n).
  change (2 * n + 2) with (RightChild n).
  rewrite HgR, HhR, HlL, HlR, HgL, HhL, Hgn, Hhn. done.
Qed.

(** X3.  The row of the root is written by [InitialiseRoot] and by nothing
    else: whatever the depth, the root's gradient and hessian of the tree
    that is built are the sums of g and h over all rows of the launch, and
    its leaf value is [CalculateLeafValue] of them. *)
Theorem root_statistics_kept (context : TaskContext) (o : Z) :
  let sc := scalars context in
  let g_shape := shape (in_g (inputs context)) in
  let tree := build_tree context in
  let G := global_sum context in_g o in
  let H := global_sum context in_h o in
  0 ≤ max_depth sc → 2 ^ (max_depth sc + 1) - 1 ≤ max_nodes sc →
  0 ≤ o < hi2 g_shape - lo2 g_shape + 1 →
  gradient tree 0 o = G ∧ hessian tree 0 o = H ∧
  leaf_value tree 0 o = CalculateLeafValue G H (alpha sc).
Proof.
  intros sc g_shape tree G H Hd Hfit Ho. subst tree.
  rewrite build_tree_level. fold sc.
  set (D := Z.to_nat (max_depth sc)) in *.
  pose proof (LevelBegin_mono (Z.of_nat D) (max_depth sc + 1) ltac:(lia))
    as Hmono.
  assert (LevelBegin (Z.of_nat D) ≤ max_nodes sc) as Hcap
    by (unfold LevelBegin in *; lia).
  destruct (level_state_frame context 0 D Hcap) as (_ & Hrow).
  destruct (Hrow 0 ltac:(left; done) o) as (Hg & Hh & Hl).
  change (0 + D)%nat with D in Hg, Hh, Hl. rewrite Hg, Hh, Hl.
  rewrite level_state_nonpositive by done.
  unfold initial_state. cbn [ls_tree].
  match goal with
  | |- context [InitialiseRoot ?b ?c ?t ?al] =>
      destruct (InitialiseRoot_spec b c t al)
        as (_ & _ & _ & Hgr & Hhe & Hlv)
  end.
  rewrite Hgr, Hhe, Hlv. cbn [num_outputs TreeBuilder_new]. fold g_shape.
  destruct (Z.leb_spec 0 o), (Z.ltb_spec o (hi2 g_shape - lo2 g_shape + 1));
    try lia.
  done.
Qed.

End GrownTreeTheorems.

Section GrownTreeSplits.
Context {DA : DoubleArith} {DL : DoubleLaws DA}.

(** A split that is recorded was selected among the candidates. *)
Lemma split_record_candidate (b : TreeBuilder) (a : double) (t t' : Tree)
  (n : Z) :
  split_record b a t t' n →
  candidate b (best_feature (find_best_split b t a n))
    (best_bin (find_best_split b t a n)).
Proof.
  intros (Hgain & _).
  destruct (find_best_split_ok b t a n) as [_ [Hinit|(Hc & _)]]; [|done].
  rewrite Hinit in Hgain. simpl in Hgain.
  by rewrite eps_not_negative in Hgain.
Qed.

(** X4.  Every split of the tree that is built tests a feature of X against one
    of the thresholds [SelectSplitSamples] proposed for that feature. *)
Theorem split_nodes_use_proposals (context : TaskContext) (n : Z) :
  let sc := scalars context in
  let X := in_X (inputs context) in
  let sp := SelectSplitSamples context X (split_samples sc) (seed sc)
              (dataset_rows sc) in
  let tree := build_tree context in
  0 ≤ max_depth sc → 2 ^ (max_depth sc + 1) - 1 ≤ max_nodes sc →
  internal tree n →
  ∃ f bin,
    feature tree !! Z.to_nat n = Some f ∧
    0 ≤ f < hi1 (shape X) - lo1 (shape X) + 1 ∧
    vec_at 0 (row_pointers sp) f ≤ bin < vec_at 0 (row_pointers sp) (f + 1) ∧
    split_value tree !! Z.to_nat n
    = Some (vec_at dzero (split_proposals sp) bin).
Proof.
  intros sc X sp tree Hd Hfit Hint. subst tree.
  rewrite build_tree_level in Hint |- *. fold sc in Hint |- *.
  set (D := Z.to_nat (max_depth sc)) in *.
  pose proof (LevelBegin_mono (Z.of_nat D) (max_depth sc + 1) ltac:(lia))
    as Hmono.
  assert (LevelBegin (Z.of_nat D) ≤ max_nodes sc) as Hcap
    by (unfold LevelBegin in *; lia).
  destruct (grown_tree_record context D n Hcap Hint)
    as (j & b & t & _ & _ & Hc & _ & Hrec).
  pose proof (split_record_candidate _ _ _ _ _ Hrec) as [Hf Hbin].
  destruct Hrec as (_ & Hfn & Hsn & _).
  destruct Hc as (_ & Hnf & _ & _ & Hsp). rewrite Hsp in Hbin, Hsn.
  rewrite Hnf in Hf.
  exists (best_feature (find_best_split b t (alpha sc) n)),
         (best_bin (find_best_split b t (alpha sc) n)).
  split; [done|]. split; [exact Hf|]. split; [exact Hbin|exact Hsn].
Qed.

Context {NL : NegationLaws DA}.

Lemma level_state_tree_inv (context : TaskContext) (cap : Z) (D : nat) :
  cap ≤ max_nodes (scalars context) → LevelBegin (Z.of_nat D) ≤ cap →
  0 < num_outputs (ls_builder (initial_state context)) →
  tree_inv cap (ls_tree (level_state context (Z.of_nat D))).
Proof.
  intros Hcap HD Hno. induction D as [|D IH].
  - rewrite level_state_nonpositive by done.
    by destruct (hist_inv_initial context cap Hcap) as (Hinv & _).
  - pose proof (LevelBegin_mono (Z.of_nat D) (Z.of_nat (S D)) ltac:(lia)).
    rewrite level_state_tree_succ.
    apply PerformBestSplit_tree_inv; [lia| | |apply IH; lia].
    + by replace (Z.of_nat D + 1) with (Z.of_nat (S D)) by lia.
    + match goal with
      | |- 0 < num_outputs (ComputeHistogram ?b ?d ?c ?t ?p) =>
          destruct (ComputeHistogram_constants b d c t p)
            as (_ & _ & -> & _)
      end.
      destruct (update_step_constants context (Z.of_nat D))
        as (_ & _ & -> & _).
      done.
Qed.

(** X5.  The split nodes of the tree that is built hang together: a node that is
    split is the root or has a parent that is split, so when the root is a
    leaf no node is split, and every split node is reached from the root. *)
Theorem split_nodes_connected (context : TaskContext) (n : Z) :
  let sc := scalars context in
  let g_shape := shape (in_g (inputs context)) in
  let tree := build_tree context in
  0 ≤ max_depth sc → 2 ^ (max_depth sc + 1) - 1 ≤ max_nodes sc →
  lo2 g_shape ≤ hi2 g_shape →
  internal tree n →
  (n = 0 ∨ internal tree (Parent n)) ∧ internal tree 0.
Proof.
  intros sc g_shape tree Hd Hfit Hout Hint. subst tree.
  rewrite build_tree_level in Hint |- *. fold sc in Hint |- *.
  set (D := Z.to_nat (max_depth sc)) in *.
  pose proof (LevelBegin_mono (Z.of_nat D) (max_depth sc + 1) ltac:(lia))
    as Hmono.
  assert (LevelBegin (Z.of_nat D) ≤ max_nodes sc) as Hcap
    by (unfold LevelBegin in *; lia).
  destruct (level_state_tree_inv context (max_nodes sc) D (Z.le_refl _) Hcap)
    as (_ & Hlive & _).
  { simpl. fold g_shape. lia. }
  set (tree := ls_tree (level_state context (Z.of_nat D))) in *.
  assert (∀ m, internal tree m → m = 0 ∨ internal tree (Parent m)) as Hstep.
  { intros m Hm. destruct (Hlive m Hm) as [->|[_ ?]]; auto. }
  split; [by apply Hstep|].
  assert (∀ (k : nat) m, 0 ≤ m ≤ Z.of_nat k → internal tree m →
            internal tree 0) as Hroot.
  { induction k as [|k IH]; intros m Hm Hi.
    - by replace m with 0 in Hi by lia.
    - destruct (decide (m = 0)) as [->|Hm0]; [done|].
      destruct (Hstep m Hi) as [?|Hp]; [lia|].
      apply (IH (Parent m)); [|done].
      destruct Hp as [Hp0 _]. split; [done|].
      destruct (child_of_parent m ltac:(lia)) as [Hc|Hc];
        unfold LeftChild, RightChild in Hc; lia. }
  apply (Hroot (Z.to_nat n) n); [|done]. destruct Hint as [? _]. lia.
Qed.

End GrownTreeSplits.

(** ** PerformBestSplit, node by node *)

Section LevelOfSplits.
Context {DA : DoubleArith}.

(** X6.  [PerformBestSplit(depth)] on a tree whose vectors hold the level:
    outside the level the three vectors are not written, outside the next
    level the three buffers are not written, and every node [n] of the level
    is decided by the search made on the tree as it was before the call.
    When the best gain exceeds [eps] and both child hessians of output 0
    pass the test, the split of the best candidate is recorded: its feature,
    threshold and gain at [n], the histogram entry of the best bin as the
    left child's gradient and hessian, the node's minus it as the right
    child's, and the leaf values of both.  Otherwise the node and the rows
    of its children are left as they are. *)
Theorem PerformBestSplit_splits_level (b : TreeBuilder) (depth : Z)
  (t : Tree) (a : double) :
  0 ≤ depth → tree_sized t →
  LevelBegin (depth + 1) ≤ Z.of_nat (length (feature t)) →
  0 < num_outputs b →
  let t' := PerformBestSplit b depth t a in
  (∀ k, ¬ LevelBegin depth ≤ Z.of_nat k < LevelBegin (depth + 1) →
        same_node t t' k) ∧
  (∀ i, ¬ LevelBegin (depth + 1) ≤ i < LevelBegin (depth + 2) →
        same_row t t' i) ∧
  (∀ n, LevelBegin depth ≤ n < LevelBegin (depth + 1) →
     let best := find_best_split b t a n in
     let H_L := hess (histogram_buffer b n (best_bin best) 0) in
     let H_R := hessian t n 0 -! H_L in
     if (eps <! best_gain best)
        && negb (H_L <=! dzero) && negb (H_R <=! dzero)
     then split_record b a t t' n
     else untouched t t' n).
Proof.
  intros Hd Hsized Hcap Hno t'.
  destruct (PerformBestSplit_post b depth t a Hd Hsized Hcap)
    as (_ & Hnode & Hrow & Hrec).
  fold t' in Hnode, Hrow, Hrec.
  split; [exact Hnode|]. split; [exact Hrow|].
  intros n Hn best H_L H_R.
  assert (split_applies b a t n
          = (eps <! best_gain best)
            && negb (H_L <=! dzero) && negb (H_R <=! dzero)) as Happ.
  { unfold split_applies. fold best.
    rewrite !vec_at_map_seqZ by lia. fold H_L H_R.
    by rewrite negb_orb, andb_assoc. }
  rewrite <- Happ.
  destruct (Hrec n Hn) as [[-> Hu]|[-> Hs]]; done.
Qed.

End LevelOfSplits.

(** ** The rows follow the tree *)

Section DecisionPaths.
Context {DA : DoubleArith}.

(** The node reached from the root after [k] decisions of the tree on row
    [i] of X, or -1 when the path has ended at a leaf before. *)
Fixpoint descend (t : Tree) (X : Store) (i : Z) (k : nat) : Z :=
  match k with
  | O => 0
  | S k' => next_position t X i (descend t X i k')
  end.

Lemma descend_in_level (t : Tree) (X : Store) (i : Z) (k : nat) :
  in_level (Z.of_nat k) (descend t X i k).
Proof.
  induction k as [|k IH]; simpl.
  - right. unfold LevelBegin. simpl. lia.
  - replace (Z.of_nat (S k)) with (Z.of_nat k + 1) by lia.
    apply next_position_in_level; [lia|done].
Qed.

(** A decision at node [p] reads the feature and the threshold of [p]. *)
Lemma next_position_ext (t t' : Tree) (X : Store) (i p : Z) :
  (0 ≤ p → same_node t t' (Z.to_nat p)) →
  next_position t' X i p = next_position t X i p.
Proof.
  intros Hsame. unfold next_position, IsLeaf.
  destruct (Z.ltb_spec p 0); [done|]. simpl.
  destruct (Hsame ltac:(lia)) as (Hf & Hs & _).
  unfold vec_at. rewrite !nth_lookup, Hf, Hs. done.
Qed.

Lemma descend_ext (t t' : Tree) (X : Store) (i : Z) (d k : nat) :
  (∀ j, Z.of_nat j < LevelBegin (Z.of_nat d) → same_node t t' j) →
  (k ≤ d)%nat → descend t' X i k = descend t X i k.
Proof.
  intros Hsame. induction k as [|k IH]; intros Hk; simpl; [done|].
  rewrite IH by lia. apply next_position_ext. intros Hp.
  apply Hsame.
  destruct (descend_in_level t X i k) as [Hneg|Hlev]; [lia|].
  pose proof (LevelBegin_mono (Z.of_nat k + 1) (Z.of_nat d) ltac:(lia)).
  lia.
Qed.

Lemma positions_descend (context : TaskContext) (d row : nat) :
  let X := in_X (inputs context) in
  LevelBegin (Z.of_nat d) ≤ max_nodes (scalars context) →
  lo0 (shape X) + Z.of_nat row ≤ hi0 (shape X) →
  positions (ls_builder (update_step context (Z.of_nat d)
                           (level_state context (Z.of_nat d)))) !! row
  = Some (descend (ls_tree (level_state context (Z.of_nat d))) X
            (lo0 (shape X) + Z.of_nat row) d).
Proof.
  intros X Hcap Hrow. induction d as [|d IH].
  - rewrite level_state_nonpositive by done. simpl.
    apply lookup_replicate_2. fold X. lia.
  - pose proof (LevelBegin_mono (Z.of_nat d) (Z.of_nat (S d)) ltac:(lia)).
    specialize (IH ltac:(lia)).
    change (positions (ls_builder (update_step context (Z.of_nat (S d))
                         (level_state context (Z.of_nat (S d))))))
      with (UpdatePositions (Z.of_nat (S d))
              (ls_tree (level_state context (Z.of_nat (S d)))) X
              (positions (ls_builder (level_state context (Z.of_nat (S d)))))).
    rewrite UpdatePositions_lookup by lia.
    assert (positions (ls_builder (level_state context (Z.of_nat (S d))))
            = positions (ls_builder (update_step context (Z.of_nat d)
                                       (level_state context (Z.of_nat d)))))
      as ->.
    { replace (Z.of_nat (S d)) with (Z.of_nat d + 1) by lia.
      rewrite level_state_succ by lia. apply split_step_positions. }
    rewrite IH. simpl.
    destruct (Z.ltb_spec (Z.of_nat row)
                (hi0 (shape X) - lo0 (shape X) + 1)); [|lia].
    f_equal. f_equal. symmetry.
    apply (descend_ext _ _ X _ d d); [|lia].
    destruct (level_state_frame context d 1) as (Hnode & _).
    { by replace (d + 1)%nat with (S d) by lia. }
    replace (d + 1)%nat with (S d) in Hnode by lia.
    intros j Hj. apply Hnode. by left.
Qed.

(** X7.  The position [UpdatePositions] gives a row at a depth [d] the loop
    reaches is the node that the tree that is built reaches from the root
    after [d] decisions on that row, or -1 when the path has ended at a leaf
    before: the splits made at later depths do not change the path. *)
Theorem positions_follow_tree (context : TaskContext) (d row : nat) :
  let sc := scalars context in
  let X := in_X (inputs context) in
  2 ^ (max_depth sc + 1) - 1 ≤ max_nodes sc →
  Z.of_nat d < max_depth sc →
  lo0 (shape X) + Z.of_nat row ≤ hi0 (shape X) →
  positions (ls_builder (update_step context (Z.of_nat d)
                           (level_state context (Z.of_nat d)))) !! row
  = Some (descend (build_tree context) X (lo0 (shape X) + Z.of_nat row) d).
Proof.
  intros sc X Hfit Hd Hrow. rewrite build_tree_level. fold sc.
  set (D := Z.to_nat (max_depth sc)).
  pose proof (LevelBegin_mono (Z.of_nat D) (max_depth sc + 1) ltac:(lia))
    as Hm1.
  pose proof (LevelBegin_mono (Z.of_nat d) (Z.of_nat D) ltac:(lia)) as Hm2.
  assert (LevelBegin (Z.of_nat D) ≤ max_nodes sc) as Hcap
    by (unfold LevelBegin in *; lia).
  rewrite positions_descend by (fold sc X; lia).
  f_equal. symmetry. apply (descend_ext _ _ X _ d d); [|lia].
  destruct (level_state_frame context d (D - d)) as (Hnode & _).
  { replace (d + (D - d))%nat with D by lia. done. }
  replace (d + (D - d))%nat with D in Hnode by lia.
  intros j Hj. apply Hnode. by left.
Qed.

End DecisionPaths.

(** ** Where the thresholds come from *)

Section SampledThresholds.
Context {DA : DoubleArith}.

(** What one shard contributes to the draft for sample [i] and feature [j]:
    the feature value of the sampled row when it holds the row, 0 when it
    does not. *)
Definition sampled (context : TaskContext) (X : Store) (i j : Z) : double :=
  let row := dist_eng context i in
  if (lo0 (shape X) <=? row) && (row <=? hi0 (shape X))
  then acc X row j 0 else dzero.

(** The draft after [SumAllReduce]. *)
Definition draft_value (context : TaskContext) (X : Store) (j i : Z)
  : double :=
  SumAllReduce (sampled context X i j)
    (map (λ p, sampled context (in_X p) i j) (peers context)).

Lemma draft_proposals_local_spec (context : TaskContext) (X : Store)
  (nf ss : Z) (j i : Z) :
  0 ≤ i < ss → 0 ≤ j < nf →
  draft_proposals_local X nf ss (map (dist_eng context) (seqZ 0 ss)) j i
  = sampled context X i j.
Proof.
  intros Hi Hj. unfold draft_proposals_local.
  set (rows := map (dist_eng context) (seqZ 0 ss)).
  pose (cell := λ i j : Z,
    if (lo0 (shape X) <=? vec_at 0 rows i) && (vec_at 0 rows i <=? hi0 (shape X))
    then acc X (vec_at 0 rows i) j 0 else dzero).
  assert (∀ m, 0 ≤ m ≤ ss →
            ∀ j' i', 0 ≤ i' < m → 0 ≤ j' < nf →
              for_range 0 m
                (λ i draft,
                   for_range 0 nf
                     (λ j draft,
                        upd2 draft j i
                          (if (lo0 (shape X) <=? vec_at 0 rows i)
                              && (vec_at 0 rows i <=? hi0 (shape X))
                           then acc X (vec_at 0 rows i) j 0 else dzero))
                     draft)
                (λ _ _, dzero) j' i' = cell i' j') as Hgen.
  { intros m Hm.
    apply (for_range_invariant
      (λ m draft, ∀ j' i', 0 ≤ i' < m → 0 ≤ j' < nf →
                   draft j' i' = cell i' j')); [lia| |].
    - intros; lia.
    - intros k draft Hk Hdraft j' i' Hi' Hj'.
      assert (∀ n, 0 ≤ n ≤ nf →
                ∀ j'' i'',
                  for_range 0 n
                    (λ j draft,
                       upd2 draft j k
                         (if (lo0 (shape X) <=? vec_at 0 rows k)
                             && (vec_at 0 rows k <=? hi0 (shape X))
                          then acc X (vec_at 0 rows k) j 0 else dzero))
                    draft j'' i''
                  = if (i'' =? k) && (0 <=? j'') && (j'' <? n)
                    then cell k j'' else draft j'' i'') as Hinner.
      { intros n Hn.
        apply (for_range_invariant
          (λ n d', ∀ j'' i'',
             d' j'' i'' = if (i'' =? k) && (0 <=? j'') && (j'' <? n)
                          then cell k j'' else draft j'' i'')); [lia| |].
        - intros j'' i''.
          destruct (i'' =? k), (Z.leb_spec 0 j''), (Z.ltb_spec j'' 0);
            simpl; try done; lia.
        - intros q d' Hq Hd' j'' i''. unfold upd2. rewrite Hd'.
          destruct (Z.eqb_spec j'' q), (Z.eqb_spec i'' k),
            (Z.leb_spec 0 j''), (Z.ltb_spec j'' q),
            (Z.ltb_spec j'' (q + 1)); simpl; subst; try done; lia. }
      rewrite (Hinner nf ltac:(lia)).
      destruct (Z.eqb_spec i' k) as [->|Hne],
        (Z.leb_spec 0 j'), (Z.ltb_spec j' nf); simpl; try lia; try done.
      apply Hdraft; lia. }
  rewrite (Hgen ss ltac:(lia) j i Hi Hj). unfold cell, sampled.
  assert (vec_at 0 rows i = dist_eng context i) as ->; [|done].
  unfold rows. apply vec_at_map_seqZ. lia.
Qed.

Lemma set_insert_elem (x y : double) (s : list double) :
  y ∈ set_insert x s → y = x ∨ y ∈ s.
Proof.
  induction s as [|z s IH]; simpl.
  - intros Hy. apply list_elem_of_singleton in Hy. by left.
  - destruct (z <! x).
    + intros [->|Hy]%elem_of_cons; [right; by left|].
      destruct (IH Hy) as [->|?]; [by left|right; by right].
    + destruct (x <! z); [|by right].
      intros [->|Hy]%elem_of_cons; [by left|by right].
Qed.

Lemma set_insert_nonempty (x : double) (s : list double) :
  set_insert x s ≠ [].
Proof. destruct s as [|z s]; simpl; [done|]. by destruct (z <! x), (x <! z). Qed.

(** The set holds values of the range only, and is empty only when the
    range is. *)
Lemma set_of_range_elem (values : list double) (y : double) :
  y ∈ set_of_range values → y ∈ values.
Proof.
  unfold set_of_range.
  assert (∀ s, y ∈ foldl (λ s x, set_insert x s) s values →
               y ∈ s ∨ y ∈ values) as Hgen.
  { induction values as [|x values IH]; intros s; simpl; [by left|].
    intros Hy. destruct (IH _ Hy) as [Hin|Hin]; [|right; by right].
    destruct (set_insert_elem _ _ _ Hin) as [->|?]; [right; by left|by left]. }
  intros Hy. destruct (Hgen [] Hy) as [Hin|?]; [|done].
  by apply elem_of_nil in Hin.
Qed.

Lemma set_of_range_nonempty (values : list double) :
  values ≠ [] → set_of_range values ≠ [].
Proof.
  unfold set_of_range.
  assert (∀ s, s ≠ [] ∨ values ≠ [] →
               foldl (λ s x, set_insert x s) s values ≠ []) as Hgen.
  { induction values as [|x values IH]; intros s Hs; simpl.
    - by destruct Hs.
    - apply IH. left. apply set_insert_nonempty. }
  intros Hv. apply Hgen. by right.
Qed.

(** The table [SelectSplitSamples] returns, feature by feature: the row
    pointers of feature [f] delimit the set of its draft values. *)
Lemma SelectSplitSamples_segments (context : TaskContext) (X : Store)
  (split_samples seed dataset_rows : Z) :
  let sp := SelectSplitSamples context X split_samples seed dataset_rows in
  let nf := hi1 (shape X) - lo1 (shape X) + 1 in
  0 ≤ nf → nf * Z.max split_samples 0 < 2 ^ 31 →
  ∀ f, 0 ≤ f < nf →
    let U := set_of_range
               (map (draft_value context X f) (seqZ 0 split_samples)) in
    0 ≤ vec_at 0 (row_pointers sp) f ∧
    vec_at 0 (row_pointers sp) (f + 1)
    = vec_at 0 (row_pointers sp) f + Z.of_nat (length U) ∧
    ∀ k, (k < length U)%nat →
      split_proposals sp !! (Z.to_nat (vec_at 0%Z (row_pointers sp) f) + k)%nat
      = U !! k.
Proof.
  intros sp nf Hnf Hbound. subst sp. unfold SelectSplitSamples. fold nf.
  set (M := Z.max split_samples 0) in *.
  match goal with
  | |- context [for_range 0 nf ?bd ?i0] => set (body := bd); set (init := i0)
  end.
  pose (U := λ f, set_of_range
                    (map (draft_value context X f) (seqZ 0 split_samples))).
  assert (∀ j, Z.of_nat (length (U j)) ≤ M) as HUlen.
  { intros j. unfold U.
    match goal with
    | |- context [set_of_range ?v] =>
        destruct (set_of_range_spec v) as [_ Hl]
    end.
    rewrite length_map, length_seqZ in Hl. lia. }
  assert (∀ j st, 0 ≤ j < nf →
            body j st
            = (vec_set st.1 (j + 1)
                 (to_int32 (vec_at 0 st.1 j + Z.of_nat (length (U j)))),
               st.2 ++ U j)) as Hbody.
  { intros j [rp tmp] Hj. unfold body, U. simpl.
    assert (map (λ i,
              SumAllReduce
                (draft_proposals_local X nf split_samples
                   (map (dist_eng context) (seqZ 0 split_samples)) j i)
                (map (λ d : Z → Z → double, d j i)
                   (map (λ p, draft_proposals_local (in_X p) nf split_samples
                                (map (dist_eng context)
                                   (seqZ 0 split_samples)))
                      (peers context))))
              (seqZ 0 split_samples)
            = map (draft_value context X j) (seqZ 0 split_samples)) as ->;
      [|done].
    apply map_ext_in. intros i Hi.
    apply list_elem_of_In, elem_of_seqZ in Hi. unfold draft_value.
    rewrite draft_proposals_local_spec by lia. f_equal.
    rewrite map_map. apply map_ext. intros p.
    by rewrite draft_proposals_local_spec by lia. }
  pose (Inv := λ (j : Z) (st : list Z * list double),
    let rp := st.1 in let tmp := st.2 in
    length rp = Z.to_nat (nf + 1) ∧
    vec_at 0 rp j = Z.of_nat (length tmp) ∧
    Z.of_nat (length tmp) ≤ j * M ∧
    ∀ f, 0 ≤ f < j →
      0 ≤ vec_at 0 rp f ∧
      vec_at 0 rp (f + 1) = vec_at 0 rp f + Z.of_nat (length (U f)) ∧
      vec_at 0 rp (f + 1) ≤ Z.of_nat (length tmp) ∧
      ∀ k, (k < length (U f))%nat →
        tmp !! (Z.to_nat (vec_at 0%Z rp f) + k)%nat = U f !! k).
  assert (Inv nf (for_range 0 nf body init)) as Hfinal.
  { apply (for_range_invariant Inv); [done| |].
    - unfold Inv, init. simpl. rewrite length_vec_set, length_replicate.
      split; [done|]. split; [|split; [lia|intros; lia]].
      unfold vec_at, vec_set. rewrite nth_lookup.
      destruct (Z.to_nat (nf + 1)) eqn:?; [lia|]. done.
    - intros j [rp tmp] Hj (Hlen & Hj' & Hsz & Hseg).
      simpl in Hlen, Hj', Hsz, Hseg. rewrite (Hbody j _ Hj). simpl.
      pose proof (HUlen j) as HuM.
      assert (to_int32 (vec_at 0 rp j + Z.of_nat (length (U j)))
              = Z.of_nat (length tmp) + Z.of_nat (length (U j))) as ->.
      { rewrite Hj'. apply to_int32_small. nia. }
      assert (∀ f, 0 ≤ f ≤ j →
                vec_at 0 (vec_set rp (j + 1)
                  (Z.of_nat (length tmp) + Z.of_nat (length (U j)))) f
                = vec_at 0 rp f) as Hold.
      { intros f Hf. apply vec_at_set_ne; lia. }
      assert (vec_at 0 (vec_set rp (j + 1)
                (Z.of_nat (length tmp) + Z.of_nat (length (U j)))) (j + 1)
              = Z.of_nat (length tmp) + Z.of_nat (length (U j))) as Hnew.
      { apply vec_at_set_eq. lia. }
      unfold Inv. simpl. split; [by rewrite length_vec_set|].
      split; [rewrite Hnew, length_app; lia|].
      split; [rewrite length_app; nia|].
      intros f Hf. destruct (decide (f = j)) as [->|Hne].
      + rewrite Hnew, Hold by lia. rewrite Hj', length_app.
        split; [lia|]. split; [done|]. split; [lia|].
        intros k Hk. rewrite Nat2Z.id.
        rewrite lookup_app_r by lia. f_equal. lia.
      + rewrite !Hold by lia.
        destruct (Hseg f ltac:(lia)) as (H0 & Hnext & Hle & Hlk).
        split; [done|]. split; [done|]. rewrite length_app.
        split; [lia|]. intros k Hk.
        rewrite lookup_app_l by lia. by apply Hlk. }
  destruct (for_range 0 nf body init) as [rp tmp].
  destruct Hfinal as (_ & _ & _ & Hseg). simpl in Hseg |- *.
  intros f Hf. destruct (Hseg f Hf) as (H0 & Hnext & _ & Hlk). done.
Qed.

(** X8.  Every threshold of a feature is one of the values drafted for it: the
    all-reduced feature value of a sampled row. *)
Theorem thresholds_are_samples (context : TaskContext) (X : Store)
  (split_samples seed dataset_rows : Z) (f bin : Z) :
  let sp := SelectSplitSamples context X split_samples seed dataset_rows in
  let nf := hi1 (shape X) - lo1 (shape X) + 1 in
  0 ≤ nf → nf * Z.max split_samples 0 < 2 ^ 31 →
  0 ≤ f < nf →
  vec_at 0 (row_pointers sp) f ≤ bin < vec_at 0 (row_pointers sp) (f + 1) →
  ∃ i, 0 ≤ i < split_samples ∧
       vec_at dzero (split_proposals sp) bin = draft_value context X f i.
Proof.
  intros sp nf Hnf Hbound Hf Hbin.
  destruct (SelectSplitSamples_segments context X split_samples seed
              dataset_rows Hnf Hbound f Hf) as (H0 & Hnext & Hlk).
  fold sp in H0, Hnext, Hlk.
  set (U := set_of_range
              (map (draft_value context X f) (seqZ 0 split_samples))) in *.
  specialize (Hlk (Z.to_nat (bin - vec_at 0 (row_pointers sp) f))
                ltac:(lia)).
  replace (Z.to_nat (vec_at 0%Z (row_pointers sp) f)
           + Z.to_nat (bin - vec_at 0%Z (row_pointers sp) f)%Z)%nat
    with (Z.to_nat bin) in Hlk by lia.
  destruct (U !! Z.to_nat (bin - vec_at 0 (row_pointers sp) f)) as [y|]
    eqn:Hy.
  2:{ apply lookup_ge_None in Hy. lia. }
  apply list_elem_of_lookup_2, set_of_range_elem, list_elem_of_In in Hy.
  apply in_map_iff in Hy as (i & <- & Hi).
  apply list_elem_of_In, elem_of_seqZ in Hi.
  exists i. split; [lia|]. unfold vec_at. by apply nth_lookup_Some.
Qed.

(** X9.  A feature gets at most [split_samples] thresholds, and at least one as
    soon as a sample is drawn. *)
Theorem thresholds_per_feature (context : TaskContext) (X : Store)
  (split_samples seed dataset_rows : Z) (f : Z) :
  let sp := SelectSplitSamples context X split_samples seed dataset_rows in
  let nf := hi1 (shape X) - lo1 (shape X) + 1 in
  let count := vec_at 0 (row_pointers sp) (f + 1)
               - vec_at 0 (row_pointers sp) f in
  0 ≤ nf → nf * Z.max split_samples 0 < 2 ^ 31 →
  0 ≤ f < nf →
  0 ≤ count ≤ Z.max split_samples 0 ∧ (0 < split_samples → 1 ≤ count).
Proof.
  intros sp nf count Hnf Hbound Hf.
  destruct (SelectSplitSamples_segments context X split_samples seed
              dataset_rows Hnf Hbound f Hf) as (H0 & Hnext & _).
  fold sp in H0, Hnext. subst count. rewrite Hnext.
  match goal with
  | |- context [set_of_range ?v] =>
      destruct (set_of_range_spec v) as [_ Hl];
      pose proof (set_of_range_nonempty v) as Hne
  end.
  rewrite length_map, length_seqZ in Hl.
  split; [lia|]. intros Hs.
  match goal with
  | |- context [set_of_range ?v] => destruct (set_of_range v) eqn:Hu
  end; [|simpl; lia].
  exfalso. apply Hne; [|done]. intros Hnil.
  apply (f_equal length) in Hnil. rewrite length_map, length_seqZ in Hnil.
  simpl in Hnil. lia.
Qed.

End SampledThresholds.

(** ** Runs without thresholds *)

Section NoThresholds.
Context {DA : DoubleArith} {DL : DoubleLaws DA}.

(** X10.  With [split_samples = 0] no row is sampled, no feature gets a
    threshold, the search has no candidate, and no node is ever split:
    whatever [max_depth], the tree that is built is the root alone. *)
Theorem no_samples_no_splits (context : TaskContext) (n : Z) :
  let sc := scalars context in
  let X := in_X (inputs context) in
  0 ≤ max_depth sc → 2 ^ (max_depth sc + 1) - 1 ≤ max_nodes sc →
  0 ≤ hi1 (shape X) - lo1 (shape X) + 1 →
  split_samples sc = 0 →
  ¬ internal (build_tree context) n.
Proof.
  intros sc X Hd Hfit Hnf Hss Hint.
  rewrite build_tree_level in Hint. fold sc in Hint.
  set (D := Z.to_nat (max_depth sc)) in *.
  pose proof (LevelBegin_mono (Z.of_nat D) (max_depth sc + 1) ltac:(lia))
    as Hmono.
  assert (LevelBegin (Z.of_nat D) ≤ max_nodes sc) as Hcap
    by (unfold LevelBegin in *; lia).
  destruct (grown_tree_record context D n Hcap Hint)
    as (j & b & t & _ & _ & Hc & _ & Hrec).
  pose proof (split_record_candidate _ _ _ _ _ Hrec) as [Hf Hbin].
  destruct Hc as (_ & Hnf' & _ & _ & Hsp). rewrite Hsp in Hbin.
  rewrite Hnf' in Hf. simpl in Hf, Hbin. fold sc X in Hf, Hbin.
  set (f := best_feature (find_best_split b t (alpha sc) n)) in *.
  destruct (SelectSplitSamples_segments context X (split_samples sc)
              (seed sc) (dataset_rows sc) Hnf ltac:(rewrite Hss; lia) f Hf)
    as (_ & Hnext & _).
  rewrite Hss in Hnext at 3. simpl in Hnext. lia.
Qed.

End NoThresholds.

(** ** The histograms of the nodes that hold rows *)

Section LiveHistograms.
Context {DA : DoubleArith} {DL : DoubleLaws DA} {EL : ExactLaws DA}.

(** X11.  In arithmetic without rounding, when [ComputeHistogram(d)] has run,
    every node of level [d] that holds rows (the root at depth 0, a child
    of a split node at a depth [d ≥ 1], whether built from its rows or
    derived from its sibling) has, in every bin of every feature and for
    every output, the sum of the gradient pairs of its rows of all shards
    whose feature value falls in the bins of the feature up to that one:
    the rows of the other nodes of the level leave no trace in it. *)
Theorem live_nodes_histograms (context : TaskContext) (d c f bin o : Z) :
  let own := inputs context in
  let sc := scalars context in
  let nf := hi1 (shape (in_X own)) - lo1 (shape (in_X own)) + 1 in
  let st := update_step context d (level_state context d) in
  let tree := ls_tree st in
  let b := ls_builder st in
  let pps := ls_peer_positions st in
  let b' := ComputeHistogram b d context tree pps in
  0 ≤ nf → nf * Z.max (split_samples sc) 0 < 2 ^ 31 →
  lo2 (shape (in_g own)) ≤ hi2 (shape (in_g own)) →
  LevelBegin d ≤ max_nodes sc →
  0 ≤ d → LevelBegin d ≤ c < LevelBegin (d + 1) →
  c = 0 ∨ internal tree (Parent c) →
  candidate b f bin → 0 ≤ o < num_outputs b →
  histogram_buffer b' c bin o = direct_histogram b context pps c bin o.
Proof.
  intros own sc nf st tree b pps b' Hnf Hbound Hout Hcap Hd Hc Hlive
    Hcand Ho.
  assert (builder_wf (ls_builder (initial_state context))) as Hwf0.
  { destruct (SelectSplitSamples_spec context (in_X own) (split_samples sc)
                (seed sc) (dataset_rows sc) Hnf Hbound) as (Hn & Hwf & _).
    split; [exact Hwf|exact Hn]. }
  assert (0 < num_outputs (ls_builder (initial_state context))) as Hout0.
  { simpl. fold own. lia. }
  assert (builder_wf b) as Hwf.
  { eapply builder_wf_same_constants; [|exact Hwf0].
    apply update_step_constants. }
  pose proof (positions_ok_after_update context (Z.to_nat d)) as Hpos.
  pose proof (hist_inv_level context (LevelBegin d) (Z.to_nat d) Hwf0 Hout0
                Hcap) as Hinv.
  rewrite Z2Nat.id in Hpos, Hinv by lia.
  specialize (Hinv ltac:(lia)). fold st in Hpos, Hinv.
  rewrite (direct_histogram_spec b context pps c f bin o Hwf Hcand Ho).
  apply (children_histograms context (LevelBegin d) d st Hwf Hd Hpos Hinv);
    [done| |done|done].
  destruct Hlive as [->|Hp]; [by left|].
  destruct (decide (c = 0)) as [->|Hc0]; [by left|].
  right. split; [|done]. pose proof (LevelBegin_nonneg d Hd). lia.
Qed.

End LiveHistograms.

(** ** The rows a run indexes *)

Section RowsInBounds.
Context {DA : DoubleArith}.













End RowsInBounds.

(** ** A task that completes *)

Section CompletedRuns.
Context {DA : DoubleArith}.






End CompletedRuns.

(** ** AddSplit and the outputs *)

Section SplitAndOutputs.
Context {DA : DoubleArith}.

(** X12.  After [AddSplit] at a node of the tree, [IsLeaf] answers for that node
    by the feature just written (a leaf exactly when the feature is -1) and
    for every other node as before: the children of the node are still
    leaves if they were. *)
Theorem AddSplit_then_IsLeaf (t : Tree) (n f : Z) (sv : double)
  (ll rl : list double) (gn : double) (gl gr hl hr : list double) (m : Z) :
  0 ≤ n < Z.of_nat (length (feature t)) → 0 ≤ m →
  IsLeaf (AddSplit t n f sv ll rl gn gl gr hl hr) m
  = if m =? n then f =? -1 else IsLeaf t m.
Proof.
  intros Hn Hm.
  destruct (AddSplit_spec t n f sv ll rl gn gl gr hl hr) as (Hf & _).
  unfold IsLeaf. rewrite Hf.
  destruct (Z.eqb_spec m n) as [->|Hne].
  - by rewrite vec_at_set_eq.
  - by rewrite vec_at_set_ne by lia.
Qed.




End SplitAndOutputs.

(** ** Scan and ComputeHistogram in the arithmetic of the code *)

Section HistogramLevel.
Context {DA : DoubleArith}.

(** A row adds to the histogram of the node it is at, and to no other. *)
Lemma add_row_frame (b : TreeBuilder) (X g h : Store) (i position : Z)
  (hb : Histogram) (n bin o : Z) :
  n ≠ position → add_row b X g h i position hb n bin o = hb n bin o.
Proof.
  intros Hne. unfold add_row.
  destruct (decide (0 ≤ num_features b)) as [Hn|Hn];
    [|by rewrite for_range_empty by lia].
  apply (for_range_invariant (λ _ r, r n bin o = hb n bin o)); [done|done|].
  intros j r _ Hr. destruct (negb _); [|done].
  rewrite add_outputs_spec. destruct (Z.eqb_spec n position); [done|]. done.
Qed.

Lemma build_histogram_frame (b : TreeBuilder) (depth : Z) (tree : Tree)
  (s : Shard) (ps : list Z) (hb : Histogram) (n bin o : Z) :
  shard_positions_ok depth s ps →
  n < LevelBegin depth ∨ LevelBegin (depth + 1) ≤ n → 0 ≤ depth →
  build_histogram b depth tree s ps hb n bin o = hb n bin o.
Proof.
  intros [Hlen Hall] Hn Hd. unfold build_histogram.
  set (lo := lo0 (shape (in_X s))). set (hi := hi0 (shape (in_X s))).
  destruct (decide (lo ≤ hi + 1)) as [Hle|Hgt];
    [|by rewrite for_range_empty by lia].
  apply (for_range_invariant (λ _ r, r n bin o = hb n bin o)); [done|done|].
  intros i r Hi Hr. cbv zeta. unfold histogram_row.
  destruct ((_ <? 0) || _) eqn:Hskip; [done|].
  rewrite add_row_frame; [done|].
  apply orb_false_iff in Hskip as [Hneg _].
  apply Z.ltb_ge in Hneg.
  unfold shard_rows in Hlen. fold lo hi in Hlen.
  assert (∃ p, ps !! Z.to_nat (i - lo) = Some p) as [p Hp]
    by (apply lookup_lt_is_Some; lia).
  unfold vec_at in *. rewrite (nth_lookup_Some _ _ _ _ Hp) in *.
  rewrite Forall_forall in Hall.
  destruct (Hall p) as [->|Hlev]; [|lia|lia].
  by eapply list_elem_of_lookup_2.
Qed.

(** X14.  [Scan] in the arithmetic of the code.  At depth 0 the histogram of the
    root becomes, within each feature, the running sums of its bins taken
    in bin order from [{0.0, 0.0}].  At a depth [>= 1], for every node [p]
    of the level above, the child that [SelectHistogramNode] names first
    becomes the running sums of its own bins, and the other child becomes
    the histogram of [p] minus those running sums.  The histograms of the
    nodes outside the level are not written. *)
Theorem Scan_scans_and_subtracts (b : TreeBuilder) (depth : Z) (tree : Tree) :
  builder_wf b → 0 ≤ depth →
  let hb := histogram_buffer b in
  let hb' := histogram_buffer (Scan b depth tree) in
  let running f bin o n :=
    gsum_range (fst (FeatureRange (tb_split_proposals b) f)) (bin + 1)
      (λ b', hb n b' o) in
  (∀ n bin o, n < LevelBegin depth ∨ LevelBegin (depth + 1) ≤ n →
     hb' n bin o = hb n bin o) ∧
  (depth = 0 → ∀ f bin o, candidate b f bin → 0 ≤ o < num_outputs b →
     hb' 0 bin o = running f bin o 0) ∧
  (1 ≤ depth → ∀ p f bin o,
     LevelBegin (depth - 1) ≤ p < LevelBegin depth →
     candidate b f bin → 0 ≤ o < num_outputs b →
     let hn := fst (SelectHistogramNode p (hessian tree)) in
     let sn := snd (SelectHistogramNode p (hessian tree)) in
     hb' hn bin o = running f bin o hn ∧
     hb' sn bin o = gsub (hb p bin o) (running f bin o hn)).
Proof.
  intros Hwf Hd hb hb' running.
  destruct (decide (depth = 0)) as [->|Hd0].
  - subst hb'. unfold Scan. simpl. fold hb.
    destruct (scan_node_histogram_spec b 0 hb Hwf) as [Hscan Hframe].
    split; [|split; [|intros; lia]].
    + intros n bin o Hn. apply Hframe.
      change (LevelBegin 0) with 0 in Hn.
      change (LevelBegin (0 + 1)) with 1 in Hn. lia.
    + intros _ f bin o Hc Ho. by apply Hscan.
  - destruct (Scan_spec b depth tree Hwf ltac:(lia)) as [Hframe Hsub].
    split; [exact Hframe|]. split; [done|].
    intros _ p f bin o Hp Hc Ho. exact (Hsub p f bin o Hp Hc Ho).
Qed.

(** X15.  [ComputeHistogram(depth)] writes the histograms of the nodes of level
    [depth] and no others: the scanned histograms of the levels above, which
    the subtraction reads, stay as they are. *)
Theorem ComputeHistogram_writes_level (b : TreeBuilder) (depth : Z)
  (context : TaskContext) (tree : Tree) (pps : list (list Z)) (n bin o : Z) :
  builder_wf b → 0 ≤ depth →
  level_positions context depth (positions b) pps →
  n < LevelBegin depth ∨ LevelBegin (depth + 1) ≤ n →
  histogram_buffer (ComputeHistogram b depth context tree pps) n bin o
  = histogram_buffer b n bin o.
Proof.
  intros Hwf Hd [Hown Hpeers] Hn. unfold ComputeHistogram.
  set (reduced := λ node bin output : Z,
         if in_level_slab _ _ _ _ _ then _ else _).
  pose proof (LevelBegin_end depth Hd) as Hend.
  assert (histogram_buffer (Scan (with_histogram b reduced) depth tree) n bin o
          = reduced n bin o) as ->.
  { destruct (decide (depth = 0)) as [->|Hd0].
    - unfold Scan. simpl.
      destruct (scan_node_histogram_spec (with_histogram b reduced) 0 reduced
                  Hwf) as [_ Hframe].
      apply Hframe. change (LevelBegin 0) with 0 in Hn.
      change (LevelBegin (0 + 1)) with 1 in Hn. lia.
    - destruct (Scan_spec (with_histogram b reduced) depth tree Hwf
                  ltac:(lia)) as [Hframe _].
      by apply Hframe. }
  unfold reduced, in_level_slab.
  destruct (Z.leb_spec (LevelBegin depth) n),
    (Z.ltb_spec n (LevelBegin depth + NodesInLevel depth));
    simpl; try lia; by apply build_histogram_frame.
Qed.

End HistogramLevel.

(** ** Every sample is represented *)

Section RepresentedSamples.
Context {DA : DoubleArith} {DL : DoubleLaws DA}.

Lemma set_insert_keeps (x y : double) (s : list double) :
  y ∈ s → y ∈ set_insert x s.
Proof.
  induction s as [|z s IH]; simpl; [by intros ?%elem_of_nil|].
  intros [->|Hy]%elem_of_cons.
  - destruct (z <! x); [by left|]. destruct (x <! z); [right|]; by left.
  - destruct (z <! x); [right; by apply IH|].
    destruct (x <! z); [right|]; by right.
Qed.

(** After the insertion of [x] the set holds a key that is neither less
    nor greater than [x]: [x] itself, or the key that was there. *)
Lemma set_insert_represents (x : double) (s : list double) :
  ∃ y, y ∈ set_insert x s ∧ y <! x = false ∧ x <! y = false.
Proof.
  induction s as [|z s (y & Hy & Hyx & Hxy)]; simpl.
  - exists x. split; [by left|]. by rewrite ltb_irrefl.
  - destruct (z <! x) eqn:Hzx.
    + exists y. split; [by right|done].
    + destruct (x <! z) eqn:Hxz.
      * exists x. split; [by left|]. by rewrite ltb_irrefl.
      * exists z. split; [by left|done].
Qed.

Lemma set_of_range_represents (values : list double) (v : double) :
  v ∈ values →
  ∃ y, y ∈ set_of_range values ∧ y <! v = false ∧ v <! y = false.
Proof.
  unfold set_of_range.
  assert (∀ s,
            v ∈ values ∨ (∃ y, y ∈ s ∧ y <! v = false ∧ v <! y = false) →
            ∃ y, y ∈ foldl (λ s x, set_insert x s) s values
                 ∧ y <! v = false ∧ v <! y = false) as Hgen.
  { induction values as [|x values IH]; intros s Hs; simpl.
    - destruct Hs as [Hv|?]; [by apply elem_of_nil in Hv|done].
    - apply IH. destruct Hs as [[->|Hv]%elem_of_cons|(y & Hy & Heq)].
      + right. apply set_insert_represents.
      + by left.
      + right. exists y. split; [by apply set_insert_keeps|done]. }
  intros Hv. apply Hgen. by left.
Qed.

(** X16.  Every value drafted for a feature is represented among its
    thresholds: some threshold of the feature is neither less nor greater
    than it. *)
Theorem samples_have_thresholds (context : TaskContext) (X : Store)
  (split_samples seed dataset_rows : Z) (f i : Z) :
  let sp := SelectSplitSamples context X split_samples seed dataset_rows in
  let nf := hi1 (shape X) - lo1 (shape X) + 1 in
  0 ≤ nf → nf * Z.max split_samples 0 < 2 ^ 31 →
  0 ≤ f < nf → 0 ≤ i < split_samples →
  ∃ bin,
    vec_at 0 (row_pointers sp) f ≤ bin < vec_at 0 (row_pointers sp) (f + 1) ∧
    vec_at dzero (split_proposals sp) bin <! draft_value context X f i = false ∧
    draft_value context X f i <! vec_at dzero (split_proposals sp) bin = false.
Proof.
  intros sp nf Hnf Hbound Hf Hi.
  destruct (SelectSplitSamples_segments context X split_samples seed
              dataset_rows Hnf Hbound f Hf) as (H0 & Hnext & Hlk).
  fold sp in H0, Hnext, Hlk.
  set (U := set_of_range
              (map (draft_value context X f) (seqZ 0 split_samples))) in *.
  destruct (set_of_range_represents
              (map (draft_value context X f) (seqZ 0 split_samples))
              (draft_value context X f i)) as (y & Hy & Hyv & Hvy).
  { apply list_elem_of_In, in_map, list_elem_of_In, elem_of_seqZ. lia. }
  fold U in Hy. apply list_elem_of_lookup_1 in Hy as [k Hk].
  pose proof (lookup_lt_Some _ _ _ Hk) as Hlt.
  exists (vec_at 0 (row_pointers sp) f + Z.of_nat k). split; [lia|].
  assert (vec_at dzero (split_proposals sp)
            (vec_at 0 (row_pointers sp) f + Z.of_nat k) = y) as ->; [|done].
  unfold vec_at at 1. apply nth_lookup_Some.
  replace (Z.to_nat (vec_at 0 (row_pointers sp) f + Z.of_nat k))
    with (Z.to_nat (vec_at 0%Z (row_pointers sp) f) + k)%nat by lia.
  rewrite Hlk by done. exact Hk.
Qed.

End RepresentedSamples.

(** ** The nodes that are not split *)

Section UnsplitNodes.
Context {DA : DoubleArith} {DL : DoubleLaws DA}.

Lemma split_record_internal (b : TreeBuilder) (a : double) (t t' : Tree)
  (n : Z) :
  0 ≤ n → split_record b a t t' n → internal t' n.
Proof.
  intros Hn Hrec.
  pose proof (split_record_candidate _ _ _ _ _ Hrec) as [Hf _].
  destruct Hrec as (_ & Hfn & _).
  split; [done|]. eexists. split; [exact Hfn|lia].
Qed.

(** A node of the tree at depth [D] that is not split is as the
    constructor and [InitialiseRoot] left it, and so are the rows of its
    children. *)
Lemma grown_tree_leaf (context : TaskContext) (D : nat) (n : Z) :
  LevelBegin (Z.of_nat D) ≤ max_nodes (scalars context) →
  let tree := ls_tree (level_state context (Z.of_nat D)) in
  0 ≤ n → ¬ internal tree n →
  untouched (ls_tree (initial_state context)) tree n.
Proof.
  induction D as [|D IH]; intros Hcap tree Hn Hleaf; subst tree.
  - rewrite level_state_nonpositive by done.
    split; [apply same_node_refl|]. split; apply same_row_refl.
  - pose proof (LevelBegin_mono (Z.of_nat D) (Z.of_nat (S D)) ltac:(lia))
      as Hmono.
    pose proof (LevelBegin_succ (Z.of_nat D) ltac:(lia)) as Hs1.
    pose proof (LevelBegin_succ (Z.of_nat D + 1) ltac:(lia)) as Hs2.
    replace (Z.of_nat D + 1 + 1) with (Z.of_nat D + 2) in Hs2 by lia.
    specialize (IH ltac:(lia)). cbv zeta in IH.
    destruct (level_state_lengths context D ltac:(lia))
      as (_ & Hsized & Hmax).
    rewrite level_state_tree_succ in Hleaf |- *.
    set (t := ls_tree (level_state context (Z.of_nat D))) in *.
    match goal with
    | |- context [PerformBestSplit ?b0 ?dp t ?a] => set (b := b0) in *
    end.
    destruct (PerformBestSplit_post b (Z.of_nat D) t (alpha (scalars context))
                ltac:(lia) Hsized) as (_ & Hnode & Hrow & Hrec).
    { replace (Z.of_nat D + 1) with (Z.of_nat (S D)) by lia. lia. }
    set (t' := PerformBestSplit b (Z.of_nat D) t (alpha (scalars context)))
      in *.
    assert (untouched t t' n) as Hun.
    { destruct (decide (LevelBegin (Z.of_nat D) ≤ n
                        < LevelBegin (Z.of_nat D + 1))) as [Hlev|Hlev].
      - destruct (Hrec n Hlev) as [[_ Hu]|[_ Hs]]; [done|].
        by apply split_record_internal in Hs.
      - split; [apply Hnode; lia|].
        split; apply Hrow; unfold LeftChild, RightChild; lia. }
    assert (¬ internal t n) as Hleaf'.
    { intros (_ & f & Hfn & Hne). apply Hleaf. split; [done|].
      exists f. destruct Hun as ((Hf & _) & _). split; [congruence|done]. }
    destruct (IH Hn Hleaf') as (H1 & H2 & H3), Hun as (H1' & H2' & H3').
    split; [by eapply same_node_trans|].
    split; by eapply same_row_trans.
Qed.

(** X17.  A node of the tree that is built which is not split is as the
    constructor made it: its feature is -1, its threshold and its gain are
    0, and the rows of its two children in the three buffers hold 0. *)
Theorem unsplit_nodes_untouched (context : TaskContext) (n o : Z) :
  let sc := scalars context in
  let tree := build_tree context in
  0 ≤ max_depth sc → 2 ^ (max_depth sc + 1) - 1 ≤ max_nodes sc →
  0 ≤ n < max_nodes sc → ¬ internal tree n →
  feature tree !! Z.to_nat n = Some (-1) ∧
  split_value tree !! Z.to_nat n = Some dzero ∧
  gain tree !! Z.to_nat n = Some dzero ∧
  gradient tree (2 * n + 1) o = dzero ∧ gradient tree (2 * n + 2) o = dzero ∧
  hessian tree (2 * n + 1) o = dzero ∧ hessian tree (2 * n + 2) o = dzero ∧
  leaf_value tree (2 * n + 1) o = dzero ∧
  leaf_value tree (2 * n + 2) o = dzero.
Proof.
  intros sc tree Hd Hfit Hn Hleaf. subst tree.
  rewrite build_tree_level in Hleaf |- *. fold sc in Hleaf |- *.
  set (D := Z.to_nat (max_depth sc)) in *.
  pose proof (LevelBegin_mono (Z.of_nat D) (max_depth sc + 1) ltac:(lia))
    as Hmono.
  assert (LevelBegin (Z.of_nat D) ≤ max_nodes sc) as Hcap
    by (unfold LevelBegin in *; lia).
  destruct (grown_tree_leaf context D n Hcap ltac:(lia) Hleaf)
    as ((Hf & Hs & Hg) & HL & HR).
  destruct (initial_tree_shape context) as (Hf0 & Hs0 & Hg0 & Hz).
  rewrite Hf, Hs, Hg, Hf0, Hs0, Hg0. fold sc.
  rewrite !lookup_replicate_2 by lia.
  do 3 (split; [done|]).
  change (2 * n + 1) with (LeftChild n).
  change (2 * n + 2) with (RightChild n).
  destruct (HL o) as (-> & -> & ->), (HR o) as (-> & -> & ->).
  unfold LeftChild, RightChild.
  destruct (Hz (2 * n + 1) o ltac:(lia)) as (-> & -> & ->).
  destruct (Hz (2 * n + 2) o ltac:(lia)) as (-> & -> & ->). done.
Qed.

End UnsplitNodes.

(** ** Where the active rows are *)

Section ActiveRows.
Context {DA : DoubleArith}.

(** X18.  A row that is still active at a depth [d >= 1] the loop reaches
    sits at a child of a node that is split: rows are never placed under a
    leaf. *)
Theorem active_rows_below_splits (context : TaskContext) (d row : nat)
  (p : Z) :
  let sc := scalars context in
  let X := in_X (inputs context) in
  2 ^ (max_depth sc + 1) - 1 ≤ max_nodes sc →
  (0 < d)%nat → Z.of_nat d < max_depth sc →
  lo0 (shape X) + Z.of_nat row ≤ hi0 (shape X) →
  positions (ls_builder (update_step context (Z.of_nat d)
                           (level_state context (Z.of_nat d)))) !! row
  = Some p →
  p ≠ -1 →
  internal (build_tree context) (Parent p) ∧
  (p = 2 * Parent p + 1 ∨ p = 2 * Parent p + 2).
Proof.
  intros sc X Hfit Hd0 Hd Hrow Hpos Hp.
  set (D := Z.to_nat (max_depth sc)).
  pose proof (LevelBegin_mono (Z.of_nat D) (max_depth sc + 1) ltac:(lia))
    as Hm1.
  pose proof (LevelBegin_mono (Z.of_nat d) (Z.of_nat D) ltac:(lia)) as Hm2.
  assert (LevelBegin (Z.of_nat D) ≤ max_nodes sc) as Hcap
    by (unfold LevelBegin in *; lia).
  rewrite positions_descend in Hpos by (fold sc X; lia).
  injection Hpos as Hpos. destruct d as [|d]; [lia|].
  cbn [descend] in Hpos. fold X in Hpos.
  set (t := ls_tree (level_state context (Z.of_nat (S d)))) in *.
  set (p0 := descend t X (lo0 (shape X) + Z.of_nat row) d) in *.
  destruct (next_position_cases t X (lo0 (shape X) + Z.of_nat row) p0)
    as [Hneg|(Hp0 & Hleaf & Hchild)]; [congruence|].
  rewrite Hpos in Hchild.
  destruct (Parent_children p0 Hp0) as [HpL HpR].
  assert (Parent p = p0) as ->
    by (destruct Hchild as [-> | ->]; done).
  split; [|exact Hchild].
  destruct (descend_in_level t X (lo0 (shape X) + Z.of_nat row) d)
    as [Hm|Hlev]; [fold p0 in Hm; lia|]. fold p0 in Hlev.
  replace (Z.of_nat d + 1) with (Z.of_nat (S d)) in Hlev by lia.
  destruct (level_state_lengths context (S d) ltac:(fold sc; lia))
    as (_ & _ & Hlen). fold t sc in Hlen.
  assert (∃ f, feature t !! Z.to_nat p0 = Some f) as [f Hf]
    by (apply lookup_lt_is_Some; lia).
  assert (internal t p0) as Hint.
  { split; [done|]. exists f. split; [done|].
    unfold IsLeaf, vec_at in Hleaf.
    rewrite (nth_lookup_Some _ _ _ _ Hf) in Hleaf.
    by apply Z.eqb_neq in Hleaf. }
  rewrite build_tree_level. fold sc D.
  destruct (level_state_frame context (S d) (D - S d)) as (Hnode & _).
  { replace (S d + (D - S d))%nat with D by lia. done. }
  replace (S d + (D - S d))%nat with D in Hnode by lia.
  destruct (Hnode (Z.to_nat p0) ltac:(left; lia)) as (Hsame & _).
  fold t in Hsame.
  destruct Hint as (_ & f' & Hf' & Hne). split; [done|].
  exists f'. split; [congruence|done].
Qed.

End ActiveRows.

(** ** Rows whose feature value is not a number *)

Lemma ieee_leb_nan (x v : float) :
  PrimFloat.leb x x = false → PrimFloat.leb x v = false.
Proof.
  rewrite !FloatAxioms.leb_spec. intros Hx.
  assert (Prim2SF x = S754_nan) as ->; [|done].
  destruct (Prim2SF x) as [s|s| |s m e] eqn:Hs; [| |done|];
    by rewrite (proj2 (SFleb_refl_iff _)) in Hx.
Qed.

(** X19.  In IEEE doubles, a row whose value of the node's feature is a NaN
    fails the test [x <= split_value] and goes to the right child, whatever
    the threshold. *)
Theorem nan_feature_goes_right (depth : Z) (tree : @Tree ieee)
  (X : @Store ieee) (positions : list Z) (row : nat) (p : Z) :
  let i := lo0 (shape X) + Z.of_nat row in
  let x := acc X i (vec_at 0 (feature tree) p) 0 in
  depth ≠ 0 → positions !! row = Some p → i ≤ hi0 (shape X) →
  0 ≤ p → IsLeaf tree p = false →
  PrimFloat.leb x x = false →
  UpdatePositions depth tree X positions !! row = Some (2 * p + 2).
Proof.
  intros i x Hd Hp Hi Hp0 Hleaf Hnan.
  rewrite UpdatePositions_lookup by done. rewrite Hp. simpl.
  destruct (Z.ltb_spec (Z.of_nat row)
              (hi0 (shape X) - lo0 (shape X) + 1)); [|lia].
  unfold next_position. rewrite Hleaf.
  destruct (Z.ltb_spec p 0); [lia|]. simpl. fold i. fold x.
  by rewrite (ieee_leb_nan x _ Hnan).
Qed.

(** ** The derived sibling in the arithmetic of the code *)

Section SiblingDerivation.
Context {DA : DoubleArith}.

(** X20.  In the arithmetic of the code, rounding included: when
    [ComputeHistogram(depth)] has run at a depth [>= 1], for every node [p]
    of the level above, the histogram of the child that is derived is, bin
    for bin and output for output, the histogram [p] had before the call
    minus the histogram the call leaves at the other child. *)
Theorem ComputeHistogram_derives_sibling (b : TreeBuilder) (depth : Z)
  (context : TaskContext) (tree : Tree) (pps : list (list Z))
  (p f bin o : Z) :
  let b' := ComputeHistogram b depth context tree pps in
  let hn := fst (SelectHistogramNode p (hessian tree)) in
  let sn := snd (SelectHistogramNode p (hessian tree)) in
  builder_wf b → 1 ≤ depth →
  level_positions context depth (positions b) pps →
  LevelBegin (depth - 1) ≤ p < LevelBegin depth →
  candidate b f bin → 0 ≤ o < num_outputs b →
  histogram_buffer b' sn bin o
  = gsub (histogram_buffer b p bin o) (histogram_buffer b' hn bin o).
Proof.
  intros b' hn sn Hwf Hd [Hown Hpeers] Hp Hc Ho. subst b'.
  unfold ComputeHistogram.
  set (reduced := λ node bin output : Z,
         if in_level_slab _ _ _ _ _ then _ else _).
  destruct (Scan_spec (with_histogram b reduced) depth tree Hwf Hd)
    as [_ Hsub].
  destruct (Hsub p f bin o Hp Hc Ho) as [Hh Hs].
  fold hn sn in Hh, Hs. rewrite Hs, Hh.
  assert (reduced p bin o = histogram_buffer b p bin o) as Hparent.
  { unfold reduced, in_level_slab.
    destruct (Z.leb_spec (LevelBegin depth) p); [lia|]. simpl.
    apply build_histogram_frame; [done|lia|lia]. }
  change (histogram_buffer (with_histogram b reduced) p bin o)
    with (reduced p bin o).
  by rewrite Hparent.
Qed.

End SiblingDerivation.

(** ** The further properties at concrete launches *)

Section InitialBuilder.
Context {DA : DoubleArith}.

Lemma initial_builder_wf (context : TaskContext) :
  let X := in_X (inputs context) in
  let nf := hi1 (shape X) - lo1 (shape X) + 1 in
  0 ≤ nf → nf * Z.max (split_samples (scalars context)) 0 < 2 ^ 31 →
  builder_wf (ls_builder (initial_state context)).
Proof.
  intros X nf Hnf Hbound.
  destruct (SelectSplitSamples_spec context X
              (split_samples (scalars context)) (seed (scalars context))
              (dataset_rows (scalars context)) Hnf Hbound) as (Hn & Hwf & _).
  split; [exact Hwf|exact Hn].
Qed.

End InitialBuilder.

(** Four rows, x = 0, 1, 2, 3, g = -2, -1, 1, 2, h = 1, [max_depth = 2]:
    the root and both its children are split. *)
Definition deep_context : TaskContext :=
  @Scenario.context ieee [0; 1; 2; 3]%float [-2; -1; 1; 2]%float
    [1; 1; 1; 1]%float 2 7 0%float.

(** The scenario of the single split, drawing no sample. *)
Definition unsampled_context : TaskContext :=
  mkContext (@Scenario.shard ieee [0; 0; 1; 1]%float [-1; -1; 1; 1]%float
               [1; 1; 1; 1]%float)
    (@mkScalars ieee 1 3 0%float 0 0 4) [] (λ i, i).

Lemma PerformBestSplit_splits_level_witness :
  split_record split_builder 0%float split_root
    (PerformBestSplit split_builder 0 split_root 0%float) 0.
Proof.
  destruct (@PerformBestSplit_splits_level ieee split_builder 0 split_root
              0%float) as (_ & _ & Hrec);
    [lia|split; vm_compute; reflexivity|vm_compute; done|vm_compute; done|].
  specialize (Hrec 0 ltac:(vm_compute; done)). cbv zeta in Hrec.
  match type of Hrec with
  | if ?c then _ else _ =>
      assert (c = true) as Hc by (vm_compute; reflexivity);
      rewrite Hc in Hrec
  end.
  exact Hrec.
Defined.

Lemma tree_depth_bounded_witness :
  length (feature (build_tree deep_context)) = 7%nat ∧
  ∀ n, internal (build_tree deep_context) n → n < 3.
Proof.
  destruct (@tree_depth_bounded ieee deep_context) as (Hf & _ & _ & Hn);
    [vm_compute; done|vm_compute; done|].
  split; [exact Hf|exact Hn].
Defined.

Lemma children_statistics_witness :
  let tree := build_tree deep_context in
  gradient tree 4 0 = gradient tree 1 0 -! gradient tree 3 0 ∧
  hessian tree 4 0 = hessian tree 1 0 -! hessian tree 3 0 ∧
  leaf_value tree 3 0
  = CalculateLeafValue (gradient tree 3 0) (hessian tree 3 0)
      (alpha (scalars deep_context)) ∧
  leaf_value tree 4 0
  = CalculateLeafValue (gradient tree 4 0) (hessian tree 4 0)
      (alpha (scalars deep_context)).
Proof.
  apply (@children_statistics ieee deep_context 1 0);
    [vm_compute; done|vm_compute; done| |vm_compute; done].
  split; [lia|]. exists 0. split; [vm_compute; reflexivity|lia].
Defined.

Lemma root_statistics_kept_witness :
  let tree := build_tree deep_context in
  let G := global_sum deep_context in_g 0 in
  let H := global_sum deep_context in_h 0 in
  gradient tree 0 0 = G ∧ hessian tree 0 0 = H ∧
  leaf_value tree 0 0
  = CalculateLeafValue G H (alpha (scalars deep_context)).
Proof.
  apply (@root_statistics_kept ieee deep_context 0); vm_compute; done.
Defined.

Lemma split_nodes_use_proposals_witness :
  let sp := SelectSplitSamples deep_context (in_X (inputs deep_context))
              4 0 4 in
  ∃ f bin,
    feature (build_tree deep_context) !! 2%nat = Some f ∧
    0 ≤ f < 1 ∧
    vec_at 0 (row_pointers sp) f ≤ bin < vec_at 0 (row_pointers sp) (f + 1) ∧
    split_value (build_tree deep_context) !! 2%nat
    = Some (vec_at dzero (split_proposals sp) bin).
Proof.
  apply (@split_nodes_use_proposals ieee ieee_laws deep_context 2);
    [vm_compute; done|vm_compute; done|].
  split; [lia|]. exists 0. split; [vm_compute; reflexivity|lia].
Defined.

Lemma split_nodes_connected_witness :
  (2 = 0 ∨ internal (build_tree deep_context) (Parent 2)) ∧
  internal (build_tree deep_context) 0.
Proof.
  apply (@split_nodes_connected ieee ieee_laws ieee_negation deep_context 2);
    [vm_compute; done|vm_compute; done|vm_compute; done|].
  split; [lia|]. exists 0. split; [vm_compute; reflexivity|lia].
Defined.

Lemma positions_follow_tree_witness :
  positions (ls_builder (update_step deep_context 1
                           (level_state deep_context 1))) !! 2%nat
  = Some (descend (build_tree deep_context) (in_X (inputs deep_context)) 2 1).
Proof.
  apply (@positions_follow_tree ieee deep_context 1 2); vm_compute; done.
Defined.

Lemma thresholds_are_samples_witness :
  let X := in_X (inputs deep_context) in
  let sp := SelectSplitSamples deep_context X 4 0 4 in
  ∃ i, 0 ≤ i < 4 ∧
       vec_at dzero (split_proposals sp) 2 = draft_value deep_context X 0 i.
Proof.
  apply (@thresholds_are_samples ieee deep_context
           (in_X (inputs deep_context)) 4 0 4 0 2); vm_compute; done.
Defined.

Lemma thresholds_per_feature_witness :
  let X := in_X (inputs deep_context) in
  let sp := SelectSplitSamples deep_context X 4 0 4 in
  let count := vec_at 0 (row_pointers sp) (0 + 1)
               - vec_at 0 (row_pointers sp) 0 in
  0 ≤ count ≤ Z.max 4 0 ∧ (0 < 4 → 1 ≤ count).
Proof.
  apply (@thresholds_per_feature ieee deep_context
           (in_X (inputs deep_context)) 4 0 4 0); vm_compute; done.
Defined.

Lemma no_samples_no_splits_witness :
  ¬ internal (build_tree unsampled_context) 0.
Proof.
  apply (@no_samples_no_splits ieee ieee_laws unsampled_context 0);
    vm_compute; done.
Defined.

Lemma live_nodes_histograms_witness :
  let c := exact_context in
  let st := update_step c 1 (level_state c 1) in
  let b := ls_builder st in
  let pps := ls_peer_positions st in
  histogram_buffer (ComputeHistogram b 1 c (ls_tree st) pps) 2 2 0
  = direct_histogram b c pps 2 2 0.
Proof.
  apply (@live_nodes_histograms exact exact_laws exact_ring_laws
           exact_context 1 2 0 2 0); try (vm_compute; done).
  right. split; [vm_compute; done|].
  exists 0. split; [vm_compute; reflexivity|lia].
Defined.

Lemma AddSplit_then_IsLeaf_witness :
  IsLeaf (AddSplit split_root 0 0 1%float [0%float] [0%float] 2%float
            [0%float] [0%float] [1%float] [1%float]) 0
  = false.
Proof.
  exact (@AddSplit_then_IsLeaf ieee split_root 0 0 1%float [0%float]
           [0%float] 2%float [0%float] [0%float] [1%float] [1%float] 0
           ltac:(vm_compute; done) ltac:(lia)).
Defined.




(** The builder of [deep_context] when the row loop of
    [ComputeHistogram(1)] has run and [Scan(1)] has not: node 0 holds its
    scanned histogram, node 2 the cells of rows 2 and 3. *)
Definition unscanned_builder : TreeBuilder :=
  let st := update_step deep_context 1 (level_state deep_context 1) in
  let b := ls_builder st in
  with_histogram b
    (build_histogram b 1 (ls_tree st) (inputs deep_context) (positions b)
       (histogram_buffer b)).

Lemma Scan_scans_and_subtracts_witness :
  let b := unscanned_builder in
  let tree := ls_tree (level_state deep_context 1) in
  let hb := histogram_buffer b in
  let hb' := histogram_buffer (Scan b 1 tree) in
  let running bin :=
    gsum_range (fst (FeatureRange (tb_split_proposals b) 0)) (bin + 1)
      (λ b', hb 2 b' 0) in
  SelectHistogramNode 0 (hessian tree) = (2, 1) ∧
  hb 2 2 0 = @mkGPair ieee 1%float 1%float ∧
  hb 2 3 0 = @mkGPair ieee 2%float 1%float ∧
  hb 0 3 0 = @mkGPair ieee 0%float 4%float ∧
  hb' 2 3 0 = running 3 ∧
  hb' 1 3 0 = gsub (hb 0 3 0) (running 3) ∧
  hb' 2 3 0 = @mkGPair ieee 3%float 2%float ∧
  hb' 1 3 0 = @mkGPair ieee (-3)%float 2%float.
Proof.
  assert (SelectHistogramNode 0
            (hessian (ls_tree (level_state deep_context 1))) = (2, 1))
    as Hsel by (vm_compute; reflexivity).
  split; [exact Hsel|].
  do 3 (split; [vm_compute; reflexivity|]).
  destruct (@Scan_scans_and_subtracts ieee unscanned_builder 1
              (ls_tree (level_state deep_context 1)))
    as (_ & _ & Hsub).
  { eapply builder_wf_same_constants;
      [|apply (initial_builder_wf deep_context); vm_compute; done].
    repeat split; vm_compute; reflexivity. }
  { lia. }
  destruct (Hsub ltac:(lia) 0 0 3 0) as [Hh Hs].
  { vm_compute. repeat split; done. }
  { vm_compute. repeat split; done. }
  { vm_compute. repeat split; done. }
  rewrite Hsel in Hh, Hs. cbn [fst snd] in Hh, Hs.
  split; [exact Hh|]. split; [exact Hs|].
  split; vm_compute; reflexivity.
Defined.

Lemma ComputeHistogram_writes_level_witness :
  let st := update_step deep_context 1 (level_state deep_context 1) in
  let b := ls_builder st in
  histogram_buffer
    (ComputeHistogram b 1 deep_context (ls_tree st) (ls_peer_positions st))
    0 2 0
  = histogram_buffer b 0 2 0.
Proof.
  apply (@ComputeHistogram_writes_level ieee
           (ls_builder (update_step deep_context 1
                          (level_state deep_context 1)))
           1 deep_context);
    [|lia|exact (positions_ok_after_update deep_context 1)
     |left; vm_compute; done].
  eapply builder_wf_same_constants;
    [apply (update_step_constants deep_context 1)|].
  apply initial_builder_wf; vm_compute; done.
Defined.

Lemma samples_have_thresholds_witness :
  let X := in_X (inputs deep_context) in
  let sp := SelectSplitSamples deep_context X 4 0 4 in
  ∃ bin,
    vec_at 0 (row_pointers sp) 0 ≤ bin < vec_at 0 (row_pointers sp) (0 + 1) ∧
    vec_at dzero (split_proposals sp) bin <! draft_value deep_context X 0 3
    = false ∧
    draft_value deep_context X 0 3 <! vec_at dzero (split_proposals sp) bin
    = false.
Proof.
  apply (@samples_have_thresholds ieee ieee_laws deep_context
           (in_X (inputs deep_context)) 4 0 4 0 3); vm_compute; done.
Defined.

Lemma unsplit_nodes_untouched_witness :
  let tree := build_tree deep_context in
  feature tree !! 3%nat = Some (-1) ∧
  split_value tree !! 3%nat = Some dzero ∧
  gain tree !! 3%nat = Some dzero ∧
  gradient tree 7 0 = dzero ∧ gradient tree 8 0 = dzero ∧
  hessian tree 7 0 = dzero ∧ hessian tree 8 0 = dzero ∧
  leaf_value tree 7 0 = dzero ∧ leaf_value tree 8 0 = dzero.
Proof.
  apply (@unsplit_nodes_untouched ieee ieee_laws deep_context 3 0);
    [vm_compute; done|vm_compute; done|vm_compute; done|].
  intros (_ & f & Hf & Hne). vm_compute in Hf. congruence.
Defined.

Lemma active_rows_below_splits_witness :
  internal (build_tree deep_context) (Parent 2) ∧
  (2 = 2 * Parent 2 + 1 ∨ 2 = 2 * Parent 2 + 2).
Proof.
  apply (@active_rows_below_splits ieee deep_context 1 2 2);
    [vm_compute; done|lia|vm_compute; done|vm_compute; done
    |vm_compute; reflexivity|lia].
Defined.

(** One row whose feature value is a NaN, under a root split on feature 0
    at threshold 1. *)
Definition nan_store : @Store ieee :=
  @mkStore ieee (Scenario.rect 1 1 1) (λ _ _ _, PrimFloat.nan) true.

Lemma nan_feature_goes_right_witness :
  UpdatePositions 1 (build_tree split_context) nan_store [0] !! 0%nat
  = Some 2.
Proof.
  apply (@nan_feature_goes_right 1 (build_tree split_context) nan_store
           [0] 0 0); try (vm_compute; done); lia.
Defined.

Lemma ComputeHistogram_derives_sibling_witness :
  let st := update_step rounding_context 1 (level_state rounding_context 1) in
  let b := ls_builder st in
  let b' := ComputeHistogram b 1 rounding_context (ls_tree st)
              (ls_peer_positions st) in
  histogram_buffer b' (snd (SelectHistogramNode 0 (hessian (ls_tree st)))) 2 0
  = gsub (histogram_buffer b 0 2 0)
      (histogram_buffer b'
         (fst (SelectHistogramNode 0 (hessian (ls_tree st)))) 2 0).
Proof.
  apply (@ComputeHistogram_derives_sibling ieee
           (ls_builder (update_step rounding_context 1
                          (level_state rounding_context 1)))
           1 rounding_context _ _ 0 0 2 0);
    [|lia|exact (positions_ok_after_update rounding_context 1)
     |vm_compute; done|vm_compute; done|vm_compute; done].
  eapply builder_wf_same_constants;
    [apply (update_step_constants rounding_context 1)|].
  apply initial_builder_wf; vm_compute; done.
Defined.
